(** * aptos_telegram_wall: the spam classifier and the offense ledger

    A shallow embedding of [main.go]: the classifier [IsSpam] with the two
    regular expressions and the keyword table of [NewSpamDetector], and the
    ledger [RecordSpam] over the [spam_records] table.

    Go strings are byte sequences: they are [string] here, one [ascii] per
    byte.  [regexp] and [strings.ToLower] read them as UTF-8, so the Go
    library functions that [IsSpam] calls are modelled down to
    [utf8.DecodeRuneInString].  [database/sql] is modelled as a keyed table
    with an explicit schedule of the errors the driver is going to return. *)

From Stdlib Require Import ZArith Lia List Bool Ascii String DecimalString.
From stdpp Require Import base gmap strings.
Import ListNotations.

Local Open Scope Z_scope.

(** A rune is a Go [int32]; a byte is a [Z] in [0, 256). *)
Abbreviation rune := Z.

Definition ch (c : ascii) : Z := Z.of_N (N_of_ascii c).
Arguments ch c%_char.

Fixpoint bytes (s : string) : list Z :=
  match s with
  | EmptyString => []
  | String c s' => ch c :: bytes s'
  end.

(** [byte(r)]: the low eight bits. *)
Definition byte (b : Z) : ascii := ascii_of_N (Z.to_N (b mod 256)).

Fixpoint of_bytes (l : list Z) : string :=
  match l with
  | [] => EmptyString
  | b :: l' => String (byte b) (of_bytes l')
  end.

(** ** unicode/utf8 *)
Module utf8.

Definition RuneError : rune := 0xFFFD.
Definition RuneSelf : Z := 0x80.
Definition MaxRune : rune := 0x10FFFF.

Definition surrogateMin : Z := 0xD800.
Definition surrogateMax : Z := 0xDFFF.

Definition tx : Z := 0x80.
Definition t2 : Z := 0xC0.
Definition t3 : Z := 0xE0.
Definition t4 : Z := 0xF0.

Definition maskx : Z := 0x3F.
Definition mask2 : Z := 0x1F.
Definition mask3 : Z := 0x0F.
Definition mask4 : Z := 0x07.

Definition rune1Max : Z := 0x7F.
Definition rune2Max : Z := 0x7FF.
Definition rune3Max : Z := 0xFFFF.

Definition locb : Z := 0x80.
Definition hicb : Z := 0xBF.

(** Entries of the table [first]: the low bits are the size of the
    encoding, the high bits index [acceptRanges]. *)
Definition xx : Z := 0xF1.
Definition as_ : Z := 0xF0.
Definition s1 : Z := 0x02.
Definition s2 : Z := 0x13.
Definition s3 : Z := 0x03.
Definition s4 : Z := 0x23.
Definition s5 : Z := 0x34.
Definition s6 : Z := 0x04.
Definition s7 : Z := 0x44.

Definition first (b : Z) : Z :=
  if b <=? 0x7F then as_
  else if b <=? 0xC1 then xx
  else if b <=? 0xDF then s1
  else if b =? 0xE0 then s2
  else if b <=? 0xEC then s3
  else if b =? 0xED then s4
  else if b <=? 0xEF then s3
  else if b =? 0xF0 then s5
  else if b <=? 0xF3 then s6
  else if b =? 0xF4 then s7
  else xx.

Definition acceptRanges (i : Z) : Z * Z :=
  if i =? 0 then (locb, hicb)
  else if i =? 1 then (0xA0, hicb)
  else if i =? 2 then (locb, 0x9F)
  else if i =? 3 then (0x90, hicb)
  else if i =? 4 then (locb, 0x8F)
  else (0, 0).

Definition DecodeRuneInString (s : list Z) : rune * nat :=
  match s with
  | [] => (RuneError, 0%nat)
  | s0 :: _ =>
    let x := first s0 in
    if as_ <=? x then ((if x =? xx then RuneError else s0), 1%nat)
    else
      let sz := Z.to_nat (Z.land x 7) in
      let accept := acceptRanges (Z.shiftr x 4) in
      if (length s <? sz)%nat then (RuneError, 1%nat)
      else
        let s1 := nth 1 s 0 in
        if (s1 <? fst accept) || (snd accept <? s1) then (RuneError, 1%nat)
        else if (sz <=? 2)%nat then
          (Z.lor (Z.shiftl (Z.land s0 mask2) 6) (Z.land s1 maskx), 2%nat)
        else
          let s2 := nth 2 s 0 in
          if (s2 <? locb) || (hicb <? s2) then (RuneError, 1%nat)
          else if (sz <=? 3)%nat then
            (Z.lor (Z.lor (Z.shiftl (Z.land s0 mask3) 12)
                          (Z.shiftl (Z.land s1 maskx) 6))
                   (Z.land s2 maskx), 3%nat)
          else
            let s3 := nth 3 s 0 in
            if (s3 <? locb) || (hicb <? s3) then (RuneError, 1%nat)
            else
              (Z.lor (Z.lor (Z.lor (Z.shiftl (Z.land s0 mask4) 18)
                                   (Z.shiftl (Z.land s1 maskx) 12))
                            (Z.shiftl (Z.land s2 maskx) 6))
                     (Z.land s3 maskx), 4%nat)
  end.

(** [r] seen as a [uint32]. *)
Definition uint32 (r : rune) : Z := r mod 2 ^ 32.

Definition appendRuneNonASCII (p : list Z) (r : rune) : list Z :=
  let i := uint32 r in
  let three (r : rune) :=
    [Z.lor t3 (Z.shiftr r 12 mod 256);
     Z.lor tx (Z.land (Z.shiftr r 6 mod 256) maskx);
     Z.lor tx (Z.land (r mod 256) maskx)] in
  if i <=? rune2Max then
    p ++ [Z.lor t2 (Z.shiftr r 6 mod 256); Z.lor tx (Z.land (r mod 256) maskx)]
  else if (MaxRune <? i) || ((surrogateMin <=? i) && (i <=? surrogateMax)) then
    p ++ three RuneError
  else if i <=? rune3Max then
    p ++ three r
  else
    p ++ [Z.lor t4 (Z.shiftr r 18 mod 256);
          Z.lor tx (Z.land (Z.shiftr r 12 mod 256) maskx);
          Z.lor tx (Z.land (Z.shiftr r 6 mod 256) maskx);
          Z.lor tx (Z.land (r mod 256) maskx)].

Definition AppendRune (p : list Z) (r : rune) : list Z :=
  if uint32 r <=? rune1Max then p ++ [r mod 256]
  else appendRuneNonASCII p r.

(** The runes a [for _, c := range s] loop sees, which are also the ones
    [regexp] steps through: [DecodeRuneInString] again and again, an
    invalid byte being one [RuneError] of width 1.  The fuel is the
    number of bytes: every step consumes at least one. *)
Fixpoint decode (fuel : nat) (s : list Z) : list rune :=
  match fuel, s with
  | S fuel', _ :: _ =>
    let '(r, size) := DecodeRuneInString s in
    r :: decode fuel' (drop size s)
  | _, _ => []
  end.

Definition runes (s : list Z) : list rune := decode (length s) s.

End utf8.

(** ** unicode *)
Module unicode.

Definition MaxASCII : rune := 0x7F.

(** [unicode.CaseRanges] is a table of the Go distribution, not of this
    repository: [To(LowerCase, r)] for the runes above [MaxASCII] is a
    parameter of the development. *)
Class CaseRanges := { To_LowerCase : rune -> rune }.

Definition ToLower `{CaseRanges} (r : rune) : rune :=
  if r <=? MaxASCII then
    (if (ch "A" <=? r) && (r <=? ch "Z") then r + (ch "a" - ch "A") else r)
  else To_LowerCase r.

(** [unicode.SimpleFold] on the orbits that meet ASCII: [{A,a}] ...
    [{Z,z}], where [K], [k] share theirs with U+212A (Kelvin sign) and
    [S], [s] with U+017F (long s).  Every rune of the two patterns of
    [NewSpamDetector] is ASCII, so no other orbit is ever walked; on the
    runes outside these orbits the function below is the identity. *)
Definition SimpleFold (r : rune) : rune :=
  if r =? ch "k" then 0x212A
  else if r =? 0x212A then ch "K"
  else if r =? ch "s" then 0x17F
  else if r =? 0x17F then ch "S"
  else if (ch "A" <=? r) && (r <=? ch "Z") then r + 32
  else if (ch "a" <=? r) && (r <=? ch "z") then r - 32
  else r.

End unicode.

(** ** strings *)
Module strings.

Fixpoint HasPrefix (s prefix : string) {struct prefix} : bool :=
  match prefix, s with
  | EmptyString, _ => true
  | String p prefix', String c s' => Ascii.eqb p c && HasPrefix s' prefix'
  | String _ _, EmptyString => false
  end.

(** [Index(s, substr) >= 0]: [substr] starts at some offset of [s]. *)
Fixpoint Contains (s substr : string) : bool :=
  HasPrefix s substr
  || match s with
     | EmptyString => false
     | String _ s' => Contains s' substr
     end.

(** [Map]: every rune of [s] is replaced by the encoding of its image, a
    negative image dropping the rune. *)
Definition Map (mapping : rune -> rune) (s : string) : string :=
  of_bytes
    (fold_left
       (fun b c => let r := mapping c in if 0 <=? r then utf8.AppendRune b r else b)
       (utf8.runes (bytes s)) []).

Definition isASCII (s : string) : bool :=
  forallb (fun c => c <? utf8.RuneSelf) (bytes s).

Definition hasUpper (s : string) : bool :=
  existsb (fun c => (ch "A" <=? c) && (c <=? ch "Z")) (bytes s).

Definition ToLower `{unicode.CaseRanges} (s : string) : string :=
  if isASCII s then
    if negb (hasUpper s) then s
    else
      of_bytes
        (map (fun c => if (ch "A" <=? c) && (c <=? ch "Z")
                       then c + (ch "a" - ch "A") else c)
             (bytes s))
  else Map unicode.ToLower s.

End strings.

(** ** regexp/syntax *)
Module syntax.

(** The parsed form of a pattern.  [foldCase] is the [(?i)] flag the
    parser leaves on a literal; on a class it stands for the folded ranges
    the parser adds to it.  Concatenation and alternation are binary
    here, [concat] and [alternate] build them from a list. *)
Inductive Regexp : Type :=
| OpNoMatch
| OpEmptyMatch
| OpLiteral (foldCase : bool) (r : list rune)
| OpCharClass (foldCase : bool) (ranges : list (rune * rune))
| OpWordBoundary
| OpCapture (sub : Regexp)
| OpStar (sub : Regexp)
| OpPlus (sub : Regexp)
| OpQuest (sub : Regexp)
| OpConcat (sub0 sub1 : Regexp)
| OpAlternate (sub0 sub1 : Regexp).

Fixpoint concat (subs : list Regexp) : Regexp :=
  match subs with
  | [] => OpEmptyMatch
  | [re] => re
  | re :: subs' => OpConcat re (concat subs')
  end.

Fixpoint alternate (subs : list Regexp) : Regexp :=
  match subs with
  | [] => OpNoMatch
  | [re] => re
  | re :: subs' => OpAlternate re (alternate subs')
  end.

Definition IsWordChar (r : rune) : bool :=
  (ch "a" <=? r) && (r <=? ch "z")
  || (ch "A" <=? r) && (r <=? ch "Z")
  || (ch "0" <=? r) && (r <=? ch "9")
  || (r =? ch "_").

End syntax.

(** ** regexp *)
Module regexp.
Import syntax.

(** A position in the input: the rune before it ([-1] at the beginning of
    the text, as in [regexp]'s [context]) and the runes from it on. *)
Definition pos : Type := rune * list rune.

Definition endOfText : rune := -1.

Definition next (p : pos) : rune :=
  match snd p with
  | [] => endOfText
  | r :: _ => r
  end.

(** [Inst.MatchRunePos] for a one-rune literal: the rune itself, or with
    [foldCase] one of its [SimpleFold] orbit (at most three runes for an
    ASCII rune). *)
Definition matchRune (foldCase : bool) (r0 r : rune) : bool :=
  (r =? r0)
  || foldCase
     && ((r =? unicode.SimpleFold r0)
         || (r =? unicode.SimpleFold (unicode.SimpleFold r0))).

Definition inRanges (ranges : list (rune * rune)) (r : rune) : bool :=
  existsb (fun lohi => (fst lohi <=? r) && (r <=? snd lohi)) ranges.

Definition matchClass (foldCase : bool) (ranges : list (rune * rune)) (r : rune) : bool :=
  inRanges ranges r
  || foldCase
     && (inRanges ranges (unicode.SimpleFold r)
         || inRanges ranges (unicode.SimpleFold (unicode.SimpleFold r))).

Fixpoint literal (foldCase : bool) (rs : list rune) (p : pos) : list pos :=
  match rs with
  | [] => [p]
  | r0 :: rs' =>
    match snd p with
    | r :: rest => if matchRune foldCase r0 r then literal foldCase rs' (r, rest) else []
    | [] => []
    end
  end.

(** Zero or more rounds of [step], each of which has to consume input, so
    that as many rounds as there are runes left are enough. *)
Fixpoint star (step : pos -> list pos) (fuel : nat) (p : pos) : list pos :=
  match fuel with
  | O => [p]
  | S fuel' =>
    flat_map (star step fuel')
             (List.filter (fun q => (length (snd q) <? length (snd p))%nat) (step p))
    ++ [p]
  end.

(** The positions at which a match of [re] that starts at [p] can end. *)
Fixpoint run (re : Regexp) (p : pos) : list pos :=
  match re with
  | OpNoMatch => []
  | OpEmptyMatch => [p]
  | OpLiteral foldCase rs => literal foldCase rs p
  | OpCharClass foldCase ranges =>
    match snd p with
    | r :: rest => if matchClass foldCase ranges r then [(r, rest)] else []
    | [] => []
    end
  | OpWordBoundary =>
    if xorb (IsWordChar (fst p)) (IsWordChar (next p)) then [p] else []
  | OpCapture sub => run sub p
  | OpStar sub => star (run sub) (length (snd p)) p
  | OpPlus sub => flat_map (fun q => star (run sub) (length (snd q)) q) (run sub p)
  | OpQuest sub => run sub p ++ [p]
  | OpConcat sub0 sub1 => flat_map (run sub1) (run sub0 p)
  | OpAlternate sub0 sub1 => run sub0 p ++ run sub1 p
  end.

Fixpoint positions (prev : rune) (s : list rune) : list pos :=
  (prev, s)
  :: match s with
     | [] => []
     | r :: s' => positions r s'
     end.

Definition matchesAt (re : Regexp) (p : pos) : bool :=
  match run re p with
  | [] => false
  | _ :: _ => true
  end.

(** [MatchString]: the unanchored search tries every rune boundary. *)
Definition MatchString (re : Regexp) (s : string) : bool :=
  existsb (matchesAt re) (positions endOfText (utf8.runes (bytes s))).

End regexp.

(** ** database/sql and log *)

Definition error := string.

Inductive result (A : Type) : Type :=
| Ok (a : A)
| Err (e : error).
Arguments Ok {A} a.
Arguments Err {A} e.

(** What the process acts on: the rows of [spam_records] keyed by
    [(chat_id, user_id)], the lines written by [log.Printf], and the errors
    the driver is going to return, one entry per call into [database/sql]
    ([None]: the call succeeds; an exhausted schedule: no more errors). *)
Record world : Type := World {
  spam_records : gmap (Z * Z) Z;
  log_output : list string;
  driver_errors : list (option error)
}.

Definition IO (A : Type) : Type := world -> A * world.

Definition ret {A} (a : A) : IO A := fun w => (a, w).

Definition bind {A B} (m : IO A) (k : A -> IO B) : IO B :=
  fun w => let '(a, w') := m w in k a w'.

Notation "x <- m ;; k" := (bind m (fun x => k))
  (at level 100, m at next level, right associativity).
Notation "m ;;; k" := (bind m (fun _ => k))
  (at level 100, right associativity).

Definition log_Printf (line : string) : IO unit :=
  fun w => (tt, World (spam_records w) (log_output w ++ [line]) (driver_errors w)).

(** The next entry of the schedule. *)
Definition driver_call : IO (option error) :=
  fun w =>
    match driver_errors w with
    | [] => (None, w)
    | e :: es => (e, World (spam_records w) (log_output w) es)
    end.

Definition sql_Open : IO (option error) := driver_call.

(** [CREATE TABLE IF NOT EXISTS spam_records (...)]: the rows stay. *)
Definition Exec_create_table : IO (option error) := driver_call.

(** The column [count] is an SQLite INTEGER, a signed integer of 64 bits.
    A row is kept here as the number it holds.  The numbers from
    [MinInt64] to [MaxInt64] are the INTEGER values; [count + 1] at
    [MaxInt64] overflows, SQLite computes it in floating point and the row
    then holds the REAL 2^63, which is no INTEGER; any larger number is a
    REAL as well. *)
Definition MinInt64 : Z := - 2 ^ 63.
Definition MaxInt64 : Z := 2 ^ 63 - 1.

Definition is_INTEGER (count : Z) : bool :=
  (MinInt64 <=? count) && (count <=? MaxInt64).

(** [count + 1] as SQLite computes it: exact on an INTEGER (the REAL 2^63
    at [MaxInt64]), and without effect on a REAL of this size, whose
    neighbours among the floating-point numbers are more than 1 away. *)
Definition add_one (count : Z) : Z :=
  if is_INTEGER count then count + 1 else count.

(** [INSERT INTO spam_records (chat_id, user_id, count) VALUES (?, ?, 1)
     ON CONFLICT(chat_id, user_id) DO UPDATE SET count = count + 1]. *)
Definition upsert (chatID userID : Z) (t : gmap (Z * Z) Z) : gmap (Z * Z) Z :=
  match t !! (chatID, userID) with
  | None => <[(chatID, userID) := 1]> t
  | Some count => <[(chatID, userID) := add_one count]> t
  end.

(** A statement that fails changes no row. *)
Definition Exec_upsert (chatID userID : Z) : IO (option error) :=
  err <- driver_call ;;
  match err with
  | Some e => ret (Some e)
  | None =>
    fun w => (None, World (upsert chatID userID (spam_records w))
                          (log_output w) (driver_errors w))
  end.

Definition ErrNoRows : error := "sql: no rows in result set".

Definition DQUOTE : string := String "034" "".

(** The error of [Scan] when the row holds a REAL: [database/sql] writes
    the [float64] as a string and [strconv.ParseInt] refuses it.  The
    number in the message is that of the REAL 2^63, the one REAL that the
    upsert itself can leave in a row. *)
Definition Scan_error : error :=
  "sql: Scan error on column index 0, name " +:+ DQUOTE +:+ "count" +:+ DQUOTE
  +:+ ": converting driver.Value type float64 (" +:+ DQUOTE
  +:+ "9.223372036854776e+18" +:+ DQUOTE +:+ ") to a int: invalid syntax".

(** [QueryRow("SELECT count FROM spam_records WHERE chat_id = ? AND
     user_id = ?").Scan(&count)], [count] being a Go [int], of 64 bits on
    the platforms of today: an INTEGER fits it, a REAL is an error. *)
Definition QueryRow_Scan_count (chatID userID : Z) : IO (result Z) :=
  err <- driver_call ;;
  match err with
  | Some e => ret (Err e)
  | None =>
    fun w =>
      match spam_records w !! (chatID, userID) with
      | Some count =>
        if is_INTEGER count then (Ok count, w) else (Err Scan_error, w)
      | None => (Err ErrNoRows, w)
      end
  end.

(** ** main.go *)

Record SpamDetector : Type := {
  linkPattern : syntax.Regexp;
  mentionPattern : syntax.Regexp;
  spamKeywords : list string;
  banThreshold : Z
}.

Section patterns.
Import syntax.

Definition lit (foldCase : bool) (s : string) : Regexp := OpLiteral foldCase (bytes s).

Definition range (lo hi : ascii) : rune * rune := (ch lo, ch hi).
Arguments range lo%_char hi%_char.

(** [(?i)(https?://|t\.me/|bit\.ly|tinyurl|telegram\.me|www\.|[a-z0-9][-a-z0-9]*\.(com|net|org|io|me|co|xyz|info|biz|tv|cc|ru|kr|cn)\b)] *)
Definition linkPattern_re : Regexp :=
  let i := true in
  OpCapture
    (alternate
       [ concat [lit i "http"; OpQuest (lit i "s"); lit i "://"];
         lit i "t.me/";
         lit i "bit.ly";
         lit i "tinyurl";
         lit i "telegram.me";
         lit i "www.";
         concat
           [ OpCharClass i [range "a" "z"; range "0" "9"];
             OpStar (OpCharClass i [range "-" "-"; range "a" "z"; range "0" "9"]);
             lit i ".";
             OpCapture
               (alternate
                  [ lit i "com"; lit i "net"; lit i "org"; lit i "io"; lit i "me";
                    lit i "co"; lit i "xyz"; lit i "info"; lit i "biz"; lit i "tv";
                    lit i "cc"; lit i "ru"; lit i "kr"; lit i "cn" ]);
             OpWordBoundary ] ]).

(** [@[a-zA-Z0-9_]+] *)
Definition mentionPattern_re : Regexp :=
  concat
    [ lit false "@";
      OpPlus (OpCharClass false
                [range "a" "z"; range "A" "Z"; range "0" "9"; range "_" "_"]) ].

End patterns.

(** The detector [NewSpamDetector] builds; its [db] handle is the table of
    the [world]. *)
Definition spamDetector : SpamDetector := {|
  linkPattern := linkPattern_re;
  mentionPattern := mentionPattern_re;
  spamKeywords :=
    [ "earn money"; "make money fast"; "investment opportunity";
      "double your"; "guaranteed profit"; "free money";
      "click here"; "join now"; "limited time offer";
      "act now"; "don't miss"; "exclusive deal";
      "work from home"; "be your own boss"; "financial freedom";
      "forex signal"; "trading signal"; "casino"; "betting" ];
  banThreshold := 3
|}.

Definition NewSpamDetector : IO (result SpamDetector) :=
  err <- sql_Open ;;
  match err with
  | Some e => ret (Err ("failed to open database: " +:+ e))
  | None =>
    err <- Exec_create_table ;;
    match err with
    | Some e => ret (Err ("failed to create table: " +:+ e))
    | None => ret (Ok spamDetector)
    end
  end.

(** [RecordSpam] increments the spam count of the user and returns
    (current count, should ban). *)
Definition RecordSpam (sd : SpamDetector) (chatID userID : Z) : IO (Z * bool) :=
  err <- Exec_upsert chatID userID ;;
  match err with
  | Some e =>
    log_Printf ("Failed to record spam: " +:+ e) ;;;
    ret (0, false)
  | None =>
    res <- QueryRow_Scan_count chatID userID ;;
    match res with
    | Err e =>
      log_Printf ("Failed to get spam count: " +:+ e) ;;;
      ret (0, false)
    | Ok count => ret (count, count >=? banThreshold sd)
    end
  end.

Section classifier.
Context `{unicode.CaseRanges}.

Definition IsSpam (sd : SpamDetector) (text : string) : bool * string * string :=
  let lowerText := strings.ToLower text in
  let hasLink := regexp.MatchString (linkPattern sd) text in
  let hasMention := regexp.MatchString (mentionPattern sd) text in
  if hasLink then (true, "URL detected", "URL 감지")
  else if hasMention then
    match find (fun keyword => strings.Contains lowerText keyword) (spamKeywords sd) with
    | Some keyword => (true, "spam keyword with mention: " +:+ keyword, "멘션+스팸 키워드")
    | None => (false, "", "")
    end
  else (false, "", "").

End classifier.

(** A table for the examples: the identity but for U+212A (Kelvin sign) and
    U+0130 (capital I with dot above), which lower to [k] and [i]. *)
Definition example_CaseRanges : unicode.CaseRanges :=
  {| unicode.To_LowerCase r :=
       if r =? 0x212A then ch "k" else if r =? 0x130 then ch "i" else r |}.

(** ** Runs of the ledger *)

(** One [RecordSpam] per key of [calls], in order, as the message loop of
    [main] issues them; the results are collected. *)
Fixpoint RecordSpam_each (sd : SpamDetector) (calls : list (Z * Z)) : IO (list (Z * bool)) :=
  match calls with
  | [] => ret []
  | (chatID, userID) :: calls' =>
    r <- RecordSpam sd chatID userID ;;
    rs <- RecordSpam_each sd calls' ;;
    ret (r :: rs)
  end.

(** The count of a key, a key without a row counting for 0. *)
Definition count_of (t : gmap (Z * Z) Z) (key : Z * Z) : Z :=
  default 0 (t !! key).

(** The first [n] calls into the driver return no error. *)
Definition driver_healthy (n : nat) (w : world) : Prop :=
  Forall (fun e => e = None) (take n (driver_errors w)).

(** The count can be incremented and read back: it is an INTEGER below
    [MaxInt64]. *)
Definition incrementable (count : Z) : Prop :=
  MinInt64 <= count < MaxInt64.

(** What one call does, by the first two entries of the schedule and by
    the count of the row. *)
Inductive RecordSpam_outcome (sd : SpamDetector) (chatID userID : Z) (w : world) : Z * bool -> world -> Prop :=
| upsert_failed e es :
    driver_errors w = Some e :: es ->
    RecordSpam_outcome sd chatID userID w (0, false)
      (World (spam_records w)
             (log_output w ++ ["Failed to record spam: " +:+ e]) es)
| scan_failed e es :
    driver_errors w = None :: Some e :: es ->
    RecordSpam_outcome sd chatID userID w (0, false)
      (World (upsert chatID userID (spam_records w))
             (log_output w ++ ["Failed to get spam count: " +:+ e]) es)
| scan_refused :
    driver_healthy 2 w ->
    ~ incrementable (count_of (spam_records w) (chatID, userID)) ->
    RecordSpam_outcome sd chatID userID w (0, false)
      (World (upsert chatID userID (spam_records w))
             (log_output w ++ ["Failed to get spam count: " +:+ Scan_error])
             (drop 2 (driver_errors w)))
| recorded count :
    driver_healthy 2 w ->
    incrementable (count_of (spam_records w) (chatID, userID)) ->
    count = count_of (spam_records w) (chatID, userID) + 1 ->
    RecordSpam_outcome sd chatID userID w (count, count >=? banThreshold sd)
      (World (upsert chatID userID (spam_records w))
             (log_output w) (drop 2 (driver_errors w))).

(** ** What a pattern matches *)

(** [Matches re prev w rest]: the runes [w] are a match of [re] when the
    rune before them is [prev] and the text goes on with [rest].  The two
    neighbours are what [\b] looks at.  A round of a star that consumes
    nothing adds no match, so the rounds here are not empty. *)
Inductive Matches : syntax.Regexp -> rune -> list rune -> list rune -> Prop :=
| M_EmptyMatch prev rest :
    Matches syntax.OpEmptyMatch prev [] rest
| M_Literal foldCase rs prev w rest :
    Forall2 (fun r0 r => regexp.matchRune foldCase r0 r = true) rs w ->
    Matches (syntax.OpLiteral foldCase rs) prev w rest
| M_CharClass foldCase ranges prev r rest :
    regexp.matchClass foldCase ranges r = true ->
    Matches (syntax.OpCharClass foldCase ranges) prev [r] rest
| M_WordBoundary prev rest :
    syntax.IsWordChar prev <> syntax.IsWordChar (regexp.next (prev, rest)) ->
    Matches syntax.OpWordBoundary prev [] rest
| M_Capture sub prev w rest :
    Matches sub prev w rest ->
    Matches (syntax.OpCapture sub) prev w rest
| M_StarNil sub prev rest :
    Matches (syntax.OpStar sub) prev [] rest
| M_StarCons sub prev w1 w2 rest :
    w1 <> [] ->
    Matches sub prev w1 (w2 ++ rest) ->
    Matches (syntax.OpStar sub) (List.last w1 prev) w2 rest ->
    Matches (syntax.OpStar sub) prev (w1 ++ w2) rest
| M_Plus sub prev w1 w2 rest :
    Matches sub prev w1 (w2 ++ rest) ->
    Matches (syntax.OpStar sub) (List.last w1 prev) w2 rest ->
    Matches (syntax.OpPlus sub) prev (w1 ++ w2) rest
| M_QuestSome sub prev w rest :
    Matches sub prev w rest ->
    Matches (syntax.OpQuest sub) prev w rest
| M_QuestNone sub prev rest :
    Matches (syntax.OpQuest sub) prev [] rest
| M_Concat sub0 sub1 prev w1 w2 rest :
    Matches sub0 prev w1 (w2 ++ rest) ->
    Matches sub1 (List.last w1 prev) w2 rest ->
    Matches (syntax.OpConcat sub0 sub1) prev (w1 ++ w2) rest
| M_AlternateL sub0 sub1 prev w rest :
    Matches sub0 prev w rest ->
    Matches (syntax.OpAlternate sub0 sub1) prev w rest
| M_AlternateR sub0 sub1 prev w rest :
    Matches sub1 prev w rest ->
    Matches (syntax.OpAlternate sub0 sub1) prev w rest.

(** [q] is where a match of [re] that starts at [p] ends. *)
Definition reaches (re : syntax.Regexp) (p q : regexp.pos) : Prop :=
  exists w, snd p = w ++ snd q
            /\ fst q = List.last w (fst p)
            /\ Matches re (fst p) w (snd q).

(** The text has a match of [re] somewhere. *)
Definition has_match (re : syntax.Regexp) (text : string) : Prop :=
  exists pre w post,
    utf8.runes (bytes text) = pre ++ w ++ post
    /\ Matches re (List.last pre regexp.endOfText) w post.

(** ** Link tokens, mention tokens, keywords *)

(** A rune without its case: upper-case ASCII letters, the Kelvin sign and
    the long s go to the lower-case ASCII letter of their orbit. *)
Definition lower_fold (r : rune) : rune :=
  if (ch "A" <=? r) && (r <=? ch "Z") then r + 32
  else if r =? 0x212A then ch "k"
  else if r =? 0x17F then ch "s"
  else r.

(** The runes [w] spell [s] when case is ignored. *)
Definition spells (w : list rune) (s : string) : Prop :=
  map lower_fold w = bytes s.

Definition link_fragments : list string :=
  ["http://"; "https://"; "t.me/"; "bit.ly"; "tinyurl"; "telegram.me"; "www."].

Definition link_tlds : list string :=
  ["com"; "net"; "org"; "io"; "me"; "co"; "xyz"; "info"; "biz"; "tv";
   "cc"; "ru"; "kr"; "cn"].

Definition is_alnum (r : rune) : bool :=
  (ch "a" <=? r) && (r <=? ch "z") || (ch "0" <=? r) && (r <=? ch "9").

Definition is_label_rune (r : rune) : bool :=
  is_alnum r || (r =? ch "-").

(** A link token followed by [post]: one of the fixed fragments, or a label
    (a letter or digit, then letters, digits and hyphens), a dot and one of
    the top-level domains, after which no letter, digit or underscore
    follows; all of it with case ignored. *)
Definition link_token (w post : list rune) : Prop :=
  (exists frag, In frag link_fragments /\ spells w frag)
  \/ (exists c label dom tld,
        w = c :: label ++ ch "." :: dom
        /\ is_alnum (lower_fold c) = true
        /\ Forall (fun r => is_label_rune (lower_fold r) = true) label
        /\ In tld link_tlds
        /\ spells dom tld
        /\ syntax.IsWordChar (hd regexp.endOfText post) = false).

Definition has_link_token (text : string) : Prop :=
  exists pre w post,
    utf8.runes (bytes text) = pre ++ w ++ post /\ link_token w post.

(** An [@] with a letter, a digit or an underscore right after it. *)
Definition has_mention_token (text : string) : Prop :=
  exists pre c post,
    utf8.runes (bytes text) = pre ++ ch "@" :: c :: post
    /\ syntax.IsWordChar c = true.

(** Every rune of [s] is its own [lower_fold]: no upper-case letter. *)
Definition is_folded (s : string) : bool :=
  forallb (fun r0 => lower_fold r0 =? r0) (bytes s).

(** A lower-case letter whose orbit stays in ASCII. *)
Definition is_plain_letter (r : rune) : bool :=
  (ch "a" <=? r) && (r <=? ch "z") && negb (r =? ch "k") && negb (r =? ch "s").

(** The keyword test of [IsSpam]: the lowered text contains the keyword. *)
Definition keyword_matches `{unicode.CaseRanges} (text keyword : string) : Prop :=
  strings.Contains (strings.ToLower text) keyword = true.

(** An ASCII letter in lower case, any other byte as it is. *)
Definition ascii_lower (c : Z) : Z :=
  if (ch "A" <=? c) && (c <=? ch "Z") then c + 32 else c.

(** [s] stands in [text], the case of the ASCII letters ignored. *)
Definition occurs_ignoring_case (text s : string) : Prop :=
  exists pre u post,
    text = pre +:+ u +:+ post /\ map ascii_lower (bytes u) = bytes s.

(** The runes of the text in lower case, one for one. *)
Definition lowered_runes `{unicode.CaseRanges} (text : string) : list rune :=
  map unicode.ToLower (utf8.runes (bytes text)).

(** [keyword] stands in [text] when case is ignored: its characters are a
    run of the characters of the text, each put in lower case. *)
Definition contains_ignoring_case `{unicode.CaseRanges} (text keyword : string) : Prop :=
  exists pre post, lowered_runes text = pre ++ bytes keyword ++ post.

(** A [rune] is an [int32], and the lower case of a rune that is not
    negative is not negative: what the table of the Go distribution
    does and the parameter has to do as well. *)
Definition lower_case_in_range `{unicode.CaseRanges} : Prop :=
  forall r, 0 <= r < 2 ^ 31 -> 0 <= unicode.To_LowerCase r < 2 ^ 31.

(** The bytes that [strings.Map] writes for a rune of the text on the path
    of [strings.ToLower]. *)
Definition lowered `{unicode.CaseRanges} (r : rune) : list Z :=
  if 0 <=? unicode.ToLower r then utf8.AppendRune [] (unicode.ToLower r) else [].

(** [f] writes the rune [g r] as its own byte when it is ASCII, and
    otherwise as bytes that are all outside ASCII. *)
Definition written (f : rune -> list Z) (g : rune -> rune) (r : rune) : Prop :=
  (g r < 128 /\ f r = [g r])
  \/ (128 <= g r /\ f r <> [] /\ Forall (fun b => 128 <= b) (f r)).

(** The fixed fragments as the specification words them: [t.me] without
    the slash that the pattern asks for. *)
Definition specified_link_fragments : list string :=
  ["http://"; "https://"; "t.me"; "bit.ly"; "tinyurl"; "telegram.me"; "www."].

(** ** The rest of [main.go]: [Close] and [main] *)

(** [sd.db.Close()]: one more call into the driver, its error dropped.  The
    [db] of a detector that [NewSpamDetector] built is never [nil]. *)
Definition Close (sd : SpamDetector) : IO unit :=
  _ <- driver_call ;; ret tt.

(** The fields of the [tgbotapi] types that [main] reads.  [From] is a
    pointer that Telegram may leave out; [IsCommand] and [Command] hold
    what the two methods of [Message] return. *)
Record User : Type := {
  User_ID : Z;
  User_UserName : string
}.

Record Chat : Type := {
  Chat_ID : Z;
  Chat_Title : string;
  Chat_Type : string
}.

Record Message : Type := {
  Message_MessageID : Z;
  Message_From : option User;
  Message_Chat : Chat;
  Message_Text : string;
  Message_Caption : string;
  Message_IsCommand : bool;
  Message_Command : string
}.

Record Update : Type := {
  Update_Message : option Message
}.

(** What [main] hands to [bot.Send] and [bot.Request]. *)
Inductive Chattable : Type :=
| MessageConfig (ChatID : Z) (Text : string)
| DeleteMessageConfig (ChatID : Z) (MessageID : Z)
| BanChatMemberConfig (ChatID : Z) (UserID : Z).

(** The running bot: the [world] of the detector, what [GetChatMember]
    answers for a chat and a user (a status or an error), the errors that
    [bot.Request] and [bot.Send] are going to return, one entry per call
    ([None]: the call succeeds; an exhausted schedule: no more errors), and
    the requests made so far, in order. *)
Record process : Type := Process {
  ledger : world;
  chat_member : Z -> Z -> result string;
  api_errors : list (option error);
  requests : list Chattable
}.

(** A step of the bot returns or panics. *)
Inductive outcome (A : Type) : Type :=
| Normal (a : A) (s : process)
| Panic (s : process).
Arguments Normal {A} a s.
Arguments Panic {A} s.

Definition Bot (A : Type) : Type := process -> outcome A.

Definition bot_ret {A} (a : A) : Bot A := fun s => Normal a s.

Definition bot_bind {A B} (m : Bot A) (k : A -> Bot B) : Bot B :=
  fun s =>
    match m s with
    | Normal a s' => k a s'
    | Panic s' => Panic s'
    end.

Notation "x <~ m ;; k" := (bot_bind m (fun x => k))
  (at level 100, m at next level, right associativity).
Notation "m ;;~ k" := (bot_bind m (fun _ => k))
  (at level 100, right associativity).

(** A call of the detector or of [log] inside the bot. *)
Definition lift {A} (m : IO A) : Bot A :=
  fun s =>
    let '(a, w) := m (ledger s) in
    Normal a (Process w (chat_member s) (api_errors s) (requests s)).

(** Reading a field through a pointer: a [nil] pointer panics. *)
Definition deref {A} (p : option A) : Bot A :=
  fun s =>
    match p with
    | Some a => Normal a s
    | None => Panic s
    end.

Definition bot_GetChatMember (chatID userID : Z) : Bot (result string) :=
  fun s => Normal (chat_member s chatID userID) s.

Definition bot_Request (c : Chattable) : Bot (option error) :=
  fun s =>
    match api_errors s with
    | [] => Normal None (Process (ledger s) (chat_member s) [] (requests s ++ [c]))
    | e :: es => Normal e (Process (ledger s) (chat_member s) es (requests s ++ [c]))
    end.

(** [bot.Send], whose two results [main] drops. *)
Definition bot_Send (c : Chattable) : Bot unit :=
  _ <~ bot_Request c ;; bot_ret tt.

(** [%d] *)
Definition fmt_d (n : Z) : string := NilZero.string_of_int (Z.to_int n).

Definition LF : string := String "010" "".

Definition start_text : string :=
  "I'm a spam/ad blocking bot. Add me to your group as an admin and I'll help keep it clean!"
  +:+ LF +:+ LF
  +:+ "Commands:" +:+ LF
  +:+ "/start - Show this message" +:+ LF
  +:+ "/status - Check if bot is working".

Definition status_text : string := "Bot is active and monitoring for spam.".

Definition ban_notice (userName : string) (count : Z) (reasonKR : string) : string :=
  "🚫 @" +:+ userName +:+ " 님이 스팸 " +:+ fmt_d count
  +:+ "회로 차단되었습니다 [" +:+ reasonKR +:+ "]".

Definition warning_notice (userName reasonKR : string) (count : Z) : string :=
  "🚫 @" +:+ userName +:+ " 스팸 삭제 [" +:+ reasonKR +:+ "] (경고 "
  +:+ fmt_d count +:+ "/3)".

Definition is_admin_status (status : string) : bool :=
  String.eqb status "administrator" || String.eqb status "creator".

Section main_loop.
Context `{unicode.CaseRanges}.

(** The body of [for update := range updates]; [bot_ret tt] is its
    [continue]. *)
Definition main_loop_body (detector : SpamDetector) (update : Update) : Bot unit :=
  match Update_Message update with
  | None => bot_ret tt
  | Some message =>
    let text :=
      if negb (String.eqb (Message_Caption message) "")
      then Message_Caption message else Message_Text message in
    if String.eqb text "" then bot_ret tt
    else
      from <~ deref (Message_From message) ;;
      let chat := Message_Chat message in
      lift (log_Printf
              ("Received message from " +:+ User_UserName from
               +:+ " (ID: " +:+ fmt_d (User_ID from)
               +:+ ") in " +:+ Chat_Title chat
               +:+ " (" +:+ Chat_Type chat +:+ "): " +:+ text)) ;;~
      admin <~ (if negb (String.eqb (Chat_Type chat) "private") then
                  chatMember <~ bot_GetChatMember (Chat_ID chat) (User_ID from) ;;
                  match chatMember with
                  | Ok status => bot_ret (is_admin_status status)
                  | Err _ => bot_ret false
                  end
                else bot_ret false) ;;
      if admin then
        lift (log_Printf ("Ignoring message from admin " +:+ User_UserName from))
      else if Message_IsCommand message then
        if String.eqb (Message_Command message) "start" then
          bot_Send (MessageConfig (Chat_ID chat) start_text)
        else if String.eqb (Message_Command message) "status" then
          bot_Send (MessageConfig (Chat_ID chat) status_text)
        else bot_ret tt
      else if String.eqb (Chat_Type chat) "group"
              || String.eqb (Chat_Type chat) "supergroup" then
        let '(isSpam, reason, reasonKR) := IsSpam detector text in
        if isSpam then
          lift (log_Printf
                  ("Detected spam from " +:+ User_UserName from
                   +:+ " (reason: " +:+ reason +:+ "), attempting to delete...")) ;;~
          err <~ bot_Request
                   (DeleteMessageConfig (Chat_ID chat) (Message_MessageID message)) ;;
          match err with
          | Some e =>
            lift (log_Printf
                    ("Failed to delete message ID " +:+ fmt_d (Message_MessageID message)
                     +:+ " from chat " +:+ fmt_d (Chat_ID chat) +:+ ": " +:+ e))
          | None =>
            lift (log_Printf
                    ("Successfully deleted spam message from " +:+ User_UserName from
                     +:+ " (reason: " +:+ reason +:+ ")")) ;;~
            r <~ lift (RecordSpam detector (Chat_ID chat) (User_ID from)) ;;
            let '(count, shouldBan) := r in
            if shouldBan then
              banErr <~ bot_Request (BanChatMemberConfig (Chat_ID chat) (User_ID from)) ;;
              match banErr with
              | Some e =>
                lift (log_Printf
                        ("Failed to ban user " +:+ User_UserName from +:+ ": " +:+ e))
              | None =>
                lift (log_Printf
                        ("Banned user " +:+ User_UserName from +:+ " for repeated spam")) ;;~
                bot_Send (MessageConfig (Chat_ID chat)
                            (ban_notice (User_UserName from) count reasonKR))
              end
            else
              bot_Send (MessageConfig (Chat_ID chat)
                          (warning_notice (User_UserName from) reasonKR count))
          end
        else bot_ret tt
      else bot_ret tt
  end.

(** The loop over the updates the channel delivers; a panic ends it. *)
Fixpoint main_loop (detector : SpamDetector) (updates : list Update) : Bot unit :=
  match updates with
  | [] => bot_ret tt
  | update :: updates' =>
    main_loop_body detector update ;;~ main_loop detector updates'
  end.

(** What [main] gets from the operating system and from Telegram: the
    error of opening [bot.log], the token after [godotenv.Load], what
    [NewBotAPI] returns for a token (the user name of the bot, or an error),
    and the updates of the channel. *)
Record environment : Type := {
  OpenFile_error : option error;
  TELEGRAM_BOT_TOKEN : string;
  NewBotAPI : string -> result string;
  GetUpdatesChan : list Update
}.

(** How the process ends: [os.Exit(1)] of [log.Fatal], a panic, or the
    return of [main] when the channel is closed. *)
Inductive termination : Type :=
| Exit1
| Panicked
| Returned.

(** [log.Fatal] and [log.Fatalf]: the line, then [os.Exit(1)], which runs no
    deferred call. *)
Definition log_Fatal (line : string) (s : process) : termination * process :=
  (Exit1,
   Process (snd (log_Printf line (ledger s))) (chat_member s) (api_errors s) (requests s)).

Definition main (env : environment) (s : process) : termination * process :=
  match OpenFile_error env with
  | Some e => log_Fatal ("Failed to open log file: " +:+ e) s
  | None =>
    let token := TELEGRAM_BOT_TOKEN env in
    if String.eqb token "" then
      log_Fatal "TELEGRAM_BOT_TOKEN environment variable is not set" s
    else
      match NewBotAPI env token with
      | Err e => log_Fatal ("Failed to create bot: " +:+ e) s
      | Ok userName =>
        match (lift (log_Printf ("Authorized on account " +:+ userName)) ;;~
               lift NewSpamDetector) s with
        | Panic s1 => (Panicked, s1)
        | Normal (Err e) s1 => log_Fatal ("Failed to create spam detector: " +:+ e) s1
        | Normal (Ok detector) s1 =>
          (* the deferred [detector.Close()] runs on return and on panic *)
          match main_loop detector (GetUpdatesChan env) s1 with
          | Normal _ s2 =>
            match lift (Close detector) s2 with
            | Normal _ s3 => (Returned, s3)
            | Panic s3 => (Panicked, s3)
            end
          | Panic s2 =>
            match lift (Close detector) s2 with
            | Normal _ s3 => (Panicked, s3)
            | Panic s3 => (Panicked, s3)
            end
          end
        end
      end
  end.

End main_loop.

(** ** Words for what the loop does *)

(** The state a step ends in, and whether it ended in a panic. *)
Definition final {A} (o : outcome A) : process :=
  match o with
  | Normal _ s => s
  | Panic s => s
  end.

Definition panics {A} (o : outcome A) : bool :=
  match o with
  | Normal _ _ => false
  | Panic _ => true
  end.

(** The text the loop works on: the caption when there is one. *)
Definition effective_text (message : Message) : string :=
  if negb (String.eqb (Message_Caption message) "")
  then Message_Caption message else Message_Text message.

(** The sender is let through as an administrator: the chat is not
    private, [GetChatMember] succeeds and the status is [administrator] or
    [creator]. *)
Definition exempt (s : process) (message : Message) (from : User) : bool :=
  negb (String.eqb (Chat_Type (Message_Chat message)) "private")
  && match chat_member s (Chat_ID (Message_Chat message)) (User_ID from) with
     | Ok status => is_admin_status status
     | Err _ => false
     end.

Definition in_group (message : Message) : bool :=
  String.eqb (Chat_Type (Message_Chat message)) "group"
  || String.eqb (Chat_Type (Message_Chat message)) "supergroup".

(** What a step can change besides the log: the requests made, the two
    schedules (an entry less for every call into Telegram or into the
    driver) and the rows of the table. *)
Definition effects (s : process)
  : list Chattable * list (option error) * gmap (Z * Z) Z * list (option error) :=
  (requests s, api_errors s, spam_records (ledger s), driver_errors (ledger s)).

(** The requests a spam message draws when Telegram carries them all out:
    the deletion, then the warning, or the ban and its notice. *)
Definition spam_requests (message : Message) (from : User) (reasonKR : string)
    (count : Z) (shouldBan : bool) : list Chattable :=
  let chatID := Chat_ID (Message_Chat message) in
  DeleteMessageConfig chatID (Message_MessageID message)
  :: if shouldBan then
       [ BanChatMemberConfig chatID (User_ID from);
         MessageConfig chatID (ban_notice (User_UserName from) count reasonKR) ]
     else
       [ MessageConfig chatID (warning_notice (User_UserName from) reasonKR count) ].


Section loop_words.
Context `{unicode.CaseRanges}.

(** [update] is a message of the user [userID] in the group [chatID] that
    the loop of [detector] takes for spam: it has a text and a sender, the
    sender is not exempt, it is no command, and [IsSpam] flags its text. *)
Definition spam_update (detector : SpamDetector) (s : process) (chatID userID : Z)
    (update : Update) : Prop :=
  exists message from,
    Update_Message update = Some message
    /\ Message_From message = Some from
    /\ effective_text message <> ""
    /\ Chat_ID (Message_Chat message) = chatID
    /\ User_ID from = userID
    /\ exempt s message from = false
    /\ Message_IsCommand message = false
    /\ in_group message = true
    /\ fst (fst (IsSpam detector (effective_text message))) = true.

(** The requests a run of spam messages of one user draws when the count
    was [count] before and Telegram and the driver work: for each message
    [spam_requests] with the next count. *)
Fixpoint strikes (detector : SpamDetector) (updates : list Update) (count : Z)
  : list Chattable :=
  match updates with
  | [] => []
  | update :: updates' =>
    match Update_Message update with
    | Some message =>
      match Message_From message with
      | Some from =>
        spam_requests message from
          (snd (IsSpam detector (effective_text message)))
          (count + 1) (count + 1 >=? banThreshold detector)
      | None => []
      end
    | None => []
    end ++ strikes detector updates' (count + 1)
  end.

End loop_words.

(** Telegram and the driver carry out every call. *)
Definition all_succeed (s : process) : Prop :=
  Forall (fun e => e = None) (api_errors s)
  /\ Forall (fun e => e = None) (driver_errors (ledger s)).

(** The start of [main] fails: [bot.log] cannot be opened, the token is
    empty, [NewBotAPI] returns an error, or one of the two calls of
    [NewSpamDetector] into the driver does. *)
Definition startup_fails (env : environment) (s : process) : Prop :=
  OpenFile_error env <> None
  \/ TELEGRAM_BOT_TOKEN env = ""
  \/ (exists e, NewBotAPI env (TELEGRAM_BOT_TOKEN env) = Err e)
  \/ ~ driver_healthy 2 (ledger s).

(** The state the loop starts in when the start of [main] succeeds. *)
Definition started (userName : string) (s : process) : process :=
  Process (World (spam_records (ledger s))
                 (log_output (ledger s) ++ ["Authorized on account " +:+ userName])
                 (drop 2 (driver_errors (ledger s))))
          (chat_member s) (api_errors s) (requests s).

(** ** Examples of the message loop *)

Definition example_user : User :=
  {| User_ID := 7; User_UserName := "mallory" |}.

Definition example_chat : Chat :=
  {| Chat_ID := -1001; Chat_Title := "aptos"; Chat_Type := "supergroup" |}.

Definition example_direct_chat : Chat :=
  {| Chat_ID := 7; Chat_Title := ""; Chat_Type := "private" |}.

(** A message with a link in a supergroup. *)
Definition example_spam : Message :=
  {| Message_MessageID := 42; Message_From := Some example_user;
     Message_Chat := example_chat;
     Message_Text := "airdrop at aptos-claim.xyz"; Message_Caption := "";
     Message_IsCommand := false; Message_Command := "" |}.

(** The same link in a private chat. *)
Definition example_direct : Message :=
  {| Message_MessageID := 43; Message_From := Some example_user;
     Message_Chat := example_direct_chat;
     Message_Text := "airdrop at aptos-claim.xyz"; Message_Caption := "";
     Message_IsCommand := false; Message_Command := "" |}.

(** The same message as Telegram delivers it for a channel post: no
    sender. *)
Definition example_anonymous : Message :=
  {| Message_MessageID := 44; Message_From := None;
     Message_Chat := example_chat;
     Message_Text := "airdrop at aptos-claim.xyz"; Message_Caption := "";
     Message_IsCommand := false; Message_Command := "" |}.

(** A command with a link after it. *)
Definition example_command : Message :=
  {| Message_MessageID := 45; Message_From := Some example_user;
     Message_Chat := example_chat;
     Message_Text := "/status aptos-claim.xyz"; Message_Caption := "";
     Message_IsCommand := true; Message_Command := "status" |}.

Definition example_hello : Message :=
  {| Message_MessageID := 46; Message_From := Some example_user;
     Message_Chat := example_chat;
     Message_Text := "just saying hi to everyone"; Message_Caption := "";
     Message_IsCommand := false; Message_Command := "" |}.

Definition update_of (message : Message) : Update :=
  {| Update_Message := Some message |}.

(** A bot that has made no request yet: every sender has the status
    [status], the table holds [rows], and the driver and Telegram return
    the errors of the two schedules. *)
Definition example_process (status : string) (rows : gmap (Z * Z) Z)
    (driver api : list (option error)) : process :=
  Process (World rows [] driver) (fun _ _ => Ok status) api [].

Definition example_environment (token : string) (updates : list Update) : environment :=
  {| OpenFile_error := None;
     TELEGRAM_BOT_TOKEN := token;
     NewBotAPI := fun _ => Ok "aptos_wall_bot";
     GetUpdatesChan := updates |}.
(** * The offense ledger *)

Section ledger.
Implicit Types (sd : SpamDetector) (w : world) (t : gmap (Z * Z) Z) (count : Z).

Lemma is_INTEGER_spec count :
  is_INTEGER count = true <-> MinInt64 <= count <= MaxInt64.
Proof. unfold is_INTEGER. rewrite andb_true_iff, !Z.leb_le. tauto. Qed.

Lemma add_one_INTEGER count : is_INTEGER count = true -> add_one count = count + 1.
Proof. unfold add_one. by intros ->. Qed.

Lemma add_one_bounds count : count <= add_one count <= count + 1.
Proof. unfold add_one. destruct (is_INTEGER count); lia. Qed.

(** The row can be read back after the upsert exactly when its count was
    an INTEGER below [MaxInt64]. *)
Lemma is_INTEGER_add_one count :
  is_INTEGER (add_one count) = true <-> incrementable count.
Proof.
  unfold add_one, incrementable.
  destruct (is_INTEGER count) eqn:E.
  - apply is_INTEGER_spec in E. rewrite is_INTEGER_spec.
    unfold MinInt64, MaxInt64 in *. lia.
  - rewrite E. split; [done|]. intros Hc.
    assert (is_INTEGER count = true) as E'; [|congruence].
    apply is_INTEGER_spec. lia.
Qed.

Lemma add_one_incrementable count : incrementable count -> add_one count = count + 1.
Proof.
  intros Hc. apply add_one_INTEGER, is_INTEGER_spec. unfold incrementable in Hc. lia.
Qed.

Lemma upsert_lookup chatID userID t :
  upsert chatID userID t !! (chatID, userID)
  = Some (add_one (count_of t (chatID, userID))).
Proof.
  unfold upsert, count_of.
  destruct (t !! (chatID, userID)) as [c|] eqn:E; simpl; by rewrite lookup_insert_eq.
Qed.

Lemma upsert_lookup_ne chatID userID t key :
  key ≠ (chatID, userID) -> upsert chatID userID t !! key = t !! key.
Proof.
  intros Hne. unfold upsert.
  destruct (t !! (chatID, userID)); by rewrite lookup_insert_ne.
Qed.

Lemma upsert_count_of chatID userID t :
  count_of (upsert chatID userID t) (chatID, userID)
  = add_one (count_of t (chatID, userID)).
Proof. unfold count_of at 1. by rewrite upsert_lookup. Qed.

Lemma RecordSpam_run sd chatID userID w :
  RecordSpam_outcome sd chatID userID w
    (fst (RecordSpam sd chatID userID w)) (snd (RecordSpam sd chatID userID w)).
Proof.
  assert (forall errs,
            Forall (fun e : option error => e = None) (take 2 errs) ->
            RecordSpam_outcome sd chatID userID (World (spam_records w) (log_output w) errs)
              (fst (let count := add_one (count_of (spam_records w) (chatID, userID)) in
                    if is_INTEGER count
                    then (count, count >=? banThreshold sd,
                          World (upsert chatID userID (spam_records w)) (log_output w)
                            (drop 2 errs))
                    else (0, false,
                          World (upsert chatID userID (spam_records w))
                            (log_output w ++ ["Failed to get spam count: " +:+ Scan_error])
                            (drop 2 errs))))
              (snd (let count := add_one (count_of (spam_records w) (chatID, userID)) in
                    if is_INTEGER count
                    then (count, count >=? banThreshold sd,
                          World (upsert chatID userID (spam_records w)) (log_output w)
                            (drop 2 errs))
                    else (0, false,
                          World (upsert chatID userID (spam_records w))
                            (log_output w ++ ["Failed to get spam count: " +:+ Scan_error])
                            (drop 2 errs))))) as Hread.
  { intros errs Hh. cbn zeta.
    destruct (is_INTEGER (add_one _)) eqn:E; cbn [fst snd].
    - apply is_INTEGER_add_one in E.
      rewrite (add_one_incrementable _ E).
      by apply (recorded sd chatID userID (World (spam_records w) (log_output w) errs)).
    - apply (scan_refused sd chatID userID (World (spam_records w) (log_output w) errs));
        [done|].
      intros Hc%is_INTEGER_add_one. cbn [spam_records] in Hc. congruence. }
  unfold RecordSpam, bind, Exec_upsert, QueryRow_Scan_count, bind, driver_call, ret, log_Printf.
  destruct w as [t l errs]; cbn [spam_records log_output driver_errors] in *.
  destruct errs as [|[e|] errs]; cbn [spam_records log_output driver_errors].
  - rewrite upsert_lookup. specialize (Hread []).
    cbn zeta in Hread. destruct (is_INTEGER (add_one _)); apply Hread; constructor.
  - by eapply (upsert_failed sd chatID userID (World t l _)).
  - destruct errs as [|[e|] errs]; cbn [spam_records log_output driver_errors].
    + rewrite upsert_lookup. specialize (Hread [None]).
      cbn zeta in Hread. destruct (is_INTEGER (add_one _)); apply Hread; by repeat constructor.
    + by eapply (scan_failed sd chatID userID (World t l _)).
    + rewrite upsert_lookup. specialize (Hread (None :: None :: errs)).
      cbn zeta in Hread.
      destruct (is_INTEGER (add_one _)); apply Hread; by repeat constructor.
Qed.

(** With a healthy driver the row is upserted and two entries of the
    schedule are used, whether the count can be read back or not. *)
Lemma RecordSpam_healthy_world sd chatID userID w :
  driver_healthy 2 w ->
  spam_records (snd (RecordSpam sd chatID userID w))
  = upsert chatID userID (spam_records w)
  /\ driver_errors (snd (RecordSpam sd chatID userID w)) = drop 2 (driver_errors w).
Proof.
  intros Hh. unfold driver_healthy in Hh.
  destruct (RecordSpam_run sd chatID userID w) as [e es He|e es He|Hh' Hc|count Hh' Hc ->];
    cbn [spam_records driver_errors]; [| |done..].
  - rewrite He in Hh. simpl in Hh. by inversion Hh.
  - rewrite He in Hh. simpl in Hh. inversion Hh as [|? ? _ Hh']. by inversion Hh'.
Qed.

Lemma RecordSpam_healthy sd chatID userID w :
  driver_healthy 2 w ->
  incrementable (count_of (spam_records w) (chatID, userID)) ->
  RecordSpam sd chatID userID w =
    (let count := count_of (spam_records w) (chatID, userID) + 1 in
     (count, count >=? banThreshold sd),
     World (upsert chatID userID (spam_records w)) (log_output w)
           (drop 2 (driver_errors w))).
Proof.
  intros Hh Hinc. pose proof (RecordSpam_run sd chatID userID w) as Hrun.
  destruct (RecordSpam sd chatID userID w) as [r w']. simpl in Hrun.
  unfold driver_healthy in Hh.
  inversion Hrun as [e es He|e es He|_ Hc|count _ _ Hc]; subst.
  - rewrite He in Hh. simpl in Hh. by inversion Hh.
  - rewrite He in Hh. simpl in Hh. inversion Hh as [|? ? _ Hh']. by inversion Hh'.
  - done.
  - done.
Qed.

Lemma RecordSpam_rows sd chatID userID w :
  spam_records (snd (RecordSpam sd chatID userID w)) = spam_records w
  \/ spam_records (snd (RecordSpam sd chatID userID w))
     = upsert chatID userID (spam_records w).
Proof.
  destruct (RecordSpam_run sd chatID userID w); simpl; auto.
Qed.

Lemma RecordSpam_shouldBan sd chatID userID w :
  0 < banThreshold sd ->
  snd (fst (RecordSpam sd chatID userID w)) = true
  <-> banThreshold sd <= fst (fst (RecordSpam sd chatID userID w)).
Proof.
  intros Hpos.
  destruct (RecordSpam_run sd chatID userID w); simpl.
  - split; [done | lia].
  - split; [done | lia].
  - split; [done | lia].
  - rewrite Z.geb_leb. apply Z.leb_le.
Qed.

End ledger.

Section ledger_runs.
Implicit Types (sd : SpamDetector) (w : world) (calls : list (Z * Z)).

Lemma RecordSpam_each_cons sd chatID userID calls w :
  RecordSpam_each sd ((chatID, userID) :: calls) w =
    (fst (RecordSpam sd chatID userID w)
       :: fst (RecordSpam_each sd calls (snd (RecordSpam sd chatID userID w))),
     snd (RecordSpam_each sd calls (snd (RecordSpam sd chatID userID w)))).
Proof.
  simpl. unfold bind, ret.
  destruct (RecordSpam sd chatID userID w) as [r w1]; simpl.
  by destruct (RecordSpam_each sd calls w1).
Qed.

Lemma driver_healthy_split n m w :
  driver_healthy (n + m) w ->
  driver_healthy n w
  /\ forall t l, driver_healthy m (World t l (drop n (driver_errors w))).
Proof.
  unfold driver_healthy. rewrite Forall_lookup. intros Hh. split.
  - apply Forall_lookup. intros i e Hi. apply (Hh i).
    rewrite lookup_take_Some in Hi. rewrite lookup_take_Some. split; [tauto | lia].
  - intros t l. apply Forall_lookup. intros i e Hi. simpl in Hi. apply (Hh (n + i)%nat).
    rewrite lookup_take_Some in Hi. rewrite lookup_drop in Hi.
    rewrite lookup_take_Some. split; [tauto | lia].
Qed.

(** [n] successful calls for one key count on from where the key was, as
    long as the counts are INTEGERs. *)
Lemma RecordSpam_each_healthy sd chatID userID n w :
  driver_healthy (2 * n) w ->
  MinInt64 <= count_of (spam_records w) (chatID, userID) ->
  count_of (spam_records w) (chatID, userID) + Z.of_nat n <= MaxInt64 ->
  fst (RecordSpam_each sd (replicate n (chatID, userID)) w)
  = map (fun k => let count := count_of (spam_records w) (chatID, userID) + Z.of_nat k in
                  (count, count >=? banThreshold sd))
        (seq 1 n).
Proof.
  revert w. induction n as [|n IH]; intros w Hh Hmin Hmax; [done|].
  replace (2 * S n)%nat with (2 + 2 * n)%nat in Hh by lia.
  apply driver_healthy_split in Hh as [H2 Hrest].
  change (replicate (S n) (chatID, userID))
    with ((chatID, userID) :: replicate n (chatID, userID)).
  assert (incrementable (count_of (spam_records w) (chatID, userID))) as Hinc
    by (unfold incrementable; lia).
  rewrite RecordSpam_each_cons. rewrite (RecordSpam_healthy _ _ _ _ H2 Hinc).
  cbn [fst snd]. rewrite IH; cbn [spam_records];
    rewrite ?upsert_count_of, ?(add_one_incrementable _ Hinc); [|apply Hrest|lia..].
  cbn [seq map]. cbn zeta. f_equal.
  rewrite <- (seq_shift n 1), map_map. apply map_ext. intros k.
  by replace (count_of (spam_records w) (chatID, userID) + 1 + Z.of_nat k)
    with (count_of (spam_records w) (chatID, userID) + Z.of_nat (S k)) by lia.
Qed.

Lemma RecordSpam_keeps_rows sd chatID userID w key :
  (key ≠ (chatID, userID) ->
   spam_records (snd (RecordSpam sd chatID userID w)) !! key = spam_records w !! key)
  /\ (forall c, spam_records w !! key = Some c ->
      exists c', spam_records (snd (RecordSpam sd chatID userID w)) !! key = Some c'
                 /\ c <= c').
Proof.
  destruct (RecordSpam_rows sd chatID userID w) as [-> | ->].
  - split; [done|]. intros c Hc. exists c. split; [done | lia].
  - split; [apply upsert_lookup_ne|].
    intros c Hc. destruct (decide (key = (chatID, userID))) as [->|Hne].
    + rewrite upsert_lookup. unfold count_of. rewrite Hc. simpl.
      eexists. split; [done | apply add_one_bounds].
    + rewrite upsert_lookup_ne by done. exists c. split; [done | lia].
Qed.

End ledger_runs.

(** C2: [n] successful calls of [RecordSpam] for one [(chatID, userID)]
    that has no row yet return the counts 1, 2, ..., [n] in this order, the
    [k]-th call returning exactly [k]; with the threshold 3 of
    [NewSpamDetector] the first two return [shouldBan = false] and every
    call from the third on returns [shouldBan = true].  A call is
    successful when neither statement returns an error and the count is
    one that the [int] of [Scan] holds: [n] is at most [MaxInt64]. *)
Theorem RecordSpam_kth_call_returns_k (n : nat) (chatID userID : Z) (w : world) :
  spam_records w !! (chatID, userID) = None ->
  driver_healthy (2 * n) w ->
  Z.of_nat n <= MaxInt64 ->
  fst (RecordSpam_each spamDetector (replicate n (chatID, userID)) w)
  = map (fun k => (Z.of_nat k, 3 <=? Z.of_nat k)) (seq 1 n).
Proof.
  intros Hnone Hh Hn.
  assert (count_of (spam_records w) (chatID, userID) = 0) as Hzero
    by (unfold count_of; by rewrite Hnone).
  rewrite RecordSpam_each_healthy; rewrite ?Hzero; [|done|done|lia].
  apply map_ext. intros k. cbn. by rewrite Z.geb_leb.
Qed.

Lemma RecordSpam_kth_call_returns_k_witness :
  fst (RecordSpam_each spamDetector (replicate 3 (-1001, 42)) (World ∅ [] []))
  = [(1, false); (2, false); (3, true)].
Proof.
  apply (RecordSpam_kth_call_returns_k 3 (-1001) 42 (World ∅ [] [])).
  - reflexivity.
  - constructor.
  - vm_compute. discriminate.
Defined.

(** C3: the [shouldBan] a call of [RecordSpam] returns is [true] exactly
    when the count it returns is at least the ban threshold, which
    [NewSpamDetector] sets to 3; the result [(0, false)] of a failed call
    included. *)
Theorem RecordSpam_shouldBan_iff_threshold (chatID userID : Z) (w : world) :
  banThreshold spamDetector = 3
  /\ (snd (fst (RecordSpam spamDetector chatID userID w)) = true
      <-> fst (fst (RecordSpam spamDetector chatID userID w)) >= banThreshold spamDetector).
Proof.
  split; [reflexivity|].
  rewrite RecordSpam_shouldBan by reflexivity. lia.
Qed.

(** C6: when the upsert fails, or the upsert succeeds and the read of the
    count fails, [RecordSpam] returns exactly [(0, false)]; the error shows
    only as one more line of the log. *)
Theorem RecordSpam_failure_degrades (sd : SpamDetector) (chatID userID : Z) (w : world)
    (e : error) (es : list (option error)) :
  driver_errors w = Some e :: es \/ driver_errors w = None :: Some e :: es ->
  fst (RecordSpam sd chatID userID w) = (0, false)
  /\ (log_output (snd (RecordSpam sd chatID userID w))
        = log_output w ++ ["Failed to record spam: " +:+ e]
      \/ log_output (snd (RecordSpam sd chatID userID w))
        = log_output w ++ ["Failed to get spam count: " +:+ e]).
Proof.
  intros Herr.
  assert (~ driver_healthy 2 w) as Hsick.
  { unfold driver_healthy. intros Hh.
    destruct Herr as [Herr|Herr]; rewrite Herr in Hh; simpl in Hh.
    - by inversion Hh.
    - inversion Hh as [|? ? _ Hh']. by inversion Hh'. }
  destruct (RecordSpam_run sd chatID userID w) as [e' es' He|e' es' He|Hh _|count Hh _ _];
    simpl; [| |done..].
  - split; [done|]. left. destruct Herr as [Herr|Herr]; congruence.
  - split; [done|]. right. destruct Herr as [Herr|Herr]; congruence.
Qed.

Lemma RecordSpam_failure_degrades_witness :
  fst (RecordSpam spamDetector 7 9 (World ∅ [] [Some "database is locked"])) = (0, false)
  /\ (log_output (snd (RecordSpam spamDetector 7 9 (World ∅ [] [Some "database is locked"])))
        = [] ++ ["Failed to record spam: " +:+ "database is locked"]
      \/ log_output (snd (RecordSpam spamDetector 7 9 (World ∅ [] [Some "database is locked"])))
        = [] ++ ["Failed to get spam count: " +:+ "database is locked"]).
Proof.
  apply (RecordSpam_failure_degrades spamDetector 7 9
           (World ∅ [] [Some "database is locked"]) "database is locked" []).
  left. reflexivity.
Defined.

(** C7: whatever calls of [RecordSpam] are made, in whatever order and
    whether they succeed or fail, the row of a key none of them names is
    left as it was, and the row of any key stays, with a count at least as
    large as before: no call deletes or resets a row. *)
Theorem RecordSpam_independent_monotone (sd : SpamDetector) (calls : list (Z * Z))
    (w : world) (key : Z * Z) :
  (key ∉ calls ->
   spam_records (snd (RecordSpam_each sd calls w)) !! key = spam_records w !! key)
  /\ (forall c, spam_records w !! key = Some c ->
      exists c', spam_records (snd (RecordSpam_each sd calls w)) !! key = Some c'
                 /\ c <= c').
Proof.
  revert w. induction calls as [|[chatID userID] calls IH]; intros w.
  - split; [done|]. intros c Hc. exists c. split; [done | lia].
  - rewrite RecordSpam_each_cons. cbn [snd].
    destruct (IH (snd (RecordSpam sd chatID userID w))) as [IH1 IH2].
    destruct (RecordSpam_keeps_rows sd chatID userID w key) as [H1 H2].
    split.
    + intros Hnotin. apply not_elem_of_cons in Hnotin as [Hne Hnotin].
      rewrite IH1 by done. by apply H1.
    + intros c Hc. destruct (H2 c Hc) as (c1 & Hc1 & Hle1).
      destruct (IH2 c1 Hc1) as (c2 & Hc2 & Hle2).
      exists c2. split; [done | lia].
Qed.

(** C10: when the upsert succeeds and only the read of the count fails,
    [RecordSpam] returns [(0, false)] and yet the row of the key has been
    written: its count, an INTEGER, is one more than before (1 for a key
    without a row). *)
Theorem RecordSpam_read_failure_keeps_increment (sd : SpamDetector) (chatID userID : Z)
    (w : world) (e : error) (es : list (option error)) :
  driver_errors w = None :: Some e :: es ->
  is_INTEGER (count_of (spam_records w) (chatID, userID)) = true ->
  fst (RecordSpam sd chatID userID w) = (0, false)
  /\ spam_records (snd (RecordSpam sd chatID userID w)) !! (chatID, userID)
     = Some (count_of (spam_records w) (chatID, userID) + 1).
Proof.
  intros Herr Hint.
  assert (~ driver_healthy 2 w) as Hsick.
  { unfold driver_healthy. rewrite Herr. simpl. intros Hh.
    inversion Hh as [|? ? _ Hh']. by inversion Hh'. }
  destruct (RecordSpam_run sd chatID userID w) as [e' es' He|e' es' He|Hh _|count Hh _ _];
    simpl; [| |done..].
  - congruence.
  - split; [done|]. by rewrite upsert_lookup, add_one_INTEGER.
Qed.

Lemma RecordSpam_read_failure_keeps_increment_witness :
  fst (RecordSpam spamDetector 7 9 (World {[ (7, 9) := 2 ]} [] [None; Some "disk I/O error"]))
  = (0, false)
  /\ spam_records
       (snd (RecordSpam spamDetector 7 9
               (World {[ (7, 9) := 2 ]} [] [None; Some "disk I/O error"]))) !! (7, 9)
     = Some (count_of
               (spam_records (World {[ (7, 9) := 2 ]} [] [None; Some "disk I/O error"]))
               (7, 9) + 1).
Proof.
  apply (RecordSpam_read_failure_keeps_increment spamDetector 7 9
           (World {[ (7, 9) := 2 ]} [] [None; Some "disk I/O error"]) "disk I/O error" []).
  - reflexivity.
  - reflexivity.
Defined.

(** * The matcher against what a pattern matches *)

Section matcher.
Import syntax regexp.
Implicit Types (re sub : Regexp) (p q : pos) (w : list rune).

Lemma last_cons {A} (a d : A) (l : list A) : List.last (a :: l) d = List.last l a.
Proof.
  revert a d. induction l as [|b l IH]; intros a d; [done|].
  change (List.last (a :: b :: l) d) with (List.last (b :: l) d).
  by rewrite !IH.
Qed.

Lemma last_app {A} (l1 l2 : list A) (d : A) :
  List.last (l1 ++ l2) d = List.last l2 (List.last l1 d).
Proof.
  revert d. induction l1 as [|a l1 IH]; intros d; [done|].
  by rewrite <- app_comm_cons, !last_cons, IH.
Qed.

Lemma literal_spec foldCase rs p q :
  In q (literal foldCase rs p)
  <-> exists w, snd p = w ++ snd q
                /\ fst q = List.last w (fst p)
                /\ Forall2 (fun r0 r => matchRune foldCase r0 r = true) rs w.
Proof.
  revert p. induction rs as [|r0 rs IH]; intros [prev s]; simpl.
  - split.
    + intros [<-|[]]. exists []. by repeat split.
    + intros (w & Hs & Hp & Hw). apply Forall2_nil_inv_l in Hw as ->.
      left. destruct q; simpl in *; congruence.
  - destruct s as [|r s].
    + split; [done|]. intros (w & Hs & _ & Hw).
      apply Forall2_cons_inv_l in Hw as (r & w' & _ & _ & ->). done.
    + destruct (matchRune foldCase r0 r) eqn:Hr.
      * rewrite IH. simpl. split.
        -- intros (w & Hs & Hp & Hw). exists (r :: w).
           rewrite last_cons. repeat split; [by rewrite Hs | done | by constructor].
        -- intros (w & Hs & Hp & Hw).
           apply Forall2_cons_inv_l in Hw as (r' & w' & _ & Hw & ->).
           simpl in Hs. injection Hs as -> Hs. rewrite last_cons in Hp.
           by exists w'.
      * split; [done|]. intros (w & Hs & _ & Hw).
        apply Forall2_cons_inv_l in Hw as (r' & w' & Hr' & _ & ->).
        simpl in Hs. injection Hs as -> _. congruence.
Qed.

Lemma star_spec sub :
  (forall p q, In q (run sub p) <-> reaches sub p q) ->
  forall fuel p q,
    (length (snd p) <= fuel)%nat ->
    In q (star (run sub) fuel p) <-> reaches (OpStar sub) p q.
Proof.
  intros Hsub. induction fuel as [|fuel IH]; intros p q Hlen.
  - simpl. destruct p as [prev s]. simpl in Hlen.
    destruct s; [|simpl in Hlen; lia]. split.
    + intros [<-|[]]. exists []. repeat split. constructor.
    + intros (w & Hs & Hp & _). simpl in *.
      symmetry in Hs. apply app_eq_nil in Hs as [-> Hq].
      left. destruct q; simpl in *; congruence.
  - simpl. rewrite in_app_iff, in_flat_map. split.
    + intros [(q1 & Hq1 & Hq)|[<-|[]]].
      * apply filter_In in Hq1 as [Hq1 Hlt].
        apply Nat.ltb_lt in Hlt.
        apply Hsub in Hq1 as (w1 & Hs1 & Hp1 & Hm1).
        apply IH in Hq as (w2 & Hs2 & Hp2 & Hm2); [|lia].
        exists (w1 ++ w2). rewrite last_app, <- Hp1, <- app_assoc, <- Hs2.
        repeat split; [done..|].
        apply M_StarCons.
        -- intros ->. simpl in Hs1. rewrite Hs1 in Hlt. lia.
        -- by rewrite <- Hs2.
        -- by rewrite <- Hp1.
      * exists []. repeat split. constructor.
    + intros (w & Hs & Hp & Hm). inversion Hm as
        [| | | | |? ? ? E1|? ? w1 w2 ? Hne Hm1 Hm2| | | | | |]; subst.
      * right. left. destruct p, q; simpl in *; congruence.
      * left. exists (List.last w1 (fst p), w2 ++ snd q). split.
        -- apply filter_In. split.
           ++ apply Hsub. exists w1. simpl. by rewrite Hs, <- app_assoc.
           ++ simpl. apply Nat.ltb_lt. rewrite Hs, !length_app.
              destruct w1; [done | simpl; lia].
        -- apply IH.
           ++ simpl. rewrite Hs, !length_app in Hlen. rewrite length_app.
              destruct w1; [done | simpl in *; lia].
           ++ exists w2. simpl. by rewrite Hp, last_app.
Qed.

Theorem run_spec re p q : In q (run re p) <-> reaches re p q.
Proof.
  revert p q. induction re as
    [| |foldCase rs|foldCase ranges| |sub IH|sub IH|sub IH|sub IH|sub0 IH0 sub1 IH1|sub0 IH0 sub1 IH1];
    intros p q; simpl.
  - split; [done|]. intros (w & _ & _ & Hm). inversion Hm.
  - split.
    + intros [<-|[]]. exists []. repeat split. constructor.
    + intros (w & Hs & Hp & Hm). inversion Hm; subst.
      left. destruct p, q; simpl in *; congruence.
  - rewrite literal_spec. split.
    + intros (w & Hs & Hp & Hw). exists w. repeat split; [done..|by constructor].
    + intros (w & Hs & Hp & Hm). inversion Hm; subst. by exists w.
  - destruct p as [prev [|r s]]; simpl.
    + split; [done|]. intros (w & Hs & _ & Hm). inversion Hm; subst. done.
    + destruct (matchClass foldCase ranges r) eqn:Hr.
      * split.
        -- intros [<-|[]]. exists [r]. repeat split. by constructor.
        -- intros (w & Hs & Hp & Hm). inversion Hm; subst.
           simpl in *. injection Hs as -> Hs.
           left. destruct q; simpl in *; congruence.
      * split; [done|]. intros (w & Hs & _ & Hm). inversion Hm; subst.
        simpl in Hs. injection Hs as -> _. congruence.
  - destruct (xorb (IsWordChar (fst p)) (IsWordChar (next p))) eqn:Hx.
    + split.
      * intros [<-|[]]. exists []. repeat split. constructor.
        destruct p as [prev s]. simpl in *.
        intros E. unfold next in Hx. simpl in Hx. rewrite E in Hx.
        by rewrite xorb_nilpotent in Hx.
      * intros (w & Hs & Hp & Hm). inversion Hm; subst.
        left. destruct p, q; simpl in *; congruence.
    + split; [done|]. intros (w & Hs & Hp & Hm). inversion Hm as
        [| | |? ? Hb| | | | | | | | |]; subst.
      simpl in Hs. destruct p as [prev s], q as [prev' s']. simpl in *. subst.
      destruct (IsWordChar prev), (IsWordChar (next (prev, s'))); done.
  - rewrite IH. split.
    + intros (w & Hs & Hp & Hm). exists w. repeat split; [done..|by constructor].
    + intros (w & Hs & Hp & Hm). inversion Hm; subst. by exists w.
  - by apply star_spec.
  - rewrite in_flat_map. split.
    + intros (q1 & Hq1 & Hq).
      apply IH in Hq1 as (w1 & Hs1 & Hp1 & Hm1).
      apply (star_spec sub IH) in Hq as (w2 & Hs2 & Hp2 & Hm2); [|done].
      exists (w1 ++ w2). rewrite last_app, <- Hp1, <- app_assoc, <- Hs2.
      repeat split; [done..|].
      apply M_Plus; [by rewrite <- Hs2 | by rewrite <- Hp1].
    + intros (w & Hs & Hp & Hm). inversion Hm; subst.
      exists (List.last w1 (fst p), w2 ++ snd q). split.
      * apply IH. exists w1. simpl. by rewrite Hs, <- app_assoc.
      * apply (star_spec sub IH); [done|].
        exists w2. simpl. by rewrite Hp, last_app.
  - rewrite in_app_iff, IH. split.
    + intros [(w & Hs & Hp & Hm)|[<-|[]]].
      * exists w. repeat split; [done..|by apply M_QuestSome].
      * exists []. repeat split. apply M_QuestNone.
    + intros (w & Hs & Hp & Hm). inversion Hm; subst.
      * left. by exists w.
      * right. left. destruct p, q; simpl in *; congruence.
  - rewrite in_flat_map. split.
    + intros (q1 & Hq1 & Hq).
      apply IH0 in Hq1 as (w1 & Hs1 & Hp1 & Hm1).
      apply IH1 in Hq as (w2 & Hs2 & Hp2 & Hm2).
      exists (w1 ++ w2). rewrite last_app, <- Hp1, <- app_assoc, <- Hs2.
      repeat split; [done..|].
      apply M_Concat; [by rewrite <- Hs2 | by rewrite <- Hp1].
    + intros (w & Hs & Hp & Hm). inversion Hm; subst.
      exists (List.last w1 (fst p), w2 ++ snd q). split.
      * apply IH0. exists w1. simpl. by rewrite Hs, <- app_assoc.
      * apply IH1. exists w2. simpl. by rewrite Hp, last_app.
  - rewrite in_app_iff, IH0, IH1. split.
    + intros [(w & Hs & Hp & Hm)|(w & Hs & Hp & Hm)];
        exists w; repeat split; try done;
        [by apply M_AlternateL | by apply M_AlternateR].
    + intros (w & Hs & Hp & Hm). inversion Hm; subst; [left | right]; by exists w.
Qed.

Lemma positions_spec prev s q :
  In q (positions prev s)
  <-> exists pre, s = pre ++ snd q /\ fst q = List.last pre prev.
Proof.
  revert prev. induction s as [|r s IH]; intros prev; simpl.
  - split.
    + intros [<-|[]]. by exists [].
    + intros (pre & Hs & Hp). symmetry in Hs. apply app_eq_nil in Hs as [-> Hq].
      left. destruct q; simpl in *; congruence.
  - rewrite IH. split.
    + intros [<-|(pre & Hs & Hp)]; [by exists []|].
      exists (r :: pre). by rewrite last_cons, Hs.
    + intros ([|a pre] & Hs & Hp).
      * left. destruct q; simpl in *; congruence.
      * right. simpl in Hs. injection Hs as -> Hs. rewrite last_cons in Hp.
        by exists pre.
Qed.

(** [MatchString] says yes exactly on the texts that have a match. *)
Theorem MatchString_spec re (text : string) :
  MatchString re text = true <-> has_match re text.
Proof.
  unfold MatchString, has_match. rewrite existsb_exists. split.
  - intros (p & Hp & Hm). unfold matchesAt in Hm.
    destruct (run re p) as [|q l] eqn:Hrun; [done|].
    assert (In q (run re p)) as Hq by (rewrite Hrun; by left).
    apply run_spec in Hq as (w & Hs & _ & Hw).
    apply positions_spec in Hp as (pre & Hs' & Hpre).
    exists pre, w, (snd q). rewrite Hs', Hs, <- Hpre. done.
  - intros (pre & w & post & Hs & Hm).
    exists (List.last pre endOfText, w ++ post). split.
    + apply positions_spec. by exists pre.
    + unfold matchesAt.
      assert (In (List.last w (List.last pre endOfText), post)
                 (run re (List.last pre endOfText, w ++ post))) as Hin.
      { apply run_spec. by exists w. }
      by destruct (run _ _).
Qed.

End matcher.

(** * The two patterns of [NewSpamDetector] *)

(** The character constants as numbers. *)
Ltac ch_compute :=
  repeat match goal with
         | |- context [ch ?c] =>
           let v := eval vm_compute in (ch c) in change (ch c) with v
         end.

Ltac no_if t :=
  lazymatch t with
  | context [if _ then _ else _] => fail
  | _ => idtac
  end.

(** Case analysis on every comparison of the goal, innermost first. *)
Ltac zbool :=
  repeat match goal with
         | |- context [Z.eqb ?a ?b] => no_if a; no_if b; destruct (Z.eqb_spec a b)
         | |- context [Z.leb ?a ?b] => no_if a; no_if b; destruct (Z.leb_spec a b)
         | |- context [Z.ltb ?a ?b] => no_if a; no_if b; destruct (Z.ltb_spec a b)
         | _ => progress cbn [andb orb negb]
         end;
  try (reflexivity || lia || discriminate || tauto).

Section patterns_facts.
Import syntax regexp.
Implicit Types (re sub : Regexp) (w : list rune) (r : rune).

Lemma SimpleFold_lower r0 :
  ch "a" <= r0 <= ch "z" -> r0 <> ch "k" -> r0 <> ch "s" ->
  unicode.SimpleFold r0 = r0 - 32.
Proof. unfold unicode.SimpleFold. ch_compute. intros. zbool. Qed.

Lemma SimpleFold_upper r0 :
  ch "A" <= r0 <= ch "Z" -> unicode.SimpleFold r0 = r0 + 32.
Proof. unfold unicode.SimpleFold. ch_compute. intros. zbool. Qed.

Lemma SimpleFold_caseless r0 :
  lower_fold r0 = r0 -> ~ ch "a" <= r0 <= ch "z" -> unicode.SimpleFold r0 = r0.
Proof. unfold unicode.SimpleFold, lower_fold. ch_compute. zbool. Qed.

(** With the case ignored a literal rune matches its whole orbit. *)
Lemma matchRune_fold r0 r :
  lower_fold r0 = r0 -> matchRune true r0 r = (lower_fold r =? r0).
Proof.
  intros Hr0. unfold matchRune.
  destruct (decide (r0 = ch "k")) as [->|Hk].
  { unfold lower_fold. vm_compute unicode.SimpleFold. ch_compute. zbool. }
  destruct (decide (r0 = ch "s")) as [->|Hs].
  { unfold lower_fold. vm_compute unicode.SimpleFold. ch_compute. zbool. }
  destruct (decide (ch "a" <= r0 <= ch "z")) as [Hl|Hl].
  - rewrite (SimpleFold_lower r0), (SimpleFold_upper (r0 - 32)) by (revert Hl; ch_compute; lia || done).
    revert Hl Hk Hs. unfold lower_fold. ch_compute. zbool.
  - rewrite !(SimpleFold_caseless r0) by done.
    revert Hl Hr0. unfold lower_fold. ch_compute. zbool.
Qed.

Lemma lower_fold_caseless r :
  r <> 0x212A -> r <> 0x17F -> ~ ch "A" <= r <= ch "Z" -> lower_fold r = r.
Proof. unfold lower_fold. ch_compute. intros. zbool. Qed.

(** A class of runes that are their own [lower_fold] (no upper-case
    letter in it), matched with the case ignored. *)
Lemma matchClass_fold ranges r :
  (forall x, inRanges ranges x = true -> lower_fold x = x) ->
  matchClass true ranges r = inRanges ranges (lower_fold r).
Proof.
  intros Hfolded.
  assert (forall x, lower_fold x <> x -> inRanges ranges x = false) as Hout.
  { intros x Hx. destruct (inRanges ranges x) eqn:E; [|done]. by apply Hfolded in E. }
  unfold matchClass. cbn [andb].
  destruct (decide (r = 0x212A)) as [->|Hkelvin].
  { rewrite (Hout 0x212A) by done. vm_compute unicode.SimpleFold.
    by rewrite (Hout 75). }
  destruct (decide (r = 0x17F)) as [->|Hlongs].
  { rewrite (Hout 0x17F) by done. vm_compute unicode.SimpleFold.
    by rewrite (Hout 83). }
  destruct (decide (ch "A" <= r <= ch "Z")) as [Hup|Hup].
  { assert (lower_fold r = r + 32) as ->.
    { revert Hup. unfold lower_fold. ch_compute. zbool. }
    rewrite (SimpleFold_upper r) by done.
    rewrite (Hout r) by (revert Hup; unfold lower_fold; ch_compute; zbool).
    destruct (decide (r + 32 = ch "k")) as [->|Hk].
    { vm_compute unicode.SimpleFold. rewrite (Hout 8490) by done. apply orb_false_r. }
    destruct (decide (r + 32 = ch "s")) as [->|Hs].
    { vm_compute unicode.SimpleFold. rewrite (Hout 383) by done. apply orb_false_r. }
    rewrite (SimpleFold_lower (r + 32)) by (revert Hup; ch_compute; lia || done).
    replace (r + 32 - 32) with r by lia.
    rewrite (Hout r) by (revert Hup; unfold lower_fold; ch_compute; zbool).
    apply orb_false_r. }
  rewrite (lower_fold_caseless r) by done.
  destruct (decide (r = ch "k")) as [->|Hk].
  { vm_compute unicode.SimpleFold. rewrite (Hout 8490), (Hout 75) by done.
    by rewrite !orb_false_r. }
  destruct (decide (r = ch "s")) as [->|Hs].
  { vm_compute unicode.SimpleFold. rewrite (Hout 383), (Hout 83) by done.
    by rewrite !orb_false_r. }
  destruct (decide (ch "a" <= r <= ch "z")) as [Hlo|Hlo].
  - rewrite (SimpleFold_lower r), (SimpleFold_upper (r - 32))
      by (revert Hlo; ch_compute; lia || done).
    rewrite (Hout (r - 32)) by (revert Hlo; unfold lower_fold; ch_compute; zbool).
    replace (r - 32 + 32) with r by lia. cbn [orb]. apply orb_diag.
  - rewrite !(SimpleFold_caseless r) by (try apply lower_fold_caseless; done).
    by rewrite !orb_diag.
Qed.

Lemma matchClass_alnum r :
  matchClass true [range "a" "z"; range "0" "9"] r = is_alnum (lower_fold r).
Proof.
  rewrite matchClass_fold.
  - unfold inRanges, is_alnum, range. cbn [existsb fst snd]. by rewrite orb_false_r.
  - intros x. unfold inRanges, lower_fold, range. cbn [existsb fst snd].
    ch_compute. zbool.
Qed.

Lemma matchClass_label r :
  matchClass true [range "-" "-"; range "a" "z"; range "0" "9"] r
  = is_label_rune (lower_fold r).
Proof.
  rewrite matchClass_fold.
  - unfold inRanges, is_label_rune, is_alnum, range. cbn [existsb fst snd].
    ch_compute. zbool.
  - intros x. unfold inRanges, lower_fold, range. cbn [existsb fst snd].
    ch_compute. zbool.
Qed.

Lemma matchClass_word r :
  matchClass false [range "a" "z"; range "A" "Z"; range "0" "9"; range "_" "_"] r
  = IsWordChar r.
Proof.
  unfold matchClass. cbn [andb]. rewrite orb_false_r.
  unfold inRanges, IsWordChar, range. cbn [existsb fst snd].
  ch_compute. zbool.
Qed.

Lemma matchRune_exact r0 r : matchRune false r0 r = (r =? r0).
Proof. unfold matchRune. simpl. apply orb_false_r. Qed.

End patterns_facts.

Section matches_facts.
Import syntax regexp.
Implicit Types (re sub : Regexp) (w post : list rune) (prev r : rune).

Lemma Matches_capture sub prev w post :
  Matches (OpCapture sub) prev w post <-> Matches sub prev w post.
Proof. split; [by inversion 1 | by constructor]. Qed.

Lemma Matches_alternate2 sub0 sub1 prev w post :
  Matches (OpAlternate sub0 sub1) prev w post
  <-> Matches sub0 prev w post \/ Matches sub1 prev w post.
Proof.
  split.
  - inversion 1; subst; auto.
  - intros [Hm|Hm]; [by apply M_AlternateL | by apply M_AlternateR].
Qed.

Lemma Matches_alternate subs prev w post :
  Matches (alternate subs) prev w post
  <-> exists re, In re subs /\ Matches re prev w post.
Proof.
  induction subs as [|re subs IH].
  - simpl. split.
    + inversion 1.
    + intros (? & [] & _).
  - destruct subs as [|re' subs].
    + simpl. split.
      * intros Hm. exists re. auto.
      * intros (? & [<-|[]] & Hm). done.
    + change (alternate (re :: re' :: subs))
        with (OpAlternate re (alternate (re' :: subs))).
      rewrite Matches_alternate2, IH. split.
      * intros [Hm|(x & Hx & Hm)].
        -- exists re. split; [by left | done].
        -- exists x. split; [by right | done].
      * intros (x & [<-|Hx] & Hm); [by left | right; by exists x].
Qed.

Lemma Matches_concat sub0 sub1 prev w post :
  Matches (OpConcat sub0 sub1) prev w post
  <-> exists w1 w2, w = w1 ++ w2
                    /\ Matches sub0 prev w1 (w2 ++ post)
                    /\ Matches sub1 (List.last w1 prev) w2 post.
Proof.
  split.
  - inversion 1; subst. by eexists _, _.
  - intros (w1 & w2 & -> & H0 & H1). by constructor.
Qed.

Lemma Matches_quest sub prev w post :
  Matches (OpQuest sub) prev w post <-> Matches sub prev w post \/ w = [].
Proof.
  split.
  - inversion 1; subst; auto.
  - intros [Hm | ->]; [by apply M_QuestSome | apply M_QuestNone].
Qed.

Lemma Matches_class foldCase ranges prev w post :
  Matches (OpCharClass foldCase ranges) prev w post
  <-> exists r, w = [r] /\ matchClass foldCase ranges r = true.
Proof.
  split.
  - inversion 1; subst. by eexists.
  - intros (r & -> & Hr). by constructor.
Qed.

Lemma Matches_wordBoundary prev w post :
  Matches OpWordBoundary prev w post
  <-> w = [] /\ IsWordChar prev <> IsWordChar (hd endOfText post).
Proof.
  split.
  - inversion 1 as [| | |? ? Hb| | | | | | | | |]; subst. split; [done|].
    by destruct post.
  - intros [-> Hb]. constructor. by destruct post.
Qed.

Lemma Matches_star_class foldCase ranges prev w post :
  Matches (OpStar (OpCharClass foldCase ranges)) prev w post
  <-> Forall (fun r => matchClass foldCase ranges r = true) w.
Proof.
  split.
  - remember (OpStar (OpCharClass foldCase ranges)) as re eqn:Hre.
    induction 1 as [| | | | | |sub prev' w1 w2 rest Hne Hm1 _ Hm2 IH| | | | | |];
      try discriminate; [constructor|].
    injection Hre as ->. apply Matches_class in Hm1 as (r & -> & Hr).
    constructor; [done | by apply IH].
  - revert prev. induction w as [|r w IH]; intros prev Hw; [constructor|].
    apply Forall_cons_1 in Hw as [Hr Hw].
    apply (M_StarCons _ prev [r] w); [done | by constructor | by apply IH].
Qed.

Lemma Matches_plus_class foldCase ranges prev w post :
  Matches (OpPlus (OpCharClass foldCase ranges)) prev w post
  <-> w <> [] /\ Forall (fun r => matchClass foldCase ranges r = true) w.
Proof.
  split.
  - inversion 1 as [| | | | | | |? ? w1 w2 ? Hm1 Hm2| | | | |]; subst.
    apply Matches_class in Hm1 as (r & -> & Hr).
    apply Matches_star_class in Hm2. split; [done | by constructor].
  - intros [Hne Hw]. destruct w as [|r w]; [done|].
    apply Forall_cons_1 in Hw as [Hr Hw].
    apply (M_Plus _ prev [r] w); [by constructor | by apply Matches_star_class].
Qed.

Lemma Forall2_matchRune_fold rs w :
  Forall (fun r0 => lower_fold r0 = r0) rs ->
  Forall2 (fun r0 r => matchRune true r0 r = true) rs w <-> map lower_fold w = rs.
Proof.
  intros Hrs. revert w. induction Hrs as [|r0 rs Hr0 _ IH]; intros w.
  - split; [by intros ->%Forall2_nil_inv_l | by intros ->%map_eq_nil; constructor].
  - split.
    + intros (r & w' & Hr & Hw & ->)%Forall2_cons_inv_l.
      rewrite matchRune_fold in Hr by done. apply Z.eqb_eq in Hr.
      apply IH in Hw. simpl. congruence.
    + destruct w as [|r w']; [done|]. simpl. intros [= Hr Hw].
      constructor; [|by apply IH].
      rewrite matchRune_fold by done. by apply Z.eqb_eq.
Qed.

Lemma is_folded_Forall (s : string) :
  is_folded s = true -> Forall (fun r0 => lower_fold r0 = r0) (bytes s).
Proof.
  unfold is_folded. rewrite forallb_forall. intros Hs.
  apply Forall_forall. intros r0 Hr0%list_elem_of_In. by apply Z.eqb_eq, Hs.
Qed.

(** A literal under [(?i)] matches the runes that spell it. *)
Lemma Matches_lit_fold (s : string) prev w post :
  is_folded s = true ->
  Matches (lit true s) prev w post <-> spells w s.
Proof.
  intros Hs%is_folded_Forall. unfold lit, spells.
  rewrite <- (Forall2_matchRune_fold _ _ Hs). split.
  - by inversion 1.
  - by constructor.
Qed.

Lemma Matches_lit_exact (s : string) prev w post :
  Matches (lit false s) prev w post <-> w = bytes s.
Proof.
  unfold lit. split.
  - inversion 1 as [|? ? ? ? ? Hw| | | | | | | | | | |]; subst. clear H.
    induction Hw as [|r0 r rs w Hr _ IH]; [done|].
    rewrite matchRune_exact in Hr. apply Z.eqb_eq in Hr. congruence.
  - intros ->. constructor. induction (bytes s) as [|r rs IH]; constructor; [|done].
    rewrite matchRune_exact. apply Z.eqb_refl.
Qed.

Lemma Matches_lits_fold (l : list string) prev w post :
  forallb is_folded l = true ->
  Matches (alternate (map (lit true) l)) prev w post
  <-> exists s, In s l /\ spells w s.
Proof.
  intros Hl. rewrite forallb_forall in Hl. rewrite Matches_alternate. split.
  - intros (re & (s & <- & Hs)%in_map_iff & Hm).
    exists s. split; [done|]. by apply Matches_lit_fold in Hm; [|apply Hl].
  - intros (s & Hs & Hw). exists (lit true s). split; [by apply in_map|].
    by apply Matches_lit_fold; [apply Hl|].
Qed.

End matches_facts.

Section link_pattern.
Import syntax regexp.
Implicit Types (w post dom label : list rune) (prev r : rune).

Lemma lower_fold_dot r : lower_fold r = ch "." <-> r = ch ".".
Proof. unfold lower_fold. ch_compute. split; zbool. Qed.

Lemma IsWordChar_plain_letter r :
  is_plain_letter (lower_fold r) = true -> IsWordChar r = true.
Proof. unfold is_plain_letter, lower_fold, IsWordChar. ch_compute. zbool. Qed.

(** The last rune of a top-level domain is an ASCII letter. *)
Lemma tld_last_IsWordChar dom tld prev :
  In tld link_tlds -> spells dom tld -> IsWordChar (List.last dom prev) = true.
Proof.
  intros Htld Hdom.
  assert (forallb (fun s => is_plain_letter (List.last (bytes s) 0)) link_tlds = true)
    as Hall by reflexivity.
  rewrite forallb_forall in Hall. specialize (Hall tld Htld).
  assert (bytes tld <> []) as Hne.
  { repeat (destruct Htld as [<-|Htld]; [done|]). destruct Htld. }
  unfold spells in Hdom. rewrite <- Hdom in Hall, Hne.
  destruct (exists_last (l:=dom)) as (dom' & c & ->); [by intros ->|].
  rewrite map_last, last_last in Hall. rewrite last_last.
  by apply IsWordChar_plain_letter.
Qed.

Lemma Matches_scheme prev w post :
  Matches (concat [lit true "http"; OpQuest (lit true "s"); lit true "://"]) prev w post
  <-> spells w "http://" \/ spells w "https://".
Proof.
  cbn [concat]. rewrite Matches_concat. split.
  - intros (w1 & w23 & -> & H1 & (w2 & w3 & -> & H2 & H3)%Matches_concat).
    apply Matches_lit_fold in H1; [|done]. apply Matches_lit_fold in H3; [|done].
    apply Matches_quest in H2 as [H2%Matches_lit_fold | ->]; [|done|].
    + right. unfold spells in *. by rewrite !map_app, H1, H2, H3.
    + left. unfold spells in *. by rewrite !map_app, H1, H3.
  - intros [Hw|Hw]; unfold spells in Hw.
    + change (bytes "http://") with (bytes "http" ++ bytes "://") in Hw.
      apply map_eq_app in Hw as (w1 & w3 & -> & H1 & H3).
      exists w1, ([] ++ w3). split; [done|]. split.
      * by apply Matches_lit_fold.
      * apply Matches_concat. exists [], w3. split; [done|]. split.
        -- apply Matches_quest. by right.
        -- by apply Matches_lit_fold.
    + change (bytes "https://") with (bytes "http" ++ bytes "s" ++ bytes "://") in Hw.
      apply map_eq_app in Hw as (w1 & w23 & -> & H1 & Hw).
      apply map_eq_app in Hw as (w2 & w3 & -> & H2 & H3).
      exists w1, (w2 ++ w3). split; [done|]. split.
      * by apply Matches_lit_fold.
      * apply Matches_concat. exists w2, w3. split; [done|]. split.
        -- apply Matches_quest. left. by apply Matches_lit_fold.
        -- by apply Matches_lit_fold.
Qed.

Lemma Matches_domain prev w post :
  Matches
    (concat
       [ OpCharClass true [range "a" "z"; range "0" "9"];
         OpStar (OpCharClass true [range "-" "-"; range "a" "z"; range "0" "9"]);
         lit true ".";
         OpCapture (alternate (map (lit true) link_tlds));
         OpWordBoundary ]) prev w post
  <-> exists c label dom tld,
        w = c :: label ++ ch "." :: dom
        /\ is_alnum (lower_fold c) = true
        /\ Forall (fun r => is_label_rune (lower_fold r) = true) label
        /\ In tld link_tlds
        /\ spells dom tld
        /\ IsWordChar (hd endOfText post) = false.
Proof.
  cbn [concat]. split.
  - intros (w1 & wa & -> & H1 & Ha)%Matches_concat.
    apply Matches_concat in Ha as (w2 & wb & -> & H2 & Hb).
    apply Matches_concat in Hb as (w3 & wc & -> & H3 & Hc).
    apply Matches_concat in Hc as (w4 & w5 & -> & H4 & H5).
    apply Matches_class in H1 as (c & -> & Hc). rewrite matchClass_alnum in Hc.
    apply Matches_star_class in H2.
    apply Matches_lit_fold in H3; [|done].
    apply map_eq_cons in H3 as (d & w3' & -> & Hd & ->%map_eq_nil).
    apply (proj1 (lower_fold_dot d)) in Hd.
    apply Matches_capture, Matches_lits_fold in H4 as (tld & Htld & Hdom); [|done].
    apply Matches_wordBoundary in H5 as [-> Hbound].
    rewrite (tld_last_IsWordChar _ _ _ Htld Hdom) in Hbound.
    exists c, w2, w4, tld. rewrite app_nil_r. subst d.
    repeat split; try done.
    + eapply Forall_impl; [apply H2|]. intros r Hr. simpl in Hr.
      by rewrite matchClass_label in Hr.
    + by destruct (IsWordChar (hd endOfText post)).
  - intros (c & label & dom & tld & -> & Hc & Hlabel & Htld & Hdom & Hpost).
    apply Matches_concat. exists [c], (label ++ ch "." :: dom). split; [done|]. split.
    { apply Matches_class. exists c. by rewrite matchClass_alnum. }
    apply Matches_concat. exists label, (ch "." :: dom). split; [done|]. split.
    { apply Matches_star_class. eapply Forall_impl; [apply Hlabel|].
      intros r Hr. simpl in Hr. by rewrite matchClass_label. }
    apply Matches_concat. exists [ch "."], dom. split; [done|]. split.
    { by apply Matches_lit_fold. }
    apply Matches_concat. exists dom, []. split; [by rewrite app_nil_r|]. split.
    { apply Matches_capture, Matches_lits_fold; [done|]. by exists tld. }
    apply Matches_wordBoundary. split; [done|].
    rewrite (tld_last_IsWordChar _ _ _ Htld Hdom), Hpost. done.
Qed.

(** What [linkPattern] matches is a link token. *)
Theorem linkPattern_spec prev w post :
  Matches linkPattern_re prev w post <-> link_token w post.
Proof.
  unfold linkPattern_re, link_token. cbv zeta.
  rewrite Matches_capture, Matches_alternate. split.
  - intros (re & Hre & Hm).
    destruct Hre as [<-|Hre].
    { apply Matches_scheme in Hm as [Hm|Hm]; left;
        [exists "http://" | exists "https://"]; split; try done; simpl; tauto. }
    do 5 (destruct Hre as [<-|Hre];
          [ apply Matches_lit_fold in Hm; [|done];
            left; eexists; split; [|apply Hm]; simpl; tauto |]).
    destruct Hre as [<-|[]].
    right. by apply (Matches_domain prev w post).
  - intros [(frag & Hfrag & Hw) | Hdomain].
    + destruct Hfrag as [<-|Hfrag].
      { eexists. split; [by left|]. apply Matches_scheme. by left. }
      destruct Hfrag as [<-|Hfrag].
      { eexists. split; [by left|]. apply Matches_scheme. by right. }
      do 5 (destruct Hfrag as [<-|Hfrag];
            [ eexists; split; [|apply Matches_lit_fold; [|apply Hw]; done];
              simpl; tauto |]).
      destruct Hfrag.
    + eexists. split; [|apply (Matches_domain prev w post); apply Hdomain].
      simpl. tauto.
Qed.

Theorem linkPattern_MatchString (text : string) :
  MatchString linkPattern_re text = true <-> has_link_token text.
Proof.
  rewrite MatchString_spec. unfold has_match, has_link_token.
  split; intros (pre & w & post & Hs & Hm); exists pre, w, post;
    (split; [done|]); by apply (linkPattern_spec (List.last pre endOfText)).
Qed.

(** What [mentionPattern] finds is an [@] with a word rune after it. *)
Theorem mentionPattern_MatchString (text : string) :
  MatchString mentionPattern_re text = true <-> has_mention_token text.
Proof.
  rewrite MatchString_spec. unfold has_match, has_mention_token, mentionPattern_re.
  cbn [concat]. split.
  - intros (pre & w & post & Hs & (w1 & w2 & -> & H1 & H2)%Matches_concat).
    apply Matches_lit_exact in H1 as ->.
    apply Matches_plus_class in H2 as [Hne Hw].
    destruct w2 as [|c w2]; [done|]. apply Forall_cons_1 in Hw as [Hc _].
    rewrite matchClass_word in Hc.
    exists pre, c, (w2 ++ post). split; [|done].
    by rewrite Hs.
  - intros (pre & c & post & Hs & Hc).
    exists pre, [ch "@"; c], post. split; [done|].
    apply Matches_concat. exists [ch "@"], [c]. split; [done|]. split.
    + by apply Matches_lit_exact.
    + apply Matches_plus_class. split; [done|].
      constructor; [|constructor]. by rewrite matchClass_word.
Qed.

End link_pattern.

(** * Strings as bytes, bytes as runes *)

Section utf8_facts.
Import utf8.
Implicit Types (s pre : list Z) (a b : Z).

Lemma first_cases b :
  first b = as_ /\ b <= 0x7F
  \/ first b = xx
  \/ In (first b) [s1; s2; s3; s4; s5; s6; s7] /\ 0xC2 <= b.
Proof.
  unfold first.
  repeat match goal with
         | |- context [Z.eqb ?x ?y] => destruct (Z.eqb_spec x y)
         | |- context [Z.leb ?x ?y] => destruct (Z.leb_spec x y)
         end; simpl; try tauto; right; right; split; try tauto; lia.
Qed.

(** The entry of [first] being known, its size and range are numbers. *)
Ltac first_compute :=
  repeat match goal with
         | |- context [Z.to_nat (Z.land ?k 7)] =>
           let v := eval vm_compute in (Z.to_nat (Z.land k 7)) in
           change (Z.to_nat (Z.land k 7)) with v
         | |- context [acceptRanges ?k] =>
           let v := eval vm_compute in (acceptRanges k) in
           change (acceptRanges k) with v
         | |- context [as_ <=? ?k] =>
           let v := eval vm_compute in (as_ <=? k) in
           change (as_ <=? k) with v
         | |- context [(?n <=? ?m)%nat] =>
           let v := eval vm_compute in (n <=? m)%nat in
           change (n <=? m)%nat with v
         end;
  lazy beta iota; cbn [fst snd].

(** A rune takes at least one byte and no more than there are. *)
Lemma DecodeRuneInString_size b s :
  (1 <= snd (DecodeRuneInString (b :: s)) <= length (b :: s))%nat.
Proof.
  unfold DecodeRuneInString.
  destruct (first_cases b) as [[-> _]|[->|[Hin _]]]; [simpl; lia..|].
  simpl in Hin.
  repeat (destruct Hin as [<-|Hin];
          [ first_compute;
            repeat match goal with
                   | |- context [(?n <? ?m)%nat] => destruct (Nat.ltb_spec n m)
                   | |- context [if ?c then _ else _] => destruct c
                   end;
            cbn [snd length] in *; lia |]).
  destruct Hin.
Qed.

Lemma DecodeRuneInString_ascii a s :
  0 <= a < RuneSelf -> DecodeRuneInString (a :: s) = (a, 1%nat).
Proof.
  unfold RuneSelf, DecodeRuneInString, first. intros Ha.
  destruct (Z.leb_spec a 0x7F); [done | lia].
Qed.

(** An ASCII byte ends whatever encoding was under way: the rune decoded
    at the head of [pre] is the same with the ASCII byte after [pre]. *)
Lemma DecodeRuneInString_before_ascii pre a s :
  pre <> [] -> a < RuneSelf ->
  DecodeRuneInString (pre ++ a :: s) = DecodeRuneInString pre.
Proof.
  unfold RuneSelf. intros Hpre Ha. destruct pre as [|b0 p]; [done|].
  unfold DecodeRuneInString. cbn [app].
  destruct (first_cases b0) as [[-> _]|[->|[Hin _]]]; [done..|].
  simpl in Hin.
  repeat (destruct Hin as [<-|Hin];
          [ first_compute;
            destruct p as [|b1 [|b2 [|b3 p]]];
            cbn [app length nth Nat.ltb Nat.leb]; unfold locb, hicb;
            repeat match goal with
                   | |- context [(?n <=? ?m)%nat] => destruct (n <=? m)%nat
                   end;
            zbool |]).
  destruct Hin.
Qed.

Lemma decode_fuel n s :
  (length s <= n)%nat -> decode n s = decode (length s) s.
Proof.
  revert s. induction n as [n IH] using lt_wf_ind. intros s Hn.
  destruct s as [|b s]; [by destruct n|].
  destruct n as [|n]; [simpl in Hn; lia|].
  cbn [decode length].
  pose proof (DecodeRuneInString_size b s) as Hsize.
  destruct (DecodeRuneInString (b :: s)) as [r size]. cbn [snd] in Hsize.
  f_equal.
  assert (length (drop size (b :: s)) <= length s)%nat as Hdrop.
  { rewrite length_drop. simpl. lia. }
  rewrite (IH n) by (simpl in Hn; lia).
  rewrite (IH (length s)) by (simpl in Hn; lia). done.
Qed.

Lemma runes_cons b s :
  runes (b :: s)
  = fst (DecodeRuneInString (b :: s))
      :: runes (drop (snd (DecodeRuneInString (b :: s))) (b :: s)).
Proof.
  unfold runes. cbn [decode length].
  pose proof (DecodeRuneInString_size b s) as Hsize.
  destruct (DecodeRuneInString (b :: s)) as [r size]. cbn [fst snd] in *.
  f_equal. apply decode_fuel. rewrite length_drop. simpl. lia.
Qed.

Lemma runes_ascii_cons a s :
  0 <= a < RuneSelf -> runes (a :: s) = a :: runes s.
Proof.
  intros Ha. by rewrite runes_cons, DecodeRuneInString_ascii.
Qed.

Lemma runes_ascii_app (u s : list Z) :
  Forall (fun a => 0 <= a < RuneSelf) u -> runes (u ++ s) = u ++ runes s.
Proof.
  induction 1 as [|a u Ha _ IH]; [done|].
  cbn [app]. by rewrite runes_ascii_cons, IH.
Qed.

(** Decoding can be cut in front of an ASCII byte. *)
Lemma runes_app_ascii pre a s :
  a < RuneSelf -> runes (pre ++ a :: s) = runes pre ++ runes (a :: s).
Proof.
  intros Ha. remember (length pre) as n eqn:Hn. revert pre Hn.
  induction n as [n IH] using lt_wf_ind. intros pre Hn.
  destruct pre as [|b pre]; [done|].
  cbn [app]. rewrite (runes_cons b (pre ++ a :: s)), (runes_cons b pre).
  change (b :: pre ++ a :: s) with ((b :: pre) ++ a :: s).
  rewrite DecodeRuneInString_before_ascii by done.
  pose proof (DecodeRuneInString_size b pre) as Hsize.
  destruct (DecodeRuneInString (b :: pre)) as [r size]. cbn [fst snd] in *.
  rewrite drop_app_le by lia.
  cbn [app]. f_equal.
  apply (IH (length (drop size (b :: pre)))); [|done].
  rewrite length_drop. simpl in *. lia.
Qed.

End utf8_facts.

Section strings_facts.
Import strings.
Implicit Types (s sub text : string) (l : list Z).

Lemma ch_range (c : ascii) : 0 <= ch c < 256.
Proof.
  unfold ch. pose proof (N_ascii_bounded c). lia.
Qed.

Lemma byte_ch (c : ascii) : byte (ch c) = c.
Proof.
  unfold byte. rewrite Z.mod_small by apply ch_range.
  unfold ch. rewrite N2Z.id. apply ascii_N_embedding.
Qed.

Lemma bytes_range s : Forall (fun b => 0 <= b < 256) (bytes s).
Proof. induction s; constructor; [apply ch_range | done]. Qed.

Lemma bytes_app s1 s2 : bytes (s1 +:+ s2) = bytes s1 ++ bytes s2.
Proof. induction s1 as [|c s1 IH]; [done|]. simpl. by rewrite IH. Qed.

Lemma of_bytes_app l1 l2 : of_bytes (l1 ++ l2) = of_bytes l1 +:+ of_bytes l2.
Proof. induction l1 as [|b l1 IH]; [done|]. simpl. by rewrite IH. Qed.

Lemma of_bytes_bytes s : of_bytes (bytes s) = s.
Proof. induction s as [|c s IH]; [done|]. simpl. by rewrite byte_ch, IH. Qed.

Lemma HasPrefix_spec s sub :
  HasPrefix s sub = true <-> exists post, s = sub +:+ post.
Proof.
  revert s. induction sub as [|p sub IH]; intros s.
  - simpl. split; [by exists s | done].
  - destruct s as [|c s]; simpl.
    + split; [done|]. intros (post & Hs). discriminate Hs.
    + rewrite andb_true_iff, Ascii.eqb_eq, IH. split.
      * intros [-> (post & ->)]. by exists post.
      * intros (post & [= -> ->]). split; [done | by exists post].
Qed.

Lemma Contains_spec s sub :
  Contains s sub = true <-> exists pre post, s = pre +:+ sub +:+ post.
Proof.
  induction s as [|c s IH].
  - simpl. rewrite orb_false_r, HasPrefix_spec. split.
    + intros (post & ->). by exists "", post.
    + intros ([|c pre] & post & Hs); [by exists post | discriminate Hs].
  - cbn [Contains]. rewrite orb_true_iff, HasPrefix_spec, IH. split.
    + intros [(post & ->)|(pre & post & ->)].
      * by exists "", post.
      * by exists (String c pre), post.
    + intros ([|c' pre] & post & Hs).
      * left. by exists post.
      * right. simpl in Hs. injection Hs as -> ->. by exists pre, post.
Qed.

Lemma AppendRune_app l r : utf8.AppendRune l r = l ++ utf8.AppendRune [] r.
Proof.
  unfold utf8.AppendRune, utf8.appendRuneNonASCII.
  repeat match goal with
         | |- context [if ?c then _ else _] => destruct c
         end; done.
Qed.

Lemma fold_left_AppendRune (mapping : rune -> rune) (l : list rune) (acc : list Z) :
  fold_left
    (fun b c => let r := mapping c in if 0 <=? r then utf8.AppendRune b r else b) l acc
  = acc ++ flat_map (fun c => if 0 <=? mapping c
                              then utf8.AppendRune [] (mapping c) else []) l.
Proof.
  revert acc. induction l as [|c l IH]; intros acc; simpl.
  - by rewrite app_nil_r.
  - rewrite IH. destruct (0 <=? mapping c).
    + by rewrite (AppendRune_app acc), <- app_assoc.
    + done.
Qed.

(** [Map] writes the image of every rune, one after the other. *)
Lemma Map_flat_map (mapping : rune -> rune) s :
  Map mapping s
  = of_bytes
      (flat_map (fun c => if 0 <=? mapping c then utf8.AppendRune [] (mapping c) else [])
                (utf8.runes (bytes s))).
Proof. unfold Map. by rewrite fold_left_AppendRune. Qed.

Lemma ascii_lower_inv c : ascii_lower c < utf8.RuneSelf -> c < utf8.RuneSelf.
Proof. unfold ascii_lower, utf8.RuneSelf. ch_compute. zbool. Qed.

Context `{unicode.CaseRanges}.

Lemma ToLower_ascii_rune c :
  0 <= c < utf8.RuneSelf ->
  (if 0 <=? unicode.ToLower c then utf8.AppendRune [] (unicode.ToLower c) else [])
  = [ascii_lower c].
Proof.
  unfold unicode.ToLower, unicode.MaxASCII, utf8.AppendRune, utf8.uint32,
    utf8.rune1Max, utf8.RuneSelf, ascii_lower.
  ch_compute. change (97 - 65) with 32. intros Hc.
  destruct (Z.leb_spec c 127); [|lia].
  destruct ((65 <=? c) && (c <=? 90)) eqn:E.
  - apply andb_true_iff in E as [E1%Z.leb_le E2%Z.leb_le].
    destruct (Z.leb_spec 0 (c + 32)); [|lia].
    rewrite (Z.mod_small (c + 32) (2 ^ 32)) by lia.
    destruct (Z.leb_spec (c + 32) 127); [|lia].
    by rewrite Z.mod_small by lia.
  - destruct (Z.leb_spec 0 c); [|lia].
    rewrite (Z.mod_small c (2 ^ 32)) by lia.
    destruct (Z.leb_spec c 127); [|lia].
    by rewrite Z.mod_small by lia.
Qed.

Lemma ToLower_ascii_runes l :
  Forall (fun c => 0 <= c < utf8.RuneSelf) l ->
  flat_map (fun c => if 0 <=? unicode.ToLower c
                     then utf8.AppendRune [] (unicode.ToLower c) else []) l
  = map ascii_lower l.
Proof.
  induction 1 as [|c l Hc _ IH]; [done|].
  cbn [flat_map map]. by rewrite ToLower_ascii_rune, IH.
Qed.

(** On a text of ASCII bytes [ToLower] lowers byte by byte. *)
Lemma ToLower_isASCII text :
  isASCII text = true -> ToLower text = of_bytes (map ascii_lower (bytes text)).
Proof.
  intros Hascii. unfold ToLower. rewrite Hascii.
  destruct (hasUpper text) eqn:Hup; simpl.
  - f_equal.
  - rewrite <- (of_bytes_bytes text) at 1. f_equal.
    unfold hasUpper in Hup.
    induction (bytes text) as [|c l IH]; [done|].
    simpl in Hup. apply orb_false_iff in Hup as [Hc Hl].
    simpl. unfold ascii_lower at 1. rewrite Hc. f_equal. by apply IH.
Qed.

(** An occurrence of an ASCII keyword, in whatever case, is an occurrence
    of the keyword in the lowered text. *)
Theorem keyword_matches_occurrence text keyword :
  keyword <> "" ->
  Forall (fun c => c < utf8.RuneSelf) (bytes keyword) ->
  occurs_ignoring_case text keyword ->
  keyword_matches text keyword.
Proof.
  intros Hne Hkw (pre & u & post & -> & Hu).
  unfold keyword_matches. apply Contains_spec.
  assert (Forall (fun c => 0 <= c < utf8.RuneSelf) (bytes u)) as Hascii.
  { pose proof (bytes_range u) as Hr. rewrite <- Hu in Hkw.
    apply Forall_fmap in Hkw.
    rewrite Forall_forall in Hkw. rewrite Forall_forall in Hr.
    apply Forall_forall. intros c Hc. split; [by apply Hr|].
    apply ascii_lower_inv. by apply Hkw. }
  destruct (isASCII (pre +:+ u +:+ post)) eqn:Hall.
  - rewrite ToLower_isASCII by done.
    rewrite !bytes_app, !map_app, !of_bytes_app, Hu, of_bytes_bytes.
    by eexists _, _.
  - unfold ToLower. rewrite Hall, Map_flat_map.
    rewrite !bytes_app.
    destruct (bytes u) as [|a l] eqn:Hbu.
    { destruct keyword; [done | discriminate]. }
    apply Forall_cons_1 in Hascii as Ha. destruct Ha as [Ha Hl].
    eexists _, _.
    cbn [app]. rewrite runes_app_ascii by apply (proj2 Ha).
    change (a :: l ++ bytes post) with ((a :: l) ++ bytes post).
    rewrite runes_ascii_app by done.
    rewrite !flat_map_app, (ToLower_ascii_runes (a :: l)) by done.
    rewrite Hu, !of_bytes_app, of_bytes_bytes.
    reflexivity.
Qed.

End strings_facts.

(** * The keyword test against what it finds *)

Section aligned.
Variables (f : rune -> list Z) (g : rune -> rune).

Lemma aligned_prefix (l : list rune) (k post : list Z) :
  Forall (written f g) l ->
  Forall (fun b => b < 128) k ->
  flat_map f l = k ++ post ->
  exists lpost, map g l = k ++ lpost.
Proof.
  intros Hl Hk. revert l Hl. induction Hk as [|b k Hb _ IH]; intros l Hl Heq.
  - by exists (map g l).
  - destruct Hl as [|r l Hr Hl]; [done|].
    cbn [flat_map map] in *. destruct Hr as [[Hg Hf]|(Hg & Hne & Hhigh)].
    + rewrite Hf in Heq. injection Heq as <- Heq.
      destruct (IH l Hl Heq) as (lpost & ->). by exists lpost.
    + destruct (f r) as [|b' fr]; [done|].
      injection Heq as -> _. apply Forall_cons_1 in Hhigh as [Hb' _]. lia.
Qed.

Lemma aligned_occurrence (l : list rune) (pre k post : list Z) :
  Forall (written f g) l ->
  Forall (fun b => b < 128) k ->
  k <> [] ->
  flat_map f l = pre ++ k ++ post ->
  exists lpre lpost, map g l = lpre ++ k ++ lpost.
Proof.
  intros Hl Hk Hne. revert pre. induction Hl as [|r l Hr Hl IH]; intros pre Heq.
  - destruct pre, k; done.
  - cbn [flat_map map] in *.
    destruct pre as [|p pre].
    { destruct (aligned_prefix (r :: l) k post) as (lpost & Hpost); [by constructor|done..|].
      exists [], lpost. done. }
    destruct Hr as [[Hg Hf]|(Hg & Hnil & Hhigh)].
    + rewrite Hf in Heq. injection Heq as _ Heq.
      destruct (IH pre Heq) as (lpre & lpost & ->).
      by exists (g r :: lpre), lpost.
    + apply app_eq_app in Heq as (m & [[Hfr Hmid]|[Hpre Hrest]]).
      * destruct m as [|b m].
        { rewrite app_nil_r in Hfr. simpl in Hmid.
          destruct (aligned_prefix l k post) as (lpost & Hpost); [done..|].
          exists [g r], lpost. by rewrite Hpost. }
        destruct k as [|k0 k]; [done|].
        injection Hmid as <- _.
        rewrite Hfr in Hhigh. apply Forall_app in Hhigh as [_ Hm].
        apply Forall_cons_1 in Hm as [Hb _].
        apply Forall_cons_1 in Hk as [Hk0 _]. lia.
      * destruct (IH m Hrest) as (lpre & lpost & ->).
        by exists (g r :: lpre), lpost.
Qed.

Lemma written_occurrence (l lpre lpost : list rune) (k : list Z) :
  Forall (written f g) l ->
  Forall (fun b => b < 128) k ->
  map g l = lpre ++ k ++ lpost ->
  exists pre post, flat_map f l = pre ++ k ++ post.
Proof.
  intros Hl Hk Heq.
  apply map_eq_app in Heq as (l1 & l' & -> & _ & Heq).
  apply map_eq_app in Heq as (lk & l2 & -> & Hlk & _).
  exists (flat_map f l1), (flat_map f l2). rewrite !flat_map_app. do 2 f_equal.
  apply Forall_app in Hl as [_ Hl]. apply Forall_app in Hl as [Hl _].
  subst k. induction Hl as [|r lk Hr _ IH]; [done|].
  cbn [flat_map map] in *. apply Forall_cons_1 in Hk as [Hr' Hk].
  rewrite IH by done. destruct Hr as [[_ ->]|[Hg _]]; [done | lia].
Qed.

End aligned.

Section keyword_facts.
Context `{unicode.CaseRanges}.
Implicit Types (text keyword : string) (l : list Z) (r : rune).

Lemma bytes_of_bytes_mod l : bytes (of_bytes l) = map (fun b => b mod 256) l.
Proof.
  induction l as [|b l IH]; [done|].
  simpl. rewrite IH. f_equal.
  unfold ch, byte. pose proof (Z.mod_pos_bound b 256).
  rewrite N_ascii_embedding; lia.
Qed.

Lemma testbit_7 (a : Z) : 0 <= a -> Z.testbit a 7 = true -> 128 <= a.
Proof.
  intros Ha Hbit. apply Z.testbit_true in Hbit; [|lia].
  destruct (Z.lt_ge_cases a 128) as [Hlt|]; [|done].
  rewrite Z.div_small in Hbit by (change (2 ^ 7) with 128; lia). done.
Qed.

Lemma lor_high (t x : Z) : Z.testbit t 7 = true -> 128 <= Z.lor t x mod 256.
Proof.
  intros Ht. apply testbit_7; [apply Z.mod_pos_bound; lia|].
  change 256 with (2 ^ 8). rewrite Z.mod_pow2_bits_low by lia.
  by rewrite Z.lor_spec, Ht.
Qed.

Lemma AppendRune_low (v : Z) : 0 <= v < 128 -> utf8.AppendRune [] v = [v].
Proof.
  intros Hv. unfold utf8.AppendRune, utf8.uint32, utf8.rune1Max.
  rewrite (Z.mod_small v (2 ^ 32)) by lia.
  destruct (Z.leb_spec v 127); [|lia]. by rewrite Z.mod_small by lia.
Qed.

Lemma AppendRune_high (v : Z) :
  128 <= v < 2 ^ 32 ->
  utf8.AppendRune [] v <> []
  /\ Forall (fun b => 128 <= b mod 256) (utf8.AppendRune [] v).
Proof.
  intros Hv. unfold utf8.AppendRune, utf8.uint32, utf8.rune1Max.
  rewrite (Z.mod_small v (2 ^ 32)) by lia.
  destruct (Z.leb_spec v 127); [lia|].
  unfold utf8.appendRuneNonASCII.
  repeat match goal with
         | |- context [if ?c then _ else _] => destruct c
         end;
    (split; [done|]); cbn [app]; repeat constructor; by apply lor_high.
Qed.

Lemma lor_lt_pow2 (n a b : Z) :
  0 <= a < 2 ^ n -> 0 <= b < 2 ^ n -> 0 <= Z.lor a b < 2 ^ n.
Proof.
  intros Ha Hb.
  assert (0 <= Z.lor a b) as Hnonneg by (apply Z.lor_nonneg; lia).
  split; [done|].
  destruct (Z.eq_dec (Z.lor a b) 0) as [->|Hnz]; [lia|].
  assert (0 < n) as Hn.
  { destruct (Z.lt_ge_cases 0 n) as [|Hle]; [done|]. exfalso. apply Hnz.
    assert (2 ^ n <= 1) by (destruct (Z.eq_dec n 0) as [->|]; [done|];
                            rewrite Z.pow_neg_r by lia; lia).
    assert (a = 0) as -> by lia. assert (b = 0) as -> by lia. done. }
  apply Z.log2_lt_pow2; [lia|]. rewrite Z.log2_lor by lia.
  apply Z.max_lub_lt.
  - destruct (Z.eq_dec a 0) as [->|]; [done|]. apply Z.log2_lt_pow2; lia.
  - destruct (Z.eq_dec b 0) as [->|]; [done|]. apply Z.log2_lt_pow2; lia.
Qed.

Lemma land_shiftl_range (x : Z) (k n : Z) :
  0 <= k -> 0 <= n -> 0 <= Z.shiftl (Z.land x (Z.ones k)) n < 2 ^ (k + n).
Proof.
  intros Hk Hn. rewrite Z.land_ones, Z.shiftl_mul_pow2 by done.
  pose proof (Z.mod_pos_bound x (2 ^ k)) as Hx.
  assert (0 < 2 ^ k) by (apply Z.pow_pos_nonneg; lia).
  assert (0 < 2 ^ n) by (apply Z.pow_pos_nonneg; lia).
  rewrite Z.pow_add_r by done. nia.
Qed.

Lemma land_range (x : Z) (k : Z) : 0 <= k -> 0 <= Z.land x (Z.ones k) < 2 ^ k.
Proof.
  intros Hk. rewrite Z.land_ones by done. apply Z.mod_pos_bound.
  apply Z.pow_pos_nonneg; lia.
Qed.

(** A decoded rune has at most 21 bits. *)
Lemma DecodeRuneInString_range l :
  Forall (fun b => 0 <= b < 256) l -> 0 <= fst (utf8.DecodeRuneInString l) < 2 ^ 21.
Proof.
  intros Hl. unfold utf8.DecodeRuneInString.
  destruct Hl as [|b l Hb Hl]; [done|].
  assert (forall x k n, 0 <= k -> 0 <= n -> k + n <= 21 ->
            0 <= Z.shiftl (Z.land x (Z.ones k)) n < 2 ^ 21) as Hshift.
  { intros x k n Hk Hn Hkn. pose proof (land_shiftl_range x k n Hk Hn) as Hr.
    assert (2 ^ (k + n) <= 2 ^ 21) by (apply Z.pow_le_mono_r; lia). lia. }
  assert (forall x k, 0 <= k <= 21 -> 0 <= Z.land x (Z.ones k) < 2 ^ 21) as Hland.
  { intros x k Hk. pose proof (land_range x k (proj1 Hk)) as Hr.
    assert (2 ^ k <= 2 ^ 21) by (apply Z.pow_le_mono_r; lia). lia. }
  unfold utf8.mask2, utf8.mask3, utf8.mask4, utf8.maskx.
  change 0x1F with (Z.ones 5). change 0x0F with (Z.ones 4).
  change 0x07 with (Z.ones 3). change 0x3F with (Z.ones 6).
  repeat match goal with
         | |- context [if ?c then _ else _] => destruct c
         end;
    cbn [fst]; try done; try lia;
    repeat first [ apply lor_lt_pow2
                 | apply Hshift; lia
                 | apply Hland; lia ].
Qed.

Lemma decode_range (n : nat) l :
  Forall (fun b => 0 <= b < 256) l -> Forall (fun r => 0 <= r < 2 ^ 21) (utf8.decode n l).
Proof.
  revert l. induction n as [|n IH]; intros l Hl; [by destruct l|].
  destruct l as [|b l]; [done|]. cbn [utf8.decode].
  pose proof (DecodeRuneInString_range _ Hl) as Hr.
  destruct (utf8.DecodeRuneInString (b :: l)) as [r size]. cbn [fst] in Hr.
  constructor; [done|]. apply IH. by apply Forall_drop.
Qed.

Lemma runes_range text : Forall (fun r => 0 <= r < 2 ^ 21) (utf8.runes (bytes text)).
Proof. apply decode_range, bytes_range. Qed.

Lemma lowered_written r :
  lower_case_in_range -> 0 <= r < 2 ^ 21 ->
  written (fun r => map (fun b => b mod 256) (lowered r)) unicode.ToLower r.
Proof.
  intros Hlaw Hr.
  assert (0 <= unicode.ToLower r < 2 ^ 31) as Hv.
  { unfold unicode.ToLower, unicode.MaxASCII. destruct (Z.leb_spec r 127).
    - revert Hr. ch_compute. destruct (_ && _); lia.
    - apply Hlaw. lia. }
  unfold written, lowered. destruct (Z.leb_spec 0 (unicode.ToLower r)); [|lia].
  destruct (Z.lt_ge_cases (unicode.ToLower r) 128) as [Hlow|Hhigh].
  - left. split; [done|]. rewrite AppendRune_low by lia.
    cbn [map]. by rewrite Z.mod_small by lia.
  - right. split; [lia|].
    destruct (AppendRune_high (unicode.ToLower r)) as [Hne Hall]; [lia|].
    split.
    + by destruct (utf8.AppendRune [] _).
    + by apply Forall_fmap.
Qed.

Lemma isASCII_bytes text :
  strings.isASCII text = true ->
  Forall (fun c => 0 <= c < utf8.RuneSelf) (bytes text).
Proof.
  unfold strings.isASCII. rewrite forallb_forall. intros Hall.
  pose proof (bytes_range text) as Hr. rewrite Forall_forall in Hr.
  apply Forall_forall. intros c Hc. split; [by apply Hr|].
  apply Z.ltb_lt, Hall. by apply list_elem_of_In.
Qed.

Lemma runes_ascii (l : list Z) :
  Forall (fun c => 0 <= c < utf8.RuneSelf) l -> utf8.runes l = l.
Proof.
  intros Hl. rewrite <- (app_nil_r l) at 1.
  rewrite runes_ascii_app by done. by rewrite app_nil_r.
Qed.

(** [strings.ToLower] writes the lower case of every rune of the text, on
    its fast path for ASCII and on the path through [strings.Map]. *)
Lemma ToLower_lowered text :
  strings.ToLower text = of_bytes (flat_map lowered (utf8.runes (bytes text))).
Proof.
  destruct (strings.isASCII text) eqn:Hascii.
  - rewrite ToLower_isASCII by done.
    pose proof (isASCII_bytes text Hascii) as Hb.
    rewrite runes_ascii by done. f_equal. symmetry. by apply ToLower_ascii_runes.
  - unfold strings.ToLower. rewrite Hascii. apply Map_flat_map.
Qed.

Lemma map_flat_map {A B C} (h : B -> C) (f : A -> list B) (l : list A) :
  map h (flat_map f l) = flat_map (fun x => map h (f x)) l.
Proof.
  induction l as [|a l IH]; [done|]. cbn [flat_map]. by rewrite map_app, IH.
Qed.

(** The keyword test of [IsSpam] finds the keyword exactly when it stands
    in the text with case ignored. *)
Theorem keyword_matches_iff text keyword :
  lower_case_in_range ->
  keyword <> "" ->
  Forall (fun c => c < utf8.RuneSelf) (bytes keyword) ->
  keyword_matches text keyword <-> contains_ignoring_case text keyword.
Proof.
  intros Hlaw Hne Hascii.
  assert (Forall (written (fun r => map (fun b => b mod 256) (lowered r)) unicode.ToLower)
            (utf8.runes (bytes text))) as Hwritten.
  { eapply Forall_impl; [apply runes_range|]. intros r Hr. by apply lowered_written. }
  assert (bytes (strings.ToLower text)
          = flat_map (fun r => map (fun b => b mod 256) (lowered r))
              (utf8.runes (bytes text))) as Hbytes.
  { by rewrite ToLower_lowered, bytes_of_bytes_mod, map_flat_map. }
  unfold keyword_matches, contains_ignoring_case, lowered_runes.
  rewrite Contains_spec. split.
  - intros (pre & post & Heq).
    apply (f_equal bytes) in Heq. rewrite !bytes_app, Hbytes in Heq.
    apply (aligned_occurrence _ _ _ _ _ _ Hwritten) in Heq; [done..|].
    by destruct keyword.
  - intros (lpre & lpost & Heq).
    apply (written_occurrence _ _ _ _ _ _ Hwritten) in Heq as (pre & post & Heq); [|done].
    rewrite <- Hbytes in Heq. exists (of_bytes pre), (of_bytes post).
    by rewrite <- (of_bytes_bytes (strings.ToLower text)), Heq, !of_bytes_app, of_bytes_bytes.
Qed.

End keyword_facts.

(** * The classifier *)

Section classifier_facts.
Context `{unicode.CaseRanges}.
Implicit Types (sd : SpamDetector) (text keyword : string).

Lemma IsSpam_link sd text :
  regexp.MatchString (linkPattern sd) text = true ->
  IsSpam sd text = (true, "URL detected", "URL 감지").
Proof. unfold IsSpam. by intros ->. Qed.

Lemma IsSpam_no_link_no_mention sd text :
  regexp.MatchString (linkPattern sd) text = false ->
  regexp.MatchString (mentionPattern sd) text = false ->
  IsSpam sd text = (false, "", "").
Proof. unfold IsSpam. by intros -> ->. Qed.

Lemma IsSpam_mention sd text :
  regexp.MatchString (linkPattern sd) text = false ->
  regexp.MatchString (mentionPattern sd) text = true ->
  IsSpam sd text =
    match find (fun keyword => strings.Contains (strings.ToLower text) keyword)
               (spamKeywords sd) with
    | Some keyword => (true, "spam keyword with mention: " +:+ keyword, "멘션+스팸 키워드")
    | None => (false, "", "")
    end.
Proof. unfold IsSpam. by intros -> ->. Qed.

(** [find] stops at the first element that passes. *)
Lemma find_first {A} (f : A -> bool) (l : list A) :
  (exists x, In x l /\ f x = true) ->
  exists x l1 l2,
    find f l = Some x /\ l = l1 ++ x :: l2 /\ f x = true
    /\ Forall (fun y => f y = false) l1.
Proof.
  induction l as [|a l IH]; intros (x & Hin & Hx); [done|].
  simpl. destruct (f a) eqn:Ha.
  - exists a, [], l. by repeat split.
  - destruct IH as (y & l1 & l2 & Hfind & -> & Hy & Hl1).
    { destruct Hin as [->|Hin]; [congruence | by exists x]. }
    exists y, (a :: l1), l2. repeat split; [done..|]. by constructor.
Qed.

(** [find] returns the first element that passes. *)
Lemma find_app_first {A} (f : A -> bool) (l1 l2 : list A) (x : A) :
  Forall (fun y => f y = false) l1 -> f x = true -> find f (l1 ++ x :: l2) = Some x.
Proof.
  intros Hl1 Hx. induction Hl1 as [|y l1 Hy _ IH]; simpl; [by rewrite Hx|].
  by rewrite Hy.
Qed.

Lemma spamKeywords_ascii keyword :
  In keyword (spamKeywords spamDetector) ->
  keyword <> "" /\ Forall (fun c => c < utf8.RuneSelf) (bytes keyword).
Proof.
  intros Hin.
  repeat (destruct Hin as [<-|Hin]; [split; [done | by repeat constructor]|]).
  destruct Hin.
Qed.

(** A fixed fragment that stands in the text, in whatever case, is a
    link token of the text. *)
Lemma has_link_token_occurrence text frag :
  In frag link_fragments -> occurs_ignoring_case text frag -> has_link_token text.
Proof.
  intros Hfrag (pre & u & post & -> & Hu).
  assert (Forall (fun c => c < utf8.RuneSelf) (bytes frag) /\ bytes frag <> []) as [Hascii Hne].
  { repeat (destruct Hfrag as [<-|Hfrag];
            [split; [by repeat constructor | done]|]). destruct Hfrag. }
  assert (Forall (fun c => 0 <= c < utf8.RuneSelf) (bytes u)) as Hu_ascii.
  { pose proof (bytes_range u) as Hr. rewrite <- Hu in Hascii.
    apply Forall_fmap in Hascii.
    rewrite Forall_forall in Hascii. rewrite Forall_forall in Hr.
    apply Forall_forall. intros c Hc. split; [by apply Hr|].
    apply ascii_lower_inv. by apply Hascii. }
  exists (utf8.runes (bytes pre)), (bytes u), (utf8.runes (bytes post)). split.
  - rewrite !bytes_app. destruct (bytes u) as [|a l] eqn:Hbu.
    { simpl in Hu. congruence. }
    apply Forall_cons_1 in Hu_ascii as Ha. destruct Ha as [Ha _].
    cbn [app]. rewrite runes_app_ascii by apply (proj2 Ha).
    change (a :: l ++ bytes post) with ((a :: l) ++ bytes post).
    by rewrite runes_ascii_app.
  - left. exists frag. split; [done|]. unfold spells. rewrite <- Hu.
    apply map_ext_in. intros c Hc%list_elem_of_In.
    rewrite Forall_forall in Hu_ascii. specialize (Hu_ascii c Hc).
    revert Hu_ascii. unfold lower_fold, ascii_lower, utf8.RuneSelf. ch_compute. zbool.
Qed.

(** An [@] byte with an ASCII letter, digit or underscore byte after it is
    a mention token of the text. *)
Lemma has_mention_token_occurrence (pre post : string) (c : ascii) :
  syntax.IsWordChar (ch c) = true ->
  has_mention_token (pre +:+ String "@" (String c post)).
Proof.
  intros Hc.
  assert (ch c < utf8.RuneSelf) as Hascii.
  { revert Hc. generalize (ch c). intros r.
    unfold syntax.IsWordChar, utf8.RuneSelf. ch_compute. zbool. }
  exists (utf8.runes (bytes pre)), (ch c), (utf8.runes (bytes post)).
  split; [|done].
  rewrite bytes_app. cbn [bytes].
  pose proof (ch_range c) as Hrange.
  rewrite runes_app_ascii by done.
  rewrite (runes_ascii_cons (ch "@")) by done.
  by rewrite (runes_ascii_cons (ch c)) by lia.
Qed.

End classifier_facts.

Section classifier_properties.
Context `{unicode.CaseRanges}.
Implicit Types (text keyword : string).

(** C1, as amended: a text with a link token (one of [http://],
    [https://], [t.me/], [bit.ly], [tinyurl], [telegram.me], [www.], or a
    label, a dot and a listed top-level domain that ends at a word
    boundary), in whatever case and with whatever around it, mention and
    keyword included, is spam with the reason ["URL detected"]. *)
Theorem IsSpam_link_token text :
  has_link_token text ->
  IsSpam spamDetector text = (true, "URL detected", "URL 감지").
Proof.
  intros Hlink. apply IsSpam_link. by apply linkPattern_MatchString.
Qed.

(** C4, as amended: a text with a keyword of the list, but with no
    mention token and no link token, is not spam. *)
Theorem IsSpam_keyword_without_mention text :
  (exists keyword, In keyword (spamKeywords spamDetector) /\ keyword_matches text keyword) ->
  ~ has_mention_token text ->
  ~ has_link_token text ->
  IsSpam spamDetector text = (false, "", "").
Proof.
  intros _ Hmention Hlink. apply IsSpam_no_link_no_mention.
  - destruct (regexp.MatchString _ text) eqn:E; [|done].
    by apply linkPattern_MatchString in E.
  - destruct (regexp.MatchString _ text) eqn:E; [|done].
    by apply mentionPattern_MatchString in E.
Qed.

(** C5: a text with no link token and with a mention token in which a
    keyword of the list stands, in whatever case, is spam; and when none
    of the keywords before it in the list stands in the text, the reason is
    ["spam keyword with mention: "] followed by this keyword: the reason
    names the first keyword, in the order of the list, that the text
    contains.  A keyword stands in the text when its characters are a run
    of the characters of the text put in lower case. *)
Theorem IsSpam_mention_keyword text keyword (earlier later : list string) :
  lower_case_in_range ->
  ~ has_link_token text ->
  has_mention_token text ->
  spamKeywords spamDetector = earlier ++ keyword :: later ->
  contains_ignoring_case text keyword ->
  fst (fst (IsSpam spamDetector text)) = true
  /\ (Forall (fun k => ~ contains_ignoring_case text k) earlier ->
      IsSpam spamDetector text
      = (true, "spam keyword with mention: " +:+ keyword, "멘션+스팸 키워드")).
Proof.
  intros Hlaw Hlink Hmention Hsplit Hk.
  assert (forall k, In k (spamKeywords spamDetector) ->
            strings.Contains (strings.ToLower text) k = true
            <-> contains_ignoring_case text k) as Hiff.
  { intros k Hin. destruct (spamKeywords_ascii k Hin) as [Hne Hascii].
    by apply keyword_matches_iff. }
  assert (In keyword (spamKeywords spamDetector)) as Hin
    by (rewrite Hsplit; apply in_elt).
  apply (Hiff keyword Hin) in Hk.
  rewrite IsSpam_mention.
  - split.
    + destruct (find_first
                  (fun keyword => strings.Contains (strings.ToLower text) keyword)
                  (spamKeywords spamDetector)) as (k & l1 & l2 & -> & _); [|done].
      by exists keyword.
    + intros Hearlier. rewrite Hsplit, find_app_first; [done| |done].
      rewrite Forall_forall in Hearlier. apply Forall_forall. intros k Hkin.
      destruct (strings.Contains (strings.ToLower text) k) eqn:E; [|done].
      destruct (Hearlier k Hkin). apply Hiff; [|done].
      rewrite Hsplit. apply in_or_app. left. by apply list_elem_of_In.
  - destruct (regexp.MatchString _ text) eqn:E; [|done].
    by apply linkPattern_MatchString in E.
  - by apply mentionPattern_MatchString.
Qed.

(** X8: a text is not spam exactly when it has no link token and has no
    mention token or none of the keywords of the list in its lowered
    form. *)
Lemma IsSpam_not_spam_iff text :
  IsSpam spamDetector text = (false, "", "")
  <-> ~ has_link_token text
      /\ (~ has_mention_token text
          \/ Forall (fun keyword => ~ keyword_matches text keyword)
                    (spamKeywords spamDetector)).
Proof.
  rewrite <- linkPattern_MatchString, <- mentionPattern_MatchString.
  unfold IsSpam.
  destruct (regexp.MatchString (linkPattern spamDetector) text) eqn:Elink;
    [split; [done | by intros [[] _]]|].
  change (linkPattern spamDetector) with linkPattern_re in Elink. rewrite Elink.
  destruct (regexp.MatchString (mentionPattern spamDetector) text) eqn:Emention.
  - change (mentionPattern spamDetector) with mentionPattern_re in Emention.
    rewrite Emention.
    destruct (find _ _) as [keyword|] eqn:Hfind.
    + split; [done|]. intros [_ [[]|Hall]]; [done|].
      apply find_some in Hfind as [Hin Hk].
      rewrite Forall_forall in Hall. destruct (Hall keyword); [|done].
      by apply list_elem_of_In.
    + split; [|done]. intros _. split; [done|]. right.
      apply Forall_forall. intros keyword Hin%list_elem_of_In.
      unfold keyword_matches. by rewrite (find_none _ _ Hfind keyword Hin).
  - change (mentionPattern spamDetector) with mentionPattern_re in Emention.
    rewrite Emention. split; [|done]. intros _. split; [done|]. by left.
Qed.

End classifier_properties.

(** The three texts of the specification's scenarios A, B and C. *)
Example scenario_A :
  @IsSpam example_CaseRanges spamDetector "Check out http://example.com now!"
  = (true, "URL detected", "URL 감지").
Proof. vm_compute. reflexivity. Qed.

Example scenario_B :
  @IsSpam example_CaseRanges spamDetector "Hey @someone, guaranteed profit investing with us!"
  = (true, "spam keyword with mention: guaranteed profit", "멘션+스팸 키워드").
Proof. vm_compute. reflexivity. Qed.

Example scenario_C :
  @IsSpam example_CaseRanges spamDetector "just saying hi to everyone" = (false, "", "").
Proof. vm_compute. reflexivity. Qed.

(** C1 as the specification words it fails: [cat.memes] has the
    fragment [t.me] in it and is not spam, the pattern asking for [t.me/]
    or for a word boundary after [.me]. *)
Lemma IsSpam_t_me_fragment_not_flagged :
  (exists frag, In frag specified_link_fragments /\ occurs_ignoring_case "cat.memes" frag)
  /\ @IsSpam example_CaseRanges spamDetector "cat.memes" = (false, "", "").
Proof.
  split.
  - exists "t.me". split; [simpl; tauto|].
    exists "ca", "t.me", "mes". split; reflexivity.
  - vm_compute. reflexivity.
Qed.

Lemma IsSpam_link_token_witness :
  has_link_token "Check out HTTP://example.com now, @all: free money!"
  /\ @IsSpam example_CaseRanges spamDetector
       "Check out HTTP://example.com now, @all: free money!"
     = (true, "URL detected", "URL 감지").
Proof.
  assert (has_link_token "Check out HTTP://example.com now, @all: free money!") as Hlink.
  { exists (bytes "Check out "), (bytes "HTTP://"), (bytes "example.com now, @all: free money!").
    split; [vm_compute; reflexivity|].
    left. exists "http://". split; [simpl; tauto | reflexivity]. }
  split; [exact Hlink|].
  exact (@IsSpam_link_token example_CaseRanges _ Hlink).
Defined.

(** C4 as stated fails: a keyword, no mention, and yet spam, because of
    the link. *)
Lemma IsSpam_keyword_with_link_is_spam :
  (exists keyword,
     In keyword (spamKeywords spamDetector)
     /\ @keyword_matches example_CaseRanges "free money at bit.ly/x1" keyword)
  /\ ~ has_mention_token "free money at bit.ly/x1"
  /\ @IsSpam example_CaseRanges spamDetector "free money at bit.ly/x1"
     = (true, "URL detected", "URL 감지").
Proof.
  split; [|split].
  - exists "free money". split; [simpl; tauto | vm_compute; reflexivity].
  - intros Hm%mentionPattern_MatchString. vm_compute in Hm. discriminate.
  - vm_compute. reflexivity.
Qed.

Lemma IsSpam_keyword_without_mention_witness :
  @IsSpam example_CaseRanges spamDetector "the casino scene was fun" = (false, "", "").
Proof.
  apply (@IsSpam_keyword_without_mention example_CaseRanges "the casino scene was fun").
  - exists "casino". split; [simpl; tauto | vm_compute; reflexivity].
  - intros Hm%mentionPattern_MatchString. vm_compute in Hm. discriminate.
  - intros Hl%linkPattern_MatchString. vm_compute in Hl. discriminate.
Defined.

Lemma IsSpam_mention_keyword_witness :
  @IsSpam example_CaseRanges spamDetector "Hey @someone, Guaranteed PROFIT and free money!"
  = (true, "spam keyword with mention: " +:+ "guaranteed profit", "멘션+스팸 키워드").
Proof.
  assert (@lower_case_in_range example_CaseRanges) as Hlaw.
  { intros r Hr. unfold unicode.To_LowerCase, example_CaseRanges.
    destruct (r =? 8490); [done|]. destruct (r =? 304); [done | lia]. }
  destruct (@IsSpam_mention_keyword example_CaseRanges
              "Hey @someone, Guaranteed PROFIT and free money!" "guaranteed profit"
              ["earn money"; "make money fast"; "investment opportunity"; "double your"]
              ["free money"; "click here"; "join now"; "limited time offer";
               "act now"; "don't miss"; "exclusive deal";
               "work from home"; "be your own boss"; "financial freedom";
               "forex signal"; "trading signal"; "casino"; "betting"]
              Hlaw) as [_ Hreason].
  - intros Hl%linkPattern_MatchString. vm_compute in Hl. discriminate.
  - apply mentionPattern_MatchString. vm_compute. reflexivity.
  - reflexivity.
  - exists (bytes "hey @someone, "), (bytes " and free money!"). vm_compute. reflexivity.
  - apply Hreason.
    repeat constructor; intros Hc;
      match type of Hc with
      | contains_ignoring_case ?text ?k =>
        apply (proj2 (@keyword_matches_iff example_CaseRanges text k Hlaw
                        ltac:(discriminate) ltac:(by repeat constructor))) in Hc
      end;
      vm_compute in Hc; discriminate.
Defined.

(** * More on the ledger *)

Section ledger_more.
Implicit Types (sd : SpamDetector) (w : world) (calls : list (Z * Z)) (key : Z * Z).

Lemma count_of_upsert_ne (chatID userID : Z) (t : gmap (Z * Z) Z) key :
  key ≠ (chatID, userID) -> count_of (upsert chatID userID t) key = count_of t key.
Proof. intros Hne. unfold count_of. by rewrite upsert_lookup_ne. Qed.

(** One call moves the count of its key by 0 or 1 and no other count. *)
Lemma RecordSpam_count_step sd (chatID userID : Z) w key :
  count_of (spam_records (snd (RecordSpam sd chatID userID w))) key
    = count_of (spam_records w) key
  \/ key = (chatID, userID)
     /\ count_of (spam_records (snd (RecordSpam sd chatID userID w))) key
        = count_of (spam_records w) key + 1.
Proof.
  destruct (RecordSpam_rows sd chatID userID w) as [-> | ->]; [by left|].
  destruct (decide (key = (chatID, userID))) as [->|Hne].
  - rewrite upsert_count_of. unfold add_one. destruct (is_INTEGER _); auto.
  - left. by apply count_of_upsert_ne.
Qed.

Lemma RecordSpam_each_count_lower sd calls w key :
  count_of (spam_records w) key
  <= count_of (spam_records (snd (RecordSpam_each sd calls w))) key.
Proof.
  revert w. induction calls as [|[chatID userID] calls IH]; intros w; [done|].
  rewrite RecordSpam_each_cons. cbn [snd].
  specialize (IH (snd (RecordSpam sd chatID userID w))).
  destruct (RecordSpam_count_step sd chatID userID w key) as [E|[_ E]]; lia.
Qed.

(** A call fails, with its line in the log, or it has written its row and
    returns what the row holds. *)
Lemma RecordSpam_returns_stored_count_aux sd (chatID userID : Z) w :
  (fst (RecordSpam sd chatID userID w) = (0, false)
   /\ exists line,
        log_output (snd (RecordSpam sd chatID userID w)) = log_output w ++ [line])
  \/ (log_output (snd (RecordSpam sd chatID userID w)) = log_output w
      /\ spam_records (snd (RecordSpam sd chatID userID w)) !! (chatID, userID)
         = Some (fst (fst (RecordSpam sd chatID userID w)))
      /\ fst (fst (RecordSpam sd chatID userID w))
         = count_of (spam_records w) (chatID, userID) + 1
      /\ snd (fst (RecordSpam sd chatID userID w))
         = (fst (fst (RecordSpam sd chatID userID w)) >=? banThreshold sd)).
Proof.
  destruct (RecordSpam_run sd chatID userID w) as [e es He|e es He|Hh Hc|count Hh Hc ->];
    simpl.
  - left. split; [done | by eexists].
  - left. split; [done | by eexists].
  - left. split; [done | by eexists].
  - right. by rewrite upsert_lookup, add_one_incrementable.
Qed.

End ledger_more.

(** X1: a call of [RecordSpam] either fails, and then it returns
    [(0, false)] and writes exactly one line to the log, or it succeeds, and
    then it writes no line and returns the count that the table now holds
    for the key, one more than before, with [shouldBan] computed from
    it. *)
Theorem RecordSpam_returns_stored_count (sd : SpamDetector) (chatID userID : Z) (w : world) :
  (fst (RecordSpam sd chatID userID w) = (0, false)
   /\ exists line,
        log_output (snd (RecordSpam sd chatID userID w)) = log_output w ++ [line])
  \/ (log_output (snd (RecordSpam sd chatID userID w)) = log_output w
      /\ spam_records (snd (RecordSpam sd chatID userID w)) !! (chatID, userID)
         = Some (fst (fst (RecordSpam sd chatID userID w)))
      /\ fst (fst (RecordSpam sd chatID userID w))
         = count_of (spam_records w) (chatID, userID) + 1
      /\ snd (fst (RecordSpam sd chatID userID w))
         = (fst (fst (RecordSpam sd chatID userID w)) >=? banThreshold sd)).
Proof.
  destruct (RecordSpam_run sd chatID userID w) as [e es He|e es He|Hh Hc|count Hh Hc ->];
    simpl.
  - left. split; [done | by eexists].
  - left. split; [done | by eexists].
  - left. split; [done | by eexists].
  - right. by rewrite upsert_lookup, add_one_incrementable.
Qed.

(** X2: whatever the calls and whichever of them fail, the count of a key
    never goes down and goes up by at most one for each call that names the
    key. *)
Theorem RecordSpam_each_count_bounds (sd : SpamDetector) (calls : list (Z * Z))
    (w : world) (key : Z * Z) :
  count_of (spam_records w) key
  <= count_of (spam_records (snd (RecordSpam_each sd calls w))) key
  <= count_of (spam_records w) key
     + Z.of_nat (count_occ (fun x y => decide (x = y)) calls key).
Proof.
  split; [apply RecordSpam_each_count_lower|].
  revert w. induction calls as [|[chatID userID] calls IH]; intros w; [simpl; lia|].
  rewrite RecordSpam_each_cons. cbn [snd].
  specialize (IH (snd (RecordSpam sd chatID userID w))).
  cbn [count_occ].
  destruct (RecordSpam_count_step sd chatID userID w key) as [E|[-> E]].
  - destruct (decide ((chatID, userID) = key)); lia.
  - rewrite decide_True by done. lia.
Qed.

(** X3: when no call into the driver fails, the count of a key after the
    calls is its count before plus the number of calls that name it,
    whatever the other keys among the calls, as long as every increment
    starts from an INTEGER: the count before is one and, with the calls
    added, it does not go beyond the REAL 2^63 that the increment of
    [MaxInt64] leaves. *)
Theorem RecordSpam_each_counts_calls (sd : SpamDetector) (calls : list (Z * Z))
    (w : world) (key : Z * Z) :
  driver_healthy (2 * length calls) w ->
  MinInt64 <= count_of (spam_records w) key ->
  count_of (spam_records w) key
    + Z.of_nat (count_occ (fun x y => decide (x = y)) calls key) <= MaxInt64 + 1 ->
  count_of (spam_records (snd (RecordSpam_each sd calls w))) key
  = count_of (spam_records w) key
    + Z.of_nat (count_occ (fun x y => decide (x = y)) calls key).
Proof.
  revert w. induction calls as [|[chatID userID] calls IH]; intros w Hh Hmin Hmax;
    [simpl; lia|].
  cbn [length] in Hh.
  replace (2 * S (length calls))%nat with (2 + 2 * length calls)%nat in Hh by lia.
  apply driver_healthy_split in Hh as [H2 Hrest].
  rewrite RecordSpam_each_cons. cbn [snd].
  destruct (RecordSpam_healthy_world sd chatID userID w H2) as [Hrows Herrs].
  destruct (RecordSpam sd chatID userID w) as [r [t l errs]].
  cbn [snd spam_records driver_errors] in *. subst t errs.
  cbn [count_occ] in Hmax |- *.
  destruct (decide ((chatID, userID) = key)) as [<-|Hne].
  - assert (add_one (count_of (spam_records w) (chatID, userID))
            = count_of (spam_records w) (chatID, userID) + 1) as Hone.
    { apply add_one_INTEGER, is_INTEGER_spec. lia. }
    rewrite IH; cbn [spam_records]; rewrite ?upsert_count_of, ?Hone;
      [lia|apply Hrest|lia..].
  - rewrite IH; cbn [spam_records]; rewrite ?count_of_upsert_ne by done;
      [lia|apply Hrest|lia..].
Qed.

Lemma RecordSpam_each_counts_calls_witness :
  count_of
    (spam_records
       (snd (RecordSpam_each spamDetector [(1, 7); (2, 7); (1, 7); (1, 8)]
               (World {[ (1, 7) := 5 ]} [] []))))
    (1, 7)
  = count_of (spam_records (World {[ (1, 7) := 5 ]} [] [])) (1, 7)
    + Z.of_nat (count_occ (fun x y => decide (x = y)) [(1, 7); (2, 7); (1, 7); (1, 8)] (1, 7)).
Proof.
  apply (RecordSpam_each_counts_calls spamDetector [(1, 7); (2, 7); (1, 7); (1, 8)]
           (World {[ (1, 7) := 5 ]} [] []) (1, 7)).
  - constructor.
  - vm_compute. discriminate.
  - vm_compute. discriminate.
Defined.

(** X4: once a call has returned [shouldBan = true] for a key, every later
    call for that key, whatever calls were made in between and whatever the
    driver does, either fails, returning [(0, false)] with its line in the
    log, or returns [true] again, with a larger count: short of a failure
    nothing brings a key back under the threshold. *)
Theorem RecordSpam_ban_is_sticky (sd : SpamDetector) (chatID userID : Z)
    (calls : list (Z * Z)) (w : world) :
  snd (fst (RecordSpam sd chatID userID w)) = true ->
  let first := RecordSpam sd chatID userID w in
  let before := snd (RecordSpam_each sd calls (snd first)) in
  let later := RecordSpam sd chatID userID before in
  (fst later = (0, false)
   /\ exists line, log_output (snd later) = log_output before ++ [line])
  \/ (log_output (snd later) = log_output before
      /\ snd (fst later) = true
      /\ fst (fst first) < fst (fst later)).
Proof.
  intros Hban. cbn zeta.
  pose proof (RecordSpam_each_count_lower sd calls
                (snd (RecordSpam sd chatID userID w)) (chatID, userID)) as Hlow.
  destruct (RecordSpam_returns_stored_count_aux sd chatID userID w)
    as [[E _]|(_ & Hrow & Hc & Hb)].
  { rewrite E in Hban. done. }
  rewrite Hb in Hban. apply Z.geb_le in Hban.
  unfold count_of in Hlow at 1. rewrite Hrow in Hlow. cbn [default from_option id] in Hlow.
  destruct (RecordSpam_returns_stored_count_aux sd chatID userID
              (snd (RecordSpam_each sd calls (snd (RecordSpam sd chatID userID w)))))
    as [Hfail|(Hlog & _ & Hc' & Hb')]; [by left|].
  right. split; [done|].
  rewrite Hb'. split; [apply Z.geb_le|]; lia.
Qed.

Lemma RecordSpam_ban_is_sticky_witness :
  let first := RecordSpam spamDetector 1 7 (World {[ (1, 7) := 2 ]} [] []) in
  let before := snd (RecordSpam_each spamDetector [(1, 8)] (snd first)) in
  let later := RecordSpam spamDetector 1 7 before in
  (fst later = (0, false)
   /\ exists line, log_output (snd later) = log_output before ++ [line])
  \/ (log_output (snd later) = log_output before
      /\ snd (fst later) = true
      /\ fst (fst first) < fst (fst later)).
Proof.
  apply (RecordSpam_ban_is_sticky spamDetector 1 7 [(1, 8)] (World {[ (1, 7) := 2 ]} [] [])).
  reflexivity.
Defined.

(** X5: [NewSpamDetector] never touches a row or the log.  When
    [sql.Open] fails it returns the error ["failed to open database: ..."]
    without running the table statement; when the table statement fails it
    returns ["failed to create table: ..."]; otherwise it returns the
    detector with the two patterns, the keyword list and the threshold
    3. *)
Theorem NewSpamDetector_outcome (w : world) :
  spam_records (snd (NewSpamDetector w)) = spam_records w
  /\ log_output (snd (NewSpamDetector w)) = log_output w
  /\ match driver_errors w with
     | Some e :: es =>
       fst (NewSpamDetector w) = Err ("failed to open database: " +:+ e)
       /\ driver_errors (snd (NewSpamDetector w)) = es
     | None :: Some e :: es =>
       fst (NewSpamDetector w) = Err ("failed to create table: " +:+ e)
       /\ driver_errors (snd (NewSpamDetector w)) = es
     | _ => fst (NewSpamDetector w) = Ok spamDetector
     end.
Proof.
  destruct w as [t l errs].
  unfold NewSpamDetector, bind, sql_Open, Exec_create_table, driver_call, ret. simpl.
  destruct errs as [|[e|] [|[e'|] errs]]; simpl; auto.
Qed.

(** X6: counts outlive a restart: after [NewSpamDetector] has succeeded on
    a table that already has rows, the next successful [RecordSpam] for a
    key whose count is an INTEGER below [MaxInt64] returns the stored count
    of the key plus one (1 for a key without a row). *)
Theorem NewSpamDetector_keeps_counts (chatID userID : Z) (w : world) :
  driver_healthy 4 w ->
  incrementable (count_of (spam_records w) (chatID, userID)) ->
  exists detector,
    fst (NewSpamDetector w) = Ok detector
    /\ fst (RecordSpam detector chatID userID (snd (NewSpamDetector w)))
       = (count_of (spam_records w) (chatID, userID) + 1,
          count_of (spam_records w) (chatID, userID) + 1 >=? 3).
Proof.
  intros Hh Hinc. change 4%nat with (2 + 2)%nat in Hh.
  apply driver_healthy_split in Hh as [H2 Hrest].
  exists spamDetector.
  assert (NewSpamDetector w
          = (Ok spamDetector,
             World (spam_records w) (log_output w) (drop 2 (driver_errors w)))) as ->.
  { destruct w as [t l errs]. unfold driver_healthy in H2. simpl in H2.
    unfold NewSpamDetector, bind, sql_Open, Exec_create_table, driver_call, ret. simpl.
    destruct errs as [|[e|] errs]; [done| |].
    { simpl in H2. by inversion H2. }
    destruct errs as [|[e|] errs]; [done| |done].
    simpl in H2. inversion H2 as [|? ? _ H2']. by inversion H2'. }
  split; [done|]. cbn [snd]. by rewrite RecordSpam_healthy.
Qed.

Lemma NewSpamDetector_keeps_counts_witness :
  exists detector,
    fst (NewSpamDetector (World {[ (-1001, 42) := 2 ]} [] [])) = Ok detector
    /\ fst (RecordSpam detector (-1001) 42
              (snd (NewSpamDetector (World {[ (-1001, 42) := 2 ]} [] []))))
       = (count_of (spam_records (World {[ (-1001, 42) := 2 ]} [] [])) (-1001, 42) + 1,
          count_of (spam_records (World {[ (-1001, 42) := 2 ]} [] [])) (-1001, 42) + 1 >=? 3).
Proof.
  apply (NewSpamDetector_keeps_counts (-1001) 42 (World {[ (-1001, 42) := 2 ]} [] [])).
  - constructor.
  - split; vm_compute; [discriminate | reflexivity].
Defined.



(** * More on the classifier *)

Section classifier_more.
Context `{unicode.CaseRanges}.
Implicit Types (text keyword frag : string) (w post : list Z).

Lemma lower_fold_ascii_lower (r : Z) : lower_fold (ascii_lower r) = lower_fold r.
Proof. unfold lower_fold, ascii_lower. ch_compute. zbool. Qed.

Lemma IsWordChar_ascii_lower (r : Z) :
  syntax.IsWordChar (ascii_lower r) = syntax.IsWordChar r.
Proof. unfold syntax.IsWordChar, ascii_lower. ch_compute. zbool. Qed.

Lemma ascii_lower_dot (r : Z) : ascii_lower r = ch "." -> r = ch ".".
Proof. unfold ascii_lower. ch_compute. zbool. Qed.

Lemma ascii_lower_at (r : Z) : ascii_lower r = ch "@" -> r = ch "@".
Proof. unfold ascii_lower. ch_compute. zbool. Qed.

Lemma spells_ascii_lower w (s : string) : spells (map ascii_lower w) s <-> spells w s.
Proof.
  unfold spells. rewrite map_map.
  by rewrite (map_ext _ lower_fold lower_fold_ascii_lower).
Qed.

Lemma hd_IsWordChar_ascii_lower post :
  syntax.IsWordChar (hd regexp.endOfText (map ascii_lower post))
  = syntax.IsWordChar (hd regexp.endOfText post).
Proof. destruct post; [done|]. apply IsWordChar_ascii_lower. Qed.

(** Link tokens do not depend on the case of the ASCII letters. *)
Lemma link_token_ascii_lower w post :
  link_token (map ascii_lower w) (map ascii_lower post) <-> link_token w post.
Proof.
  unfold link_token. split.
  - intros [(frag & Hfrag & Hw)|(c' & label' & dom' & tld & Hw & Hc & Hlabel & Htld & Hdom & Hpost)].
    + left. exists frag. split; [done|]. by apply (proj1 (spells_ascii_lower _ _)).
    + right.
      apply map_eq_cons in Hw as (c & w1 & -> & <- & Hw1).
      apply map_eq_app in Hw1 as (label & w2 & -> & <- & Hw2).
      apply map_eq_cons in Hw2 as (d & dom & -> & Hd%ascii_lower_dot & <-).
      subst d. exists c, label, dom, tld.
      rewrite lower_fold_ascii_lower in Hc.
      rewrite hd_IsWordChar_ascii_lower in Hpost.
      apply (proj1 (spells_ascii_lower _ _)) in Hdom.
      repeat split; try done.
      apply Forall_fmap in Hlabel. eapply Forall_impl; [apply Hlabel|].
      intros r Hr. simpl in Hr. by rewrite lower_fold_ascii_lower in Hr.
  - intros [(frag & Hfrag & Hw)|(c & label & dom & tld & -> & Hc & Hlabel & Htld & Hdom & Hpost)].
    + left. exists frag. split; [done|]. by apply (proj2 (spells_ascii_lower _ _)).
    + right. exists (ascii_lower c), (map ascii_lower label), (map ascii_lower dom), tld.
      rewrite lower_fold_ascii_lower, hd_IsWordChar_ascii_lower.
      repeat split; try done.
      * cbn [map]. by rewrite map_app.
      * apply Forall_fmap. eapply Forall_impl; [apply Hlabel|].
        intros r Hr. simpl. by rewrite lower_fold_ascii_lower.
      * by apply (proj2 (spells_ascii_lower _ _)).
Qed.

Lemma has_link_token_ascii_lower text1 text2 :
  utf8.runes (bytes text2) = map ascii_lower (utf8.runes (bytes text1)) ->
  has_link_token text2 <-> has_link_token text1.
Proof.
  intros Hrunes. unfold has_link_token. rewrite Hrunes. split.
  - intros (pre' & w' & post' & Hs & Htok).
    apply map_eq_app in Hs as (pre & rest & Hs & <- & Hrest).
    apply map_eq_app in Hrest as (w & post & -> & <- & <-).
    exists pre, w, post. split; [done|]. by apply (proj1 (link_token_ascii_lower _ _)).
  - intros (pre & w & post & -> & Htok).
    exists (map ascii_lower pre), (map ascii_lower w), (map ascii_lower post).
    split; [by rewrite !map_app|]. by apply (proj2 (link_token_ascii_lower _ _)).
Qed.

Lemma has_mention_token_ascii_lower text1 text2 :
  utf8.runes (bytes text2) = map ascii_lower (utf8.runes (bytes text1)) ->
  has_mention_token text2 <-> has_mention_token text1.
Proof.
  intros Hrunes. unfold has_mention_token. rewrite Hrunes. split.
  - intros (pre' & c' & post' & Hs & Hc).
    apply map_eq_app in Hs as (pre & rest & Hs & <- & Hrest).
    apply map_eq_cons in Hrest as (a & rest' & -> & Ha%ascii_lower_at & Hrest).
    apply map_eq_cons in Hrest as (c & post & -> & <- & <-).
    subst a. rewrite IsWordChar_ascii_lower in Hc.
    by exists pre, c, post.
  - intros (pre & c & post & -> & Hc).
    exists (map ascii_lower pre), (ascii_lower c), (map ascii_lower post).
    split; [by rewrite map_app | by rewrite IsWordChar_ascii_lower].
Qed.

Lemma bytes_of_bytes (l : list Z) :
  Forall (fun b => 0 <= b < 256) l -> bytes (of_bytes l) = l.
Proof.
  induction 1 as [|b l Hb _ IH]; [done|].
  simpl. rewrite IH. f_equal.
  unfold ch, byte. rewrite Z.mod_small by done.
  rewrite N_ascii_embedding; lia.
Qed.

(** The lower-case form of a text of ASCII bytes, and what [IsSpam] sees
    of it. *)
Lemma IsSpam_lowered text :
  strings.isASCII text = true ->
  IsSpam spamDetector (of_bytes (map ascii_lower (bytes text))) = IsSpam spamDetector text.
Proof.
  intros Hascii. pose proof (isASCII_bytes text Hascii) as Hb.
  set (lowered := of_bytes (map ascii_lower (bytes text))).
  assert (Forall (fun c => 0 <= c < utf8.RuneSelf) (map ascii_lower (bytes text))) as Hlb.
  { apply Forall_fmap. eapply Forall_impl; [apply Hb|]. intros c Hc. simpl.
    revert Hc. unfold ascii_lower, utf8.RuneSelf. ch_compute. zbool. }
  assert (bytes lowered = map ascii_lower (bytes text)) as Hbytes.
  { apply bytes_of_bytes. eapply Forall_impl; [apply Hlb|].
    intros c. unfold utf8.RuneSelf. simpl. lia. }
  assert (strings.isASCII lowered = true) as Hlascii.
  { unfold strings.isASCII. rewrite Hbytes. apply forallb_forall.
    intros c Hc%list_elem_of_In. rewrite Forall_forall in Hlb.
    apply Z.ltb_lt. by apply Hlb. }
  assert (utf8.runes (bytes lowered) = map ascii_lower (utf8.runes (bytes text))) as Hrunes.
  { rewrite Hbytes, !runes_ascii by done. done. }
  assert (strings.ToLower lowered = strings.ToLower text) as Hlower.
  { rewrite !ToLower_isASCII by done. rewrite Hbytes, map_map. f_equal.
    apply map_ext. intros c. unfold ascii_lower. ch_compute. zbool. }
  unfold IsSpam. rewrite Hlower.
  assert (regexp.MatchString (linkPattern spamDetector) lowered
          = regexp.MatchString (linkPattern spamDetector) text) as ->.
  { apply eq_true_iff_eq.
    rewrite !(linkPattern_MatchString _). by apply has_link_token_ascii_lower. }
  assert (regexp.MatchString (mentionPattern spamDetector) lowered
          = regexp.MatchString (mentionPattern spamDetector) text) as ->.
  { apply eq_true_iff_eq.
    rewrite !(mentionPattern_MatchString _). by apply has_mention_token_ascii_lower. }
  done.
Qed.

(** X7: the reason is ["URL detected"] exactly for the texts that have a
    link token: no other path of [IsSpam] gives this reason. *)
Theorem IsSpam_URL_detected_iff text :
  snd (fst (IsSpam spamDetector text)) = "URL detected" <-> has_link_token text.
Proof.
  rewrite <- linkPattern_MatchString. unfold IsSpam.
  change (linkPattern spamDetector) with linkPattern_re.
  destruct (regexp.MatchString linkPattern_re text); [done|].
  split; [|done].
  destruct (regexp.MatchString (mentionPattern spamDetector) text); [|done].
  destruct (find _ _); [|done]. simpl. discriminate.
Qed.

(** X9: a fixed fragment ([http://], [https://], [t.me/], [bit.ly],
    [tinyurl], [telegram.me], [www.]) that stands anywhere among the bytes
    of the text, in any mix of upper and lower case, makes the text spam
    with the reason ["URL detected"], whatever the other bytes are. *)
Theorem IsSpam_fragment_any_case text frag :
  In frag link_fragments ->
  occurs_ignoring_case text frag ->
  IsSpam spamDetector text = (true, "URL detected", "URL 감지").
Proof.
  intros Hfrag Hocc. apply IsSpam_link, linkPattern_MatchString.
  by apply (has_link_token_occurrence text frag).
Qed.

(** X10: keywords are matched as substrings and without regard to ASCII
    case: a text with no link token and with a mention token is spam as soon
    as a keyword of the list stands anywhere among its bytes, in any mix of
    upper and lower case, also inside a longer word. *)
Theorem IsSpam_keyword_any_case text keyword :
  ~ has_link_token text ->
  has_mention_token text ->
  In keyword (spamKeywords spamDetector) ->
  occurs_ignoring_case text keyword ->
  fst (fst (IsSpam spamDetector text)) = true.
Proof.
  intros Hlink Hmention Hin Hocc.
  destruct (spamKeywords_ascii keyword Hin) as [Hne Hascii].
  pose proof (keyword_matches_occurrence text keyword Hne Hascii Hocc) as Hk.
  rewrite IsSpam_mention.
  - destruct (find_first
                (fun keyword => strings.Contains (strings.ToLower text) keyword)
                (spamKeywords spamDetector)) as (k & l1 & l2 & -> & _); [|done].
    by exists keyword.
  - destruct (regexp.MatchString _ text) eqn:E; [|done].
    by apply linkPattern_MatchString in E.
  - by apply mentionPattern_MatchString.
Qed.

(** X11: on texts of ASCII bytes the whole verdict ignores case: two such
    texts that differ only in the case of their letters get the same
    triple. *)
Theorem IsSpam_ignores_ascii_case text1 text2 :
  strings.isASCII text1 = true ->
  strings.isASCII text2 = true ->
  map ascii_lower (bytes text1) = map ascii_lower (bytes text2) ->
  IsSpam spamDetector text1 = IsSpam spamDetector text2.
Proof.
  intros H1 H2 Heq.
  rewrite <- (IsSpam_lowered text1), <- (IsSpam_lowered text2) by done.
  by rewrite Heq.
Qed.

End classifier_more.

Lemma IsSpam_fragment_any_case_witness :
  @IsSpam example_CaseRanges spamDetector "see WwW.example" = (true, "URL detected", "URL 감지").
Proof.
  apply (@IsSpam_fragment_any_case example_CaseRanges "see WwW.example" "www.").
  - simpl. tauto.
  - exists "see ", "WwW.", "example". split; reflexivity.
Defined.

Lemma IsSpam_keyword_any_case_witness :
  fst (fst (@IsSpam example_CaseRanges spamDetector "@bob try the megaCASINOs")) = true.
Proof.
  apply (@IsSpam_keyword_any_case example_CaseRanges "@bob try the megaCASINOs" "casino").
  - intros Hl%linkPattern_MatchString. vm_compute in Hl. discriminate.
  - exists [], (ch "b"), (bytes "ob try the megaCASINOs"). split; vm_compute; reflexivity.
  - simpl. tauto.
  - exists "@bob try the mega", "CASINO", "s". split; reflexivity.
Defined.

Lemma IsSpam_ignores_ascii_case_witness :
  @IsSpam example_CaseRanges spamDetector "Join NOW @All"
  = @IsSpam example_CaseRanges spamDetector "join now @all".
Proof.
  apply (@IsSpam_ignores_ascii_case example_CaseRanges "Join NOW @All" "join now @all");
    reflexivity.
Defined.

(** * The message loop *)

Section main_loop_facts.
Context `{unicode.CaseRanges}.
Implicit Types (detector : SpamDetector) (update : Update) (message : Message)
  (from : User) (s : process).

Ltac body_unfold :=
  unfold main_loop_body, bot_bind, bot_ret, bot_Send, bot_bind, bot_ret, lift, deref,
    bot_GetChatMember, bot_Request, log_Printf.

Ltac proc_simpl :=
  cbn beta iota zeta
      delta [ledger chat_member api_errors requests spam_records log_output driver_errors
             fst snd panics final effects].

(** Up to the line "Received message". *)
Ltac body_start Hm Ht Hf :=
  apply String.eqb_neq in Ht; unfold effective_text in Ht;
  body_unfold; rewrite Hm, Ht, Hf; proc_simpl.

(** Past the administrator check, for a sender who is not exempt. *)
Ltac body_not_exempt He :=
  unfold exempt in He;
  match goal with
  | |- context [negb (String.eqb ?t "private")] =>
    destruct (negb (String.eqb t "private")) eqn:?Hp;
    [ simpl in He; proc_simpl;
      match goal with
      | |- context [chat_member ?s ?c ?u] =>
        destruct (chat_member s c u) as [?status|?e] eqn:?Hcm;
        proc_simpl; [rewrite He; proc_simpl|]
      end
    | proc_simpl ]
  end.

(** The result and the rows of a call do not depend on the log. *)
Lemma RecordSpam_log_irrelevant detector (chatID userID : Z) (t : gmap (Z * Z) Z)
    (l l' : list string) (errs : list (option error)) :
  fst (RecordSpam detector chatID userID (World t l errs))
    = fst (RecordSpam detector chatID userID (World t l' errs))
  /\ spam_records (snd (RecordSpam detector chatID userID (World t l errs)))
     = spam_records (snd (RecordSpam detector chatID userID (World t l' errs)))
  /\ driver_errors (snd (RecordSpam detector chatID userID (World t l errs)))
     = driver_errors (snd (RecordSpam detector chatID userID (World t l' errs))).
Proof.
  unfold RecordSpam, bind, Exec_upsert, QueryRow_Scan_count, bind, driver_call, ret,
    log_Printf. simpl.
  destruct errs as [|[e|] [|[e'|] errs]]; simpl; try done;
    by destruct (upsert chatID userID t !! (chatID, userID)) as [count|];
      [destruct (is_INTEGER count)|].
Qed.

(** A spam message of a sender who is not exempt, in a group, whose
    deletion Telegram carries out. *)
Lemma body_spam_deleted detector update message from s :
  Update_Message update = Some message ->
  effective_text message <> "" ->
  Message_From message = Some from ->
  exempt s message from = false ->
  Message_IsCommand message = false ->
  in_group message = true ->
  fst (fst (IsSpam detector (effective_text message))) = true ->
  hd None (api_errors s) = None ->
  let chatID := Chat_ID (Message_Chat message) in
  let reasonKR := snd (IsSpam detector (effective_text message)) in
  let r := RecordSpam detector chatID (User_ID from) (ledger s) in
  let o := main_loop_body detector update s in
  panics o = false
  /\ chat_member (final o) = chat_member s
  /\ spam_records (ledger (final o)) = spam_records (snd r)
  /\ driver_errors (ledger (final o)) = driver_errors (snd r)
  /\ (snd (fst r) = false ->
      requests (final o)
        = requests s
          ++ [ DeleteMessageConfig chatID (Message_MessageID message);
               MessageConfig chatID
                 (warning_notice (User_UserName from) reasonKR (fst (fst r))) ]
      /\ api_errors (final o) = tl (tl (api_errors s)))
  /\ (snd (fst r) = true ->
      match hd None (tl (api_errors s)) with
      | Some _ =>
        requests (final o)
          = requests s
            ++ [ DeleteMessageConfig chatID (Message_MessageID message);
                 BanChatMemberConfig chatID (User_ID from) ]
        /\ api_errors (final o) = tl (tl (api_errors s))
      | None =>
        requests (final o)
          = requests s
            ++ [ DeleteMessageConfig chatID (Message_MessageID message);
                 BanChatMemberConfig chatID (User_ID from);
                 MessageConfig chatID
                   (ban_notice (User_UserName from) (fst (fst r)) reasonKR) ]
        /\ api_errors (final o) = tl (tl (tl (api_errors s)))
      end).
Proof.
  intros Hm Ht Hf He Hc Hg Hspam Hdel chatID reasonKR r o. subst chatID reasonKR r o.
  unfold in_group in Hg. unfold effective_text in Hspam |- *.
  body_start Hm Ht Hf. body_not_exempt He; rewrite Hc, Hg;
    destruct s as [[t l derrs] cm aerrs reqs]; proc_simpl; cbn [api_errors] in Hdel;
    destruct (IsSpam detector _) as [[isSpam reason] reasonKR];
    cbn [fst snd] in Hspam |- *; subst isSpam; proc_simpl;
    (destruct aerrs as [|[e'|] aerrs]; [|discriminate Hdel|]); proc_simpl;
    match goal with
    | |- context [RecordSpam detector ?c ?u (World t ?l' derrs)] =>
      destruct (RecordSpam_log_irrelevant detector c u t l' l derrs) as (E1 & E2 & E3);
      destruct (RecordSpam detector c u (World t l' derrs)) as [[count shouldBan] w'];
      destruct (RecordSpam detector c u (World t l derrs)) as [[count0 shouldBan0] w0];
      cbn [fst snd] in E1, E2, E3 |- *; injection E1 as <- <-
    end;
    destruct shouldBan; proc_simpl;
    repeat (match goal with
            | |- context [match ?es with [] => _ | _ :: _ => _ end] =>
              is_var es; destruct es as [|[?|] ?]
            end; proc_simpl);
    repeat split; cbn [hd tl]; rewrite <- ?app_assoc; cbn [app]; done.
Qed.

(** X12: an update without a message, or whose message has neither
    caption nor text, changes nothing at all: no line is logged, no request
    is made, no row is written. *)
Theorem main_loop_body_skips detector update s :
  Update_Message update = None
  \/ (exists message, Update_Message update = Some message /\ effective_text message = "") ->
  main_loop_body detector update s = Normal tt s.
Proof.
  intros [Hm|(message & Hm & Ht)]; unfold main_loop_body; rewrite Hm; [done|].
  unfold effective_text in Ht. by rewrite Ht.
Qed.

(** X13: a message with a text or a caption but without a sender ([From]
    is [nil]) makes the loop panic at the first log line, before anything is
    logged, requested or written; the updates after it are never
    handled. *)
Theorem main_loop_panics_without_sender detector update (updates : list Update) message s :
  Update_Message update = Some message ->
  effective_text message <> "" ->
  Message_From message = None ->
  main_loop detector (update :: updates) s = Panic s.
Proof.
  intros Hm Ht Hf. cbn [main_loop]. unfold bot_bind at 1.
  apply String.eqb_neq in Ht. unfold effective_text in Ht.
  body_unfold. by rewrite Hm, Ht, Hf.
Qed.

(** X14: a message of an administrator or of the creator of a chat that is
    not private is only logged, whatever it says, spam and commands
    included: no request, no call into the driver, no row written. *)
Theorem main_loop_body_admin detector update message from s :
  Update_Message update = Some message ->
  effective_text message <> "" ->
  Message_From message = Some from ->
  exempt s message from = true ->
  panics (main_loop_body detector update s) = false
  /\ effects (final (main_loop_body detector update s)) = effects s.
Proof.
  intros Hm Ht Hf He. unfold exempt in He. apply andb_true_iff in He as [Hp Hs].
  body_start Hm Ht Hf. rewrite Hp. proc_simpl.
  destruct (chat_member s _ _) as [status|e]; [|done].
  proc_simpl. by rewrite Hs.
Qed.

(** X15: a command of a sender who is not exempt is never classified: the
    only request it can draw is the answer to [/start] or to [/status], and
    no row is written, also when the text has a link in it. *)
Theorem main_loop_body_commands detector update message from s :
  Update_Message update = Some message ->
  effective_text message <> "" ->
  Message_From message = Some from ->
  exempt s message from = false ->
  Message_IsCommand message = true ->
  panics (main_loop_body detector update s) = false
  /\ effects (final (main_loop_body detector update s))
     = if String.eqb (Message_Command message) "start"
          || String.eqb (Message_Command message) "status"
       then (requests s
               ++ [MessageConfig (Chat_ID (Message_Chat message))
                     (if String.eqb (Message_Command message) "start"
                      then start_text else status_text)],
             tl (api_errors s), spam_records (ledger s), driver_errors (ledger s))
       else effects s.
Proof.
  intros Hm Ht Hf He Hc. body_start Hm Ht Hf. body_not_exempt He;
    rewrite Hc;
    (destruct (String.eqb (Message_Command message) "start");
     [|destruct (String.eqb (Message_Command message) "status")]);
    proc_simpl; try done; by destruct (api_errors s).
Qed.

(** X16: outside of groups and supergroups nothing is classified: a
    message in a private chat or in a channel that is no command draws no
    request and writes no row, whatever its text. *)
Theorem main_loop_body_other_chats detector update message from s :
  Update_Message update = Some message ->
  effective_text message <> "" ->
  Message_From message = Some from ->
  exempt s message from = false ->
  Message_IsCommand message = false ->
  in_group message = false ->
  panics (main_loop_body detector update s) = false
  /\ effects (final (main_loop_body detector update s)) = effects s.
Proof.
  intros Hm Ht Hf He Hc Hg. unfold in_group in Hg.
  body_start Hm Ht Hf. body_not_exempt He; by rewrite Hc, Hg.
Qed.

(** X17: when Telegram refuses to delete a spam message, the offense is
    not recorded: the deletion is the only request, the driver is not
    called, no row is written, nobody is warned or banned. *)
Theorem main_loop_body_delete_fails detector update message from s
    (e : error) (es : list (option error)) :
  Update_Message update = Some message ->
  effective_text message <> "" ->
  Message_From message = Some from ->
  exempt s message from = false ->
  Message_IsCommand message = false ->
  in_group message = true ->
  fst (fst (IsSpam detector (effective_text message))) = true ->
  api_errors s = Some e :: es ->
  panics (main_loop_body detector update s) = false
  /\ effects (final (main_loop_body detector update s))
     = (requests s
          ++ [DeleteMessageConfig (Chat_ID (Message_Chat message)) (Message_MessageID message)],
        es, spam_records (ledger s), driver_errors (ledger s)).
Proof.
  intros Hm Ht Hf He Hc Hg Hspam Hdel.
  unfold in_group in Hg. unfold effective_text in Hspam.
  body_start Hm Ht Hf. body_not_exempt He; rewrite Hc, Hg;
    destruct (IsSpam detector _) as [[isSpam reason] reasonKR];
    cbn [fst snd] in Hspam; subst isSpam; proc_simpl;
    by rewrite Hdel.
Qed.

(** X18: once Telegram has deleted a spam message, [RecordSpam] is called
    once for the chat and the sender, and its result decides: [shouldBan]
    false, a warning with the returned count; [shouldBan] true, a ban
    request and, when the ban is carried out, the ban notice with the
    count. *)
Theorem main_loop_body_after_delete detector update message from s :
  Update_Message update = Some message ->
  effective_text message <> "" ->
  Message_From message = Some from ->
  exempt s message from = false ->
  Message_IsCommand message = false ->
  in_group message = true ->
  fst (fst (IsSpam detector (effective_text message))) = true ->
  hd None (api_errors s) = None ->
  let chatID := Chat_ID (Message_Chat message) in
  let reasonKR := snd (IsSpam detector (effective_text message)) in
  let r := RecordSpam detector chatID (User_ID from) (ledger s) in
  requests (final (main_loop_body detector update s))
  = requests s
    ++ DeleteMessageConfig chatID (Message_MessageID message)
       :: (if snd (fst r) then
             BanChatMemberConfig chatID (User_ID from)
             :: match hd None (tl (api_errors s)) with
                | None =>
                  [MessageConfig chatID
                     (ban_notice (User_UserName from) (fst (fst r)) reasonKR)]
                | Some _ => []
                end
           else
             [MessageConfig chatID
                (warning_notice (User_UserName from) reasonKR (fst (fst r)))])
  /\ spam_records (ledger (final (main_loop_body detector update s)))
     = spam_records (snd r).
Proof.
  intros Hm Ht Hf He Hc Hg Hspam Hdel chatID reasonKR r.
  destruct (body_spam_deleted detector update message from s Hm Ht Hf He Hc Hg Hspam Hdel)
    as (_ & _ & Hrows & _ & Hwarn & Hban).
  split; [|done]. fold chatID reasonKR r in Hwarn, Hban.
  destruct (snd (fst r)).
  - specialize (Hban eq_refl). by destruct (hd None (tl (api_errors s))); destruct Hban.
  - by destruct (Hwarn eq_refl).
Qed.

(** X19: when the database fails after the message has been deleted, the
    sender is warned with the count 0, "(경고 0/3)", and is not banned,
    whatever count the table holds for the sender. *)
Theorem main_loop_body_db_failure_warns_zero detector update message from s
    (e : error) (es : list (option error)) :
  Update_Message update = Some message ->
  effective_text message <> "" ->
  Message_From message = Some from ->
  exempt s message from = false ->
  Message_IsCommand message = false ->
  in_group message = true ->
  fst (fst (IsSpam detector (effective_text message))) = true ->
  hd None (api_errors s) = None ->
  driver_errors (ledger s) = Some e :: es
  \/ driver_errors (ledger s) = None :: Some e :: es ->
  requests (final (main_loop_body detector update s))
  = requests s
    ++ [ DeleteMessageConfig (Chat_ID (Message_Chat message)) (Message_MessageID message);
         MessageConfig (Chat_ID (Message_Chat message))
           (warning_notice (User_UserName from)
              (snd (IsSpam detector (effective_text message))) 0) ].
Proof.
  intros Hm Ht Hf He Hc Hg Hspam Hdel Hdb.
  destruct (body_spam_deleted detector update message from s Hm Ht Hf He Hc Hg Hspam Hdel)
    as (_ & _ & _ & _ & Hwarn & _).
  assert (fst (RecordSpam detector (Chat_ID (Message_Chat message)) (User_ID from) (ledger s))
          = (0, false)) as Hr.
  { destruct (RecordSpam_run detector (Chat_ID (Message_Chat message)) (User_ID from)
                (ledger s)) as [e' es' He'|e' es' He'|Hh _|count Hh _ _]; [done..|].
    exfalso. unfold driver_healthy in Hh.
    destruct Hdb as [Hdb|Hdb]; rewrite Hdb in Hh; simpl in Hh.
    - by inversion Hh.
    - inversion Hh as [|? ? _ Hh']. by inversion Hh'. }
  rewrite Hr in Hwarn. by destruct (Hwarn eq_refl).
Qed.

(** X30: a sender whose count has reached [MaxInt64] is warned with the
    count 0 and not banned, although Telegram and the driver carry out
    every call: the count of the row can no longer be read. *)
Theorem main_loop_body_count_overflow_warns_zero detector update message from s :
  Update_Message update = Some message ->
  effective_text message <> "" ->
  Message_From message = Some from ->
  exempt s message from = false ->
  Message_IsCommand message = false ->
  in_group message = true ->
  fst (fst (IsSpam detector (effective_text message))) = true ->
  hd None (api_errors s) = None ->
  driver_healthy 2 (ledger s) ->
  MaxInt64
  <= count_of (spam_records (ledger s)) (Chat_ID (Message_Chat message), User_ID from) ->
  requests (final (main_loop_body detector update s))
  = requests s
    ++ [ DeleteMessageConfig (Chat_ID (Message_Chat message)) (Message_MessageID message);
         MessageConfig (Chat_ID (Message_Chat message))
           (warning_notice (User_UserName from)
              (snd (IsSpam detector (effective_text message))) 0) ].
Proof.
  intros Hm Ht Hf He Hc Hg Hspam Hdel Hh Hmax.
  destruct (body_spam_deleted detector update message from s Hm Ht Hf He Hc Hg Hspam Hdel)
    as (_ & _ & _ & _ & Hwarn & _).
  assert (fst (RecordSpam detector (Chat_ID (Message_Chat message)) (User_ID from) (ledger s))
          = (0, false)) as Hr.
  { unfold driver_healthy in Hh.
    destruct (RecordSpam_run detector (Chat_ID (Message_Chat message)) (User_ID from)
                (ledger s)) as [e es He'|e es He'|_ _|count _ Hinc _]; [done..|].
    unfold incrementable in Hinc. lia. }
  rewrite Hr in Hwarn. by destruct (Hwarn eq_refl).
Qed.

(** X20: whatever the update and the state, the requests of one step are
    nothing, one message to the chat, or the deletion of the handled
    message followed by nothing, by one message to the chat, or by the ban
    of its sender alone or with one message to the chat.  Nobody but the
    sender is ever banned, nothing but the handled message is ever deleted,
    and no ban goes without the deletion before it. *)
Theorem main_loop_body_requests detector update s :
  exists new,
    requests (final (main_loop_body detector update s)) = requests s ++ new
    /\ match Update_Message update with
       | None => new = []
       | Some message =>
         let chatID := Chat_ID (Message_Chat message) in
         new = []
         \/ (exists text, new = [MessageConfig chatID text])
         \/ exists rest,
              new = DeleteMessageConfig chatID (Message_MessageID message) :: rest
              /\ (rest = []
                  \/ (exists text, rest = [MessageConfig chatID text])
                  \/ exists from,
                       Message_From message = Some from
                       /\ (rest = [BanChatMemberConfig chatID (User_ID from)]
                           \/ exists text,
                                rest = [BanChatMemberConfig chatID (User_ID from);
                                        MessageConfig chatID text]))
       end.
Proof.
  assert (forall (l : list Chattable), l = l ++ []) as Hnil
    by (intros; by rewrite app_nil_r).
  body_unfold.
  destruct (Update_Message update) as [message|]; [|by exists []].
  destruct (String.eqb _ ""); [exists []; split; [done | by left]|].
  destruct (Message_From message) as [from|]; [|exists []; split; [done | by left]].
  proc_simpl.
  destruct (negb (String.eqb (Chat_Type (Message_Chat message)) "private"));
    proc_simpl;
    [match goal with
     | |- context [chat_member s ?c ?u] =>
       destruct (chat_member s c u) as [status|e0]
     end; proc_simpl;
     [destruct (is_admin_status status); proc_simpl;
      [exists []; split; [done | by left]|]|]|].
  all: destruct (Message_IsCommand message);
     [ destruct (String.eqb (Message_Command message) "start");
       [|destruct (String.eqb (Message_Command message) "status")];
       proc_simpl; try (exists []; split; [done | by left]);
       destruct (api_errors s); proc_simpl;
       (eexists; split; [reflexivity | right; left; by eexists])
     |].
  all: destruct (String.eqb (Chat_Type (Message_Chat message)) "group"
               || String.eqb (Chat_Type (Message_Chat message)) "supergroup");
     [|exists []; split; [done | by left]].
  all: match goal with
    | |- context [IsSpam ?d ?t] => destruct (IsSpam d t) as [[[] reason] reasonKR]
    end; [|exists []; split; [done | by left]].
  all: proc_simpl.
  all: destruct (api_errors s) as [|[e1|] aerrs]; proc_simpl.
  all: try (eexists; split; [reflexivity | right; right; eexists; split; [reflexivity | by left]]).
  all: match goal with
    | |- context [RecordSpam ?d ?c ?u ?w] =>
      destruct (RecordSpam d c u w) as [[count []] w']
    end;
    proc_simpl;
    repeat (match goal with
            | |- context [match ?l with [] => _ | _ :: _ => _ end] =>
              is_var l; destruct l as [|[?|] ?]
            end; proc_simpl);
    rewrite <- ?app_assoc; cbn [app].
  all: (eexists; split; [reflexivity|]); right; right; (eexists; split; [reflexivity|]).
  all: first [ right; left; by eexists
          | right; right; eexists; split; [done|]; first [by left | right; by eexists] ].
Qed.
(** X21: a message that is no command and that [IsSpam] does not flag is
    let through, in a group as anywhere else: it is logged and nothing else
    happens. *)
Theorem main_loop_body_not_spam detector update message from s :
  Update_Message update = Some message ->
  effective_text message <> "" ->
  Message_From message = Some from ->
  fst (fst (IsSpam detector (effective_text message))) = false ->
  Message_IsCommand message = false ->
  panics (main_loop_body detector update s) = false
  /\ effects (final (main_loop_body detector update s)) = effects s.
Proof.
  intros Hm Ht Hf Hspam Hc. unfold effective_text in Hspam.
  body_start Hm Ht Hf.
  destruct (negb (String.eqb (Chat_Type (Message_Chat message)) "private")); proc_simpl;
    [match goal with
     | |- context [chat_member s ?c ?u] => destruct (chat_member s c u) as [status|e]
     end; proc_simpl;
     [destruct (is_admin_status status); proc_simpl; [done|]|]|];
    rewrite Hc; (destruct (_ || _); [|done]);
    destruct (IsSpam detector _) as [[isSpam reason] reasonKR];
    cbn [fst snd] in Hspam; by subst isSpam.
Qed.

Lemma body_rows detector update s :
  spam_records (ledger (final (main_loop_body detector update s)))
  = spam_records (ledger s)
  \/ exists message from,
       Update_Message update = Some message
       /\ Message_From message = Some from
       /\ exempt s message from = false
       /\ Message_IsCommand message = false
       /\ in_group message = true
       /\ fst (fst (IsSpam detector (effective_text message))) = true
       /\ hd None (api_errors s) = None
       /\ hd None (driver_errors (ledger s)) = None
       /\ spam_records (ledger (final (main_loop_body detector update s)))
          = upsert (Chat_ID (Message_Chat message)) (User_ID from)
              (spam_records (ledger s)).
Proof.
  destruct (Update_Message update) as [message|] eqn:Hm;
    [|left; unfold main_loop_body; by rewrite Hm].
  destruct (String.eqb (effective_text message) "") eqn:Ht.
  { left. unfold main_loop_body, effective_text in *. by rewrite Hm, Ht. }
  apply String.eqb_neq in Ht.
  destruct (Message_From message) as [from|] eqn:Hf.
  2: { left. apply String.eqb_neq in Ht. unfold effective_text in Ht.
       body_unfold. by rewrite Hm, Ht, Hf. }
  destruct (exempt s message from) eqn:He.
  { left. unfold exempt in He. apply andb_true_iff in He as [Hp Hs].
    body_start Hm Ht Hf. rewrite Hp. proc_simpl.
    destruct (chat_member s _ _) as [status|e]; [|done].
    proc_simpl. by rewrite Hs. }
  destruct (Message_IsCommand message) eqn:Hc.
  { left. body_start Hm Ht Hf. body_not_exempt He; rewrite Hc;
      (destruct (String.eqb (Message_Command message) "start");
       [|destruct (String.eqb (Message_Command message) "status")]);
      proc_simpl; try done; by destruct (api_errors s). }
  destruct (in_group message) eqn:Hg.
  2: { left. unfold in_group in Hg. body_start Hm Ht Hf.
       body_not_exempt He; by rewrite Hc, Hg. }
  destruct (fst (fst (IsSpam detector (effective_text message)))) eqn:Hspam.
  2: { left. unfold in_group in Hg. unfold effective_text in Hspam.
       body_start Hm Ht Hf. body_not_exempt He; rewrite Hc, Hg;
         destruct (IsSpam detector _) as [[isSpam reason] reasonKR];
         cbn [fst snd] in Hspam; by subst isSpam. }
  destruct (api_errors s) as [|[e|] es] eqn:Hdel.
  2: { left. unfold in_group in Hg. unfold effective_text in Hspam.
       body_start Hm Ht Hf. body_not_exempt He; rewrite Hc, Hg;
         destruct (IsSpam detector _) as [[isSpam reason] reasonKR];
         cbn [fst snd] in Hspam; subst isSpam; proc_simpl;
         by rewrite Hdel. }
  all: assert (hd None (api_errors s) = None) as Hhd by (by rewrite Hdel).
  all: rewrite <- Hdel in *.
  all: destruct (body_spam_deleted detector update message from s Hm Ht Hf He Hc Hg Hspam Hhd)
         as (_ & _ & Hrows & _ & _ & _).
  all: rewrite Hrows.
  all: destruct (RecordSpam_run detector (Chat_ID (Message_Chat message)) (User_ID from)
                   (ledger s)) as [e' es' He'|e' es' He'|Hh _|count Hh _ _]; [by left|..].
  all: right; exists message, from; repeat split; try done.
  all: try by rewrite He'.
  all: unfold driver_healthy in Hh; destruct (driver_errors (ledger s)) as [|e1 es1]; [done|].
  all: simpl in Hh; by inversion Hh.
Qed.

(** X22: a step writes to the table only for a spam message in a group
    from a sender who is not exempt, after Telegram has deleted the
    message, and then it is the one upsert of the row of the chat and the
    sender; every other step leaves all rows as they are. *)
Theorem main_loop_body_rows detector update s :
  spam_records (ledger (final (main_loop_body detector update s)))
  <> spam_records (ledger s) ->
  exists message from,
    Update_Message update = Some message
    /\ Message_From message = Some from
    /\ exempt s message from = false
    /\ Message_IsCommand message = false
    /\ in_group message = true
    /\ fst (fst (IsSpam detector (effective_text message))) = true
    /\ hd None (api_errors s) = None
    /\ hd None (driver_errors (ledger s)) = None
    /\ spam_records (ledger (final (main_loop_body detector update s)))
       = upsert (Chat_ID (Message_Chat message)) (User_ID from)
           (spam_records (ledger s)).
Proof.
  intros Hne. by destruct (body_rows detector update s) as [Heq|Hw].
Qed.

(** X23: nobody is banned below the threshold: when a step asks Telegram
    to ban a user, the row of that chat and user then holds a count of
    [banThreshold] or more. *)
Theorem main_loop_body_ban_needs_threshold detector update s
    (new : list Chattable) (chatID userID : Z) :
  requests (final (main_loop_body detector update s)) = requests s ++ new ->
  In (BanChatMemberConfig chatID userID) new ->
  banThreshold detector
  <= count_of (spam_records (ledger (final (main_loop_body detector update s))))
       (chatID, userID).
Proof.
  assert (forall (l : list Chattable), l = l ++ new -> In (BanChatMemberConfig chatID userID) new -> False) as Hnil.
  { intros l Hl Hin. rewrite <- (app_nil_r l) in Hl at 1.
    apply app_inv_head in Hl. by subst new. }
  assert (forall (l : list Chattable) c text,
            l ++ [MessageConfig c text] = l ++ new ->
            In (BanChatMemberConfig chatID userID) new -> False) as Hone.
  { intros l c text Hl Hin. apply app_inv_head in Hl. subst new.
    by destruct Hin as [Hin|[]]. }
  body_unfold.
  destruct (Update_Message update) as [message|]; [|intros; exfalso; eauto].
  destruct (String.eqb _ ""); [intros; exfalso; eauto|].
  destruct (Message_From message) as [from|]; [|intros; exfalso; eauto].
  proc_simpl.
  destruct (negb (String.eqb (Chat_Type (Message_Chat message)) "private"));
    proc_simpl;
    [match goal with
     | |- context [chat_member s ?c ?u] =>
       destruct (chat_member s c u) as [status|e0]
     end; proc_simpl;
     [destruct (is_admin_status status); proc_simpl;
      [intros; exfalso; eauto|]|]|].
  all: destruct (Message_IsCommand message);
     [ destruct (String.eqb (Message_Command message) "start");
       [|destruct (String.eqb (Message_Command message) "status")];
       proc_simpl; try (intros; exfalso; by eauto);
       destruct (api_errors s); proc_simpl; intros; exfalso; by eauto
     |].
  all: destruct (String.eqb (Chat_Type (Message_Chat message)) "group"
               || String.eqb (Chat_Type (Message_Chat message)) "supergroup");
     [|intros; exfalso; by eauto].
  all: match goal with
    | |- context [IsSpam ?d ?t] => destruct (IsSpam d t) as [[[] reason] reasonKR]
    end; [|intros; exfalso; by eauto].
  all: proc_simpl.
  all: destruct (api_errors s) as [|[e1|] aerrs]; proc_simpl.
  all: match goal with
    | |- context [RecordSpam ?d ?c ?u ?w] =>
      pose proof (RecordSpam_run d c u w) as Hrun;
      destruct (RecordSpam d c u w) as [[count shouldBan] w']
    | _ => idtac
    end;
    cbn [fst snd] in *.
  all: try (inversion Hrun as [e es He|e es He|Hh Hc|count' Hh Hinc Hc]; subst; clear Hrun).
  all: proc_simpl.
  all: try (destruct (_ >=? _) eqn:Hge).
  all: proc_simpl;
    repeat (match goal with
            | |- context [match ?l with [] => _ | _ :: _ => _ end] =>
              is_var l; destruct l as [|[?|] ?]
            end; proc_simpl);
    rewrite <- ?app_assoc; cbn [app].
  all: intros Hl Hin; apply app_inv_head in Hl; subst new; cbn [In] in Hin.
  all: repeat (destruct Hin as [Hin|Hin]; [try discriminate Hin|]); try done.
  all: injection Hin as <- <-; cbn [spam_records] in Hinc;
    rewrite upsert_count_of, (add_one_incrementable _ Hinc), Z.geb_leb in *; lia.
Qed.

Lemma body_grows detector update s :
  chat_member (final (main_loop_body detector update s)) = chat_member s
  /\ exists new, requests (final (main_loop_body detector update s)) = requests s ++ new.
Proof.
  assert (forall (l : list Chattable), exists new, l = l ++ new) as Hnil
    by (intros l; exists []; by rewrite app_nil_r).
  body_unfold.
  destruct (Update_Message update) as [message|]; [|done].
  destruct (String.eqb _ ""); [done|].
  destruct (Message_From message) as [from|]; [|done].
  proc_simpl.
  destruct (negb (String.eqb (Chat_Type (Message_Chat message)) "private"));
    proc_simpl;
    [match goal with
     | |- context [chat_member s ?c ?u] =>
       destruct (chat_member s c u) as [status|e0]
     end; proc_simpl;
     [destruct (is_admin_status status); proc_simpl; [done|]|]|].
  all: destruct (Message_IsCommand message);
     [ destruct (String.eqb (Message_Command message) "start");
       [|destruct (String.eqb (Message_Command message) "status")];
       proc_simpl; try done;
       destruct (api_errors s); proc_simpl; (split; [done|by eexists])
     |].
  all: destruct (String.eqb (Chat_Type (Message_Chat message)) "group"
               || String.eqb (Chat_Type (Message_Chat message)) "supergroup");
     [|done].
  all: match goal with
    | |- context [IsSpam ?d ?t] => destruct (IsSpam d t) as [[[] reason] reasonKR]
    end; [|done].
  all: proc_simpl.
  all: destruct (api_errors s) as [|[e1|] aerrs]; proc_simpl.
  all: match goal with
    | |- context [RecordSpam ?d ?c ?u ?w] =>
      destruct (RecordSpam d c u w) as [[count []] w']
    | _ => idtac
    end;
    proc_simpl;
    repeat (match goal with
            | |- context [match ?l with [] => _ | _ :: _ => _ end] =>
              is_var l; destruct l as [|[?|] ?]
            end; proc_simpl);
    rewrite <- ?app_assoc; cbn [app].
  all: split; [done|by eexists].
Qed.

Lemma upsert_count_of_le (chatID userID : Z) (t : gmap (Z * Z) Z) (key : Z * Z) :
  count_of t key <= count_of (upsert chatID userID t) key.
Proof.
  destruct (decide (key = (chatID, userID))) as [->|Hne].
  - rewrite upsert_count_of. apply add_one_bounds.
  - unfold count_of. by rewrite upsert_lookup_ne.
Qed.

(** X24: over any run of the loop, panic or not, what [GetChatMember]
    answers stays as it is, the requests made are only added to, and no
    count of the table ever goes down: neither a ban nor anything else
    resets a count. *)
Theorem main_loop_grows detector (updates : list Update) s :
  chat_member (final (main_loop detector updates s)) = chat_member s
  /\ (exists new, requests (final (main_loop detector updates s)) = requests s ++ new)
  /\ forall key,
       count_of (spam_records (ledger s)) key
       <= count_of (spam_records (ledger (final (main_loop detector updates s)))) key.
Proof.
  revert s. induction updates as [|update updates IH]; intros s.
  - cbn. split; [done|]. split; [exists []; by rewrite app_nil_r | intros; lia].
  - cbn [main_loop]. unfold bot_bind.
    destruct (body_grows detector update s) as (Hcm & new & Hreq).
    assert (forall key,
              count_of (spam_records (ledger s)) key
              <= count_of (spam_records (ledger (final (main_loop_body detector update s)))) key)
      as Hrows.
    { intros key. destruct (body_rows detector update s)
        as [->|(message & from & _ & _ & _ & _ & _ & _ & _ & _ & ->)]; [lia|].
      apply upsert_count_of_le. }
    destruct (main_loop_body detector update s) as [[] s1|s1];
      cbn beta iota delta [final] in *.
    + destruct (IH s1) as (Hcm' & (new' & Hreq') & Hrows').
      split; [congruence|]. split.
      * exists (new ++ new'). by rewrite Hreq', Hreq, app_assoc.
      * intros key. specialize (Hrows key). specialize (Hrows' key). lia.
    + split; [done|]. split; [by exists new | done].
Qed.

Lemma Forall_None_hd (es : list (option error)) :
  Forall (fun e => e = None) es -> hd None es = None.
Proof. by destruct 1. Qed.

Lemma Forall_None_tl (es : list (option error)) :
  Forall (fun e => e = None) es -> Forall (fun e => e = None) (tl es).
Proof. by destruct 1. Qed.

Lemma body_strike detector update s (chatID userID : Z) :
  all_succeed s ->
  spam_update detector s chatID userID update ->
  incrementable (count_of (spam_records (ledger s)) (chatID, userID)) ->
  exists s1,
    main_loop_body detector update s = Normal tt s1
    /\ all_succeed s1
    /\ chat_member s1 = chat_member s
    /\ requests s1
       = requests s
         ++ strikes detector [update] (count_of (spam_records (ledger s)) (chatID, userID))
    /\ spam_records (ledger s1) = upsert chatID userID (spam_records (ledger s)).
Proof.
  intros [Hapi Hdrv] (message & from & Hm & Hf & Ht & <- & <- & He & Hc & Hg & Hspam) Hinc.
  pose proof (Forall_None_hd _ Hapi) as Hdel.
  destruct (body_spam_deleted detector update message from s Hm Ht Hf He Hc Hg Hspam Hdel)
    as (Hp & Hcm & Hrows & Hderrs & Hwarn & Hban).
  assert (driver_healthy 2 (ledger s)) as Hh by (by apply Forall_take).
  rewrite (RecordSpam_healthy detector _ _ _ Hh Hinc) in Hrows, Hderrs, Hwarn, Hban.
  cbn [fst snd spam_records driver_errors] in Hrows, Hderrs, Hwarn, Hban.
  destruct (main_loop_body detector update s) as [[] s1|s1]; [|done].
  cbn [final] in *. exists s1. split; [done|].
  cbn [strikes]. rewrite Hm, Hf, app_nil_r. unfold spam_requests.
  pose proof (Forall_None_tl _ Hapi) as Hapi1.
  pose proof (Forall_None_tl _ Hapi1) as Hapi2.
  pose proof (Forall_None_tl _ Hapi2) as Hapi3.
  assert (Forall (fun e => e = None) (driver_errors (ledger s1))) as Hdrv1
    by (rewrite Hderrs; by apply Forall_drop).
  destruct (_ >=? _).
  - specialize (Hban eq_refl). rewrite (Forall_None_hd _ Hapi1) in Hban.
    destruct Hban as [Hreq Hapi']. repeat split; try done. by rewrite Hapi'.
  - destruct (Hwarn eq_refl) as [Hreq Hapi']. repeat split; try done. by rewrite Hapi'.
Qed.

Lemma spam_update_chat_member detector s s1 (chatID userID : Z) update :
  chat_member s1 = chat_member s ->
  spam_update detector s chatID userID update ->
  spam_update detector s1 chatID userID update.
Proof.
  intros Hcm (message & from & Hm & Hf & Ht & Hchat & Huser & He & Hrest).
  exists message, from. repeat split; try done; try apply Hrest.
  unfold exempt in *. by rewrite Hcm.
Qed.

(** X25: strikes from end to end.  While Telegram and the driver carry out
    every call, a run of spam messages of one user in one group, the count
    being [count] before, does not panic and draws for the k-th of them the
    deletion and, with the count [count + k], the warning below the
    threshold, the ban and its notice from the threshold on; the count ends
    at [count] plus the number of messages.  The counts are INTEGERs: the
    one before is, and the one after is at most [MaxInt64]. *)
Theorem main_loop_strikes detector (updates : list Update) s (chatID userID : Z) :
  all_succeed s ->
  Forall (spam_update detector s chatID userID) updates ->
  MinInt64 <= count_of (spam_records (ledger s)) (chatID, userID) ->
  count_of (spam_records (ledger s)) (chatID, userID) + Z.of_nat (length updates)
    <= MaxInt64 ->
  panics (main_loop detector updates s) = false
  /\ requests (final (main_loop detector updates s))
     = requests s
       ++ strikes detector updates (count_of (spam_records (ledger s)) (chatID, userID))
  /\ count_of (spam_records (ledger (final (main_loop detector updates s)))) (chatID, userID)
     = count_of (spam_records (ledger s)) (chatID, userID) + Z.of_nat (length updates).
Proof.
  revert s. induction updates as [|update updates IH]; intros s Hok Hall Hmin Hmax.
  - cbn. rewrite app_nil_r. repeat split; lia.
  - apply Forall_cons in Hall as [Hu Hall]. cbn [length] in Hmax.
    assert (incrementable (count_of (spam_records (ledger s)) (chatID, userID))) as Hinc
      by (unfold incrementable; lia).
    destruct (body_strike detector update s chatID userID Hok Hu Hinc)
      as (s1 & Hbody & Hok1 & Hcm & Hreq & Hrows).
    cbn [main_loop]. unfold bot_bind. rewrite Hbody.
    destruct (IH s1 Hok1) as (Hp & Hreq' & Hrows');
      rewrite ?Hrows, ?upsert_count_of, ?(add_one_incrementable _ Hinc); [|lia..|].
    { eapply Forall_impl; [exact Hall|].
      intros u. by apply spam_update_chat_member. }
    split; [done|].
    rewrite Hreq', Hrows', Hreq, Hrows, upsert_count_of, (add_one_incrementable _ Hinc).
    split; [|cbn [length]; lia].
    rewrite <- app_assoc. f_equal.
    cbn [strikes]. by rewrite app_nil_r.
Qed.

Lemma main_start (userName : string) s :
  (lift (log_Printf ("Authorized on account " +:+ userName)) ;;~ lift NewSpamDetector) s
  = match driver_errors (ledger s) with
    | Some e :: es =>
      Normal (Err ("failed to open database: " +:+ e))
        (Process (World (spam_records (ledger s))
                        (log_output (ledger s) ++ ["Authorized on account " +:+ userName]) es)
                 (chat_member s) (api_errors s) (requests s))
    | None :: Some e :: es =>
      Normal (Err ("failed to create table: " +:+ e))
        (Process (World (spam_records (ledger s))
                        (log_output (ledger s) ++ ["Authorized on account " +:+ userName]) es)
                 (chat_member s) (api_errors s) (requests s))
    | _ => Normal (Ok spamDetector) (started userName s)
    end.
Proof.
  unfold bot_bind, lift, log_Printf, NewSpamDetector, bind, sql_Open, Exec_create_table,
    driver_call, ret, started.
  destruct s as [[t l derrs] cm aerrs reqs]. proc_simpl.
  by destruct derrs as [|[e|] [|[e'|] derrs]].
Qed.

Lemma driver_healthy_2_cases (w : world) :
  driver_healthy 2 w
  <-> match driver_errors w with
      | Some _ :: _ | None :: Some _ :: _ => False
      | _ => True
      end.
Proof.
  unfold driver_healthy.
  destruct (driver_errors w) as [|[e|] [|[e'|] derrs]]; cbn [take];
    (split; [intros Hh|intros Hh]);
    first [ done
          | by repeat constructor
          | by inversion Hh
          | inversion Hh as [|? ? _ Hh']; by inversion Hh' ].
Qed.

(** X26: [main] fails fast.  When [bot.log] cannot be opened, the token is
    empty, [NewBotAPI] fails or the database cannot be opened or prepared,
    the process exits with status 1 before the first update is read: no
    request is made and no row is written. *)
Theorem main_fails_fast (env : environment) s :
  startup_fails env s ->
  fst (main env s) = Exit1
  /\ requests (snd (main env s)) = requests s
  /\ api_errors (snd (main env s)) = api_errors s
  /\ spam_records (ledger (snd (main env s))) = spam_records (ledger s).
Proof.
  intros Hfail. unfold main.
  destruct (OpenFile_error env) as [e|] eqn:Hopen; [by unfold log_Fatal|].
  destruct (String.eqb_spec (TELEGRAM_BOT_TOKEN env) "") as [Htok|Htok];
    [by unfold log_Fatal|].
  destruct (NewBotAPI env (TELEGRAM_BOT_TOKEN env)) as [userName|e] eqn:Hbot;
    [|by unfold log_Fatal].
  destruct Hfail as [Hfail|[Hfail|[[e Hfail]|Hfail]]]; [congruence..|].
  rewrite main_start. rewrite driver_healthy_2_cases in Hfail.
  destruct (driver_errors (ledger s)) as [|[e|] [|[e'|] derrs]];
    first [by destruct Hfail | by unfold log_Fatal].
Qed.

(** X27: once the start has succeeded, [main] runs the loop of
    [spamDetector] over the updates from the state [started] and then the
    deferred [Close], after a panic too: it never exits with status 1, it
    ends with what the loop has requested and written, and [Close] is one
    more call into the driver. *)
Theorem main_runs_loop_then_Close (env : environment) s (userName : string) :
  OpenFile_error env = None ->
  TELEGRAM_BOT_TOKEN env <> "" ->
  NewBotAPI env (TELEGRAM_BOT_TOKEN env) = Ok userName ->
  driver_healthy 2 (ledger s) ->
  let o := main_loop spamDetector (GetUpdatesChan env) (started userName s) in
  fst (main env s) = (if panics o then Panicked else Returned)
  /\ requests (snd (main env s)) = requests (final o)
  /\ spam_records (ledger (snd (main env s))) = spam_records (ledger (final o))
  /\ log_output (ledger (snd (main env s))) = log_output (ledger (final o))
  /\ driver_errors (ledger (snd (main env s))) = tl (driver_errors (ledger (final o))).
Proof.
  intros Hopen Htok Hbot Hh o. unfold main.
  apply String.eqb_neq in Htok. rewrite Hopen, Htok, Hbot, main_start.
  rewrite driver_healthy_2_cases in Hh.
  assert (forall s2, exists s3,
            lift (Close spamDetector) s2 = Normal tt s3
            /\ requests s3 = requests s2
            /\ spam_records (ledger s3) = spam_records (ledger s2)
            /\ log_output (ledger s3) = log_output (ledger s2)
            /\ driver_errors (ledger s3) = tl (driver_errors (ledger s2))) as Hclose.
  { intros [[t l derrs] cm aerrs reqs].
    unfold lift, Close, bind, driver_call, ret. proc_simpl.
    destruct derrs as [|e derrs]; by eexists. }
  destruct (driver_errors (ledger s)) as [|[e|] [|[e'|] derrs]]; try done.
  all: fold o; destruct o as [[] s2|s2]; cbn [panics final].
  all: by destruct (Hclose s2) as (s3 & -> & ? & ? & ? & ?).
Qed.

(** X28: the classifier and the loop together.  In a group or supergroup
    a message with a link token from a sender who is not exempt and that is
    no command is always asked to be deleted, and that is the first request
    of the step, whatever Telegram and the driver do. *)
Theorem main_loop_body_link_deleted update message from s :
  Update_Message update = Some message ->
  Message_From message = Some from ->
  exempt s message from = false ->
  Message_IsCommand message = false ->
  in_group message = true ->
  has_link_token (effective_text message) ->
  exists rest,
    requests (final (main_loop_body spamDetector update s))
    = requests s
      ++ DeleteMessageConfig (Chat_ID (Message_Chat message)) (Message_MessageID message)
         :: rest.
Proof.
  intros Hm Hf He Hc Hg Hlink.
  assert (IsSpam spamDetector (effective_text message) = (true, "URL detected", "URL 감지"))
    as Hspam by (apply IsSpam_link; by apply linkPattern_MatchString).
  assert (effective_text message <> "") as Ht.
  { intros Hempty. rewrite Hempty in Hspam. vm_compute in Hspam. discriminate Hspam. }
  destruct (api_errors s) as [|[e|] es] eqn:Hdel.
  2: { exists []. unfold in_group in Hg. unfold effective_text in Hspam.
       body_start Hm Ht Hf. body_not_exempt He; rewrite Hc, Hg, Hspam; proc_simpl;
         by rewrite Hdel. }
  all: assert (hd None (api_errors s) = None) as Hhd by (by rewrite Hdel).
  all: assert (fst (fst (IsSpam spamDetector (effective_text message))) = true) as Hspam'
         by (by rewrite Hspam).
  all: destruct (body_spam_deleted spamDetector update message from s
                   Hm Ht Hf He Hc Hg Hspam' Hhd) as (_ & _ & _ & _ & Hwarn & Hban).
  all: destruct (snd (fst (RecordSpam spamDetector _ _ (ledger s))));
         [ specialize (Hban eq_refl);
           destruct (hd None (tl (api_errors s))); destruct Hban as [-> _]; by eexists
         | destruct (Hwarn eq_refl) as [-> _]; by eexists ].
Qed.

End main_loop_facts.

(** ** The theorems of the loop at work *)

Lemma main_loop_body_skips_witness :
  @main_loop_body example_CaseRanges spamDetector {| Update_Message := None |}
    (example_process "member" ∅ [] [])
  = Normal tt (example_process "member" ∅ [] []).
Proof.
  apply (@main_loop_body_skips example_CaseRanges spamDetector {| Update_Message := None |}
           (example_process "member" ∅ [] [])).
  left. reflexivity.
Defined.

Lemma main_loop_panics_without_sender_witness :
  @main_loop example_CaseRanges spamDetector
    (update_of example_anonymous :: [update_of example_hello])
    (example_process "member" ∅ [] [])
  = Panic (example_process "member" ∅ [] []).
Proof.
  apply (@main_loop_panics_without_sender example_CaseRanges spamDetector
           (update_of example_anonymous) [update_of example_hello] example_anonymous
           (example_process "member" ∅ [] [])).
  - reflexivity.
  - discriminate.
  - reflexivity.
Defined.

Lemma main_loop_body_admin_witness :
  panics (@main_loop_body example_CaseRanges spamDetector (update_of example_spam)
            (example_process "creator" ∅ [] [])) = false
  /\ effects (final (@main_loop_body example_CaseRanges spamDetector (update_of example_spam)
                       (example_process "creator" ∅ [] [])))
     = effects (example_process "creator" ∅ [] []).
Proof.
  apply (@main_loop_body_admin example_CaseRanges spamDetector (update_of example_spam)
           example_spam example_user (example_process "creator" ∅ [] [])).
  - reflexivity.
  - discriminate.
  - reflexivity.
  - reflexivity.
Defined.

Lemma main_loop_body_commands_witness :
  panics (@main_loop_body example_CaseRanges spamDetector (update_of example_command)
            (example_process "member" ∅ [] [])) = false
  /\ effects (final (@main_loop_body example_CaseRanges spamDetector (update_of example_command)
                       (example_process "member" ∅ [] [])))
     = if String.eqb (Message_Command example_command) "start"
          || String.eqb (Message_Command example_command) "status"
       then (requests (example_process "member" ∅ [] [])
               ++ [MessageConfig (Chat_ID (Message_Chat example_command))
                     (if String.eqb (Message_Command example_command) "start"
                      then start_text else status_text)],
             tl (api_errors (example_process "member" ∅ [] [])),
             spam_records (ledger (example_process "member" ∅ [] [])),
             driver_errors (ledger (example_process "member" ∅ [] [])))
       else effects (example_process "member" ∅ [] []).
Proof.
  apply (@main_loop_body_commands example_CaseRanges spamDetector (update_of example_command)
           example_command example_user (example_process "member" ∅ [] [])).
  - reflexivity.
  - discriminate.
  - reflexivity.
  - reflexivity.
  - reflexivity.
Defined.

Lemma main_loop_body_other_chats_witness :
  panics (@main_loop_body example_CaseRanges spamDetector (update_of example_direct)
            (example_process "member" ∅ [] [])) = false
  /\ effects (final (@main_loop_body example_CaseRanges spamDetector (update_of example_direct)
                       (example_process "member" ∅ [] [])))
     = effects (example_process "member" ∅ [] []).
Proof.
  apply (@main_loop_body_other_chats example_CaseRanges spamDetector (update_of example_direct)
           example_direct example_user (example_process "member" ∅ [] [])).
  - reflexivity.
  - discriminate.
  - reflexivity.
  - reflexivity.
  - reflexivity.
  - reflexivity.
Defined.

Lemma main_loop_body_delete_fails_witness :
  panics (@main_loop_body example_CaseRanges spamDetector (update_of example_spam)
            (example_process "member" ∅ [] [Some "Bad Request"; None])) = false
  /\ effects (final (@main_loop_body example_CaseRanges spamDetector (update_of example_spam)
                       (example_process "member" ∅ [] [Some "Bad Request"; None])))
     = (requests (example_process "member" ∅ [] [Some "Bad Request"; None])
          ++ [DeleteMessageConfig (Chat_ID (Message_Chat example_spam))
                (Message_MessageID example_spam)],
        [None],
        spam_records (ledger (example_process "member" ∅ [] [Some "Bad Request"; None])),
        driver_errors (ledger (example_process "member" ∅ [] [Some "Bad Request"; None]))).
Proof.
  apply (@main_loop_body_delete_fails example_CaseRanges spamDetector (update_of example_spam)
           example_spam example_user
           (example_process "member" ∅ [] [Some "Bad Request"; None]) "Bad Request" [None]).
  - reflexivity.
  - discriminate.
  - reflexivity.
  - reflexivity.
  - reflexivity.
  - reflexivity.
  - vm_compute. reflexivity.
  - reflexivity.
Defined.

Lemma main_loop_body_after_delete_witness :
  let s := example_process "member" {[ (-1001, 7) := 2 ]} [] [] in
  let chatID := Chat_ID (Message_Chat example_spam) in
  let reasonKR :=
    snd (@IsSpam example_CaseRanges spamDetector (effective_text example_spam)) in
  let r := RecordSpam spamDetector chatID (User_ID example_user) (ledger s) in
  requests (final (@main_loop_body example_CaseRanges spamDetector (update_of example_spam) s))
  = requests s
    ++ DeleteMessageConfig chatID (Message_MessageID example_spam)
       :: (if snd (fst r) then
             BanChatMemberConfig chatID (User_ID example_user)
             :: match hd None (tl (api_errors s)) with
                | None =>
                  [MessageConfig chatID
                     (ban_notice (User_UserName example_user) (fst (fst r)) reasonKR)]
                | Some _ => []
                end
           else
             [MessageConfig chatID
                (warning_notice (User_UserName example_user) reasonKR (fst (fst r)))])
  /\ spam_records
       (ledger (final (@main_loop_body example_CaseRanges spamDetector
                         (update_of example_spam) s)))
     = spam_records (snd r).
Proof.
  apply (@main_loop_body_after_delete example_CaseRanges spamDetector (update_of example_spam)
           example_spam example_user
           (example_process "member" {[ (-1001, 7) := 2 ]} [] [])).
  - reflexivity.
  - discriminate.
  - reflexivity.
  - reflexivity.
  - reflexivity.
  - reflexivity.
  - vm_compute. reflexivity.
  - reflexivity.
Defined.

Lemma main_loop_body_db_failure_warns_zero_witness :
  requests (final (@main_loop_body example_CaseRanges spamDetector (update_of example_spam)
                     (example_process "member" {[ (-1001, 7) := 5 ]}
                        [Some "database is locked"] [])))
  = requests (example_process "member" {[ (-1001, 7) := 5 ]} [Some "database is locked"] [])
    ++ [ DeleteMessageConfig (Chat_ID (Message_Chat example_spam))
           (Message_MessageID example_spam);
         MessageConfig (Chat_ID (Message_Chat example_spam))
           (warning_notice (User_UserName example_user)
              (snd (@IsSpam example_CaseRanges spamDetector (effective_text example_spam)))
              0) ].
Proof.
  apply (@main_loop_body_db_failure_warns_zero example_CaseRanges spamDetector
           (update_of example_spam) example_spam example_user
           (example_process "member" {[ (-1001, 7) := 5 ]} [Some "database is locked"] [])
           "database is locked" []).
  - reflexivity.
  - discriminate.
  - reflexivity.
  - reflexivity.
  - reflexivity.
  - reflexivity.
  - vm_compute. reflexivity.
  - reflexivity.
  - left. reflexivity.
Defined.

Lemma main_loop_body_not_spam_witness :
  panics (@main_loop_body example_CaseRanges spamDetector (update_of example_hello)
            (example_process "member" ∅ [] [])) = false
  /\ effects (final (@main_loop_body example_CaseRanges spamDetector (update_of example_hello)
                       (example_process "member" ∅ [] [])))
     = effects (example_process "member" ∅ [] []).
Proof.
  apply (@main_loop_body_not_spam example_CaseRanges spamDetector (update_of example_hello)
           example_hello example_user (example_process "member" ∅ [] [])).
  - reflexivity.
  - discriminate.
  - reflexivity.
  - vm_compute. reflexivity.
  - reflexivity.
Defined.

Lemma main_loop_body_rows_witness :
  exists message from,
    Update_Message (update_of example_spam) = Some message
    /\ Message_From message = Some from
    /\ exempt (example_process "member" ∅ [] []) message from = false
    /\ Message_IsCommand message = false
    /\ in_group message = true
    /\ fst (fst (@IsSpam example_CaseRanges spamDetector (effective_text message))) = true
    /\ hd None (api_errors (example_process "member" ∅ [] [])) = None
    /\ hd None (driver_errors (ledger (example_process "member" ∅ [] []))) = None
    /\ spam_records
         (ledger (final (@main_loop_body example_CaseRanges spamDetector
                           (update_of example_spam) (example_process "member" ∅ [] []))))
       = upsert (Chat_ID (Message_Chat message)) (User_ID from)
           (spam_records (ledger (example_process "member" ∅ [] []))).
Proof.
  apply (@main_loop_body_rows example_CaseRanges spamDetector (update_of example_spam)
           (example_process "member" ∅ [] [])).
  intros Heq. apply (f_equal (fun t => t !! (-1001, 7))) in Heq.
  vm_compute in Heq. discriminate Heq.
Defined.

Lemma main_loop_body_ban_needs_threshold_witness :
  banThreshold spamDetector
  <= count_of
       (spam_records
          (ledger (final (@main_loop_body example_CaseRanges spamDetector
                            (update_of example_spam)
                            (example_process "member" {[ (-1001, 7) := 2 ]} [] [])))))
       (-1001, 7).
Proof.
  apply (@main_loop_body_ban_needs_threshold example_CaseRanges spamDetector
           (update_of example_spam)
           (example_process "member" {[ (-1001, 7) := 2 ]} [] [])
           (spam_requests example_spam example_user "URL 감지" 3 true)).
  - vm_compute. reflexivity.
  - simpl. right. left. reflexivity.
Defined.

Lemma main_loop_strikes_witness :
  panics (@main_loop example_CaseRanges spamDetector
            [update_of example_spam; update_of example_spam; update_of example_spam]
            (example_process "member" ∅ [] [])) = false
  /\ requests (final (@main_loop example_CaseRanges spamDetector
                        [update_of example_spam; update_of example_spam;
                         update_of example_spam]
                        (example_process "member" ∅ [] [])))
     = requests (example_process "member" ∅ [] [])
       ++ @strikes example_CaseRanges spamDetector
            [update_of example_spam; update_of example_spam; update_of example_spam]
            (count_of (spam_records (ledger (example_process "member" ∅ [] []))) (-1001, 7))
  /\ count_of
       (spam_records
          (ledger (final (@main_loop example_CaseRanges spamDetector
                            [update_of example_spam; update_of example_spam;
                             update_of example_spam]
                            (example_process "member" ∅ [] [])))))
       (-1001, 7)
     = count_of (spam_records (ledger (example_process "member" ∅ [] []))) (-1001, 7)
       + Z.of_nat (length [update_of example_spam; update_of example_spam;
                           update_of example_spam]).
Proof.
  apply (@main_loop_strikes example_CaseRanges spamDetector
           [update_of example_spam; update_of example_spam; update_of example_spam]
           (example_process "member" ∅ [] []) (-1001) 7).
  - split; constructor.
  - repeat constructor;
      (exists example_spam, example_user;
       repeat split; try reflexivity; try discriminate; vm_compute; reflexivity).
  - vm_compute. discriminate.
  - vm_compute. discriminate.
Defined.

Lemma main_fails_fast_witness :
  fst (@main example_CaseRanges (example_environment "" [update_of example_spam])
         (example_process "member" ∅ [] [])) = Exit1
  /\ requests (snd (@main example_CaseRanges (example_environment "" [update_of example_spam])
                      (example_process "member" ∅ [] [])))
     = requests (example_process "member" ∅ [] [])
  /\ api_errors (snd (@main example_CaseRanges
                        (example_environment "" [update_of example_spam])
                        (example_process "member" ∅ [] [])))
     = api_errors (example_process "member" ∅ [] [])
  /\ spam_records
       (ledger (snd (@main example_CaseRanges
                       (example_environment "" [update_of example_spam])
                       (example_process "member" ∅ [] []))))
     = spam_records (ledger (example_process "member" ∅ [] [])).
Proof.
  apply (@main_fails_fast example_CaseRanges
           (example_environment "" [update_of example_spam])
           (example_process "member" ∅ [] [])).
  right. left. reflexivity.
Defined.

Lemma main_runs_loop_then_Close_witness :
  let env := example_environment "123456:token"
               [update_of example_spam; update_of example_anonymous] in
  let s := example_process "member" ∅ [] [] in
  let o := @main_loop example_CaseRanges spamDetector (GetUpdatesChan env)
             (started "aptos_wall_bot" s) in
  fst (@main example_CaseRanges env s) = (if panics o then Panicked else Returned)
  /\ requests (snd (@main example_CaseRanges env s)) = requests (final o)
  /\ spam_records (ledger (snd (@main example_CaseRanges env s)))
     = spam_records (ledger (final o))
  /\ log_output (ledger (snd (@main example_CaseRanges env s)))
     = log_output (ledger (final o))
  /\ driver_errors (ledger (snd (@main example_CaseRanges env s)))
     = tl (driver_errors (ledger (final o))).
Proof.
  apply (@main_runs_loop_then_Close example_CaseRanges
           (example_environment "123456:token"
              [update_of example_spam; update_of example_anonymous])
           (example_process "member" ∅ [] []) "aptos_wall_bot").
  - reflexivity.
  - discriminate.
  - reflexivity.
  - constructor.
Defined.

Lemma main_loop_body_link_deleted_witness :
  exists rest,
    requests (final (@main_loop_body example_CaseRanges spamDetector (update_of example_spam)
                       (example_process "member" ∅ [Some "disk I/O error"] [])))
    = requests (example_process "member" ∅ [Some "disk I/O error"] [])
      ++ DeleteMessageConfig (Chat_ID (Message_Chat example_spam))
           (Message_MessageID example_spam)
         :: rest.
Proof.
  apply (@main_loop_body_link_deleted example_CaseRanges (update_of example_spam)
           example_spam example_user
           (example_process "member" ∅ [Some "disk I/O error"] [])).
  - reflexivity.
  - reflexivity.
  - reflexivity.
  - reflexivity.
  - reflexivity.
  - apply linkPattern_MatchString. vm_compute. reflexivity.
Defined.

Lemma main_loop_body_count_overflow_warns_zero_witness :
  requests (final (@main_loop_body example_CaseRanges spamDetector (update_of example_spam)
                     (example_process "member" {[ (-1001, 7) := MaxInt64 ]} [] [])))
  = requests (example_process "member" {[ (-1001, 7) := MaxInt64 ]} [] [])
    ++ [ DeleteMessageConfig (Chat_ID (Message_Chat example_spam))
           (Message_MessageID example_spam);
         MessageConfig (Chat_ID (Message_Chat example_spam))
           (warning_notice (User_UserName example_user)
              (snd (@IsSpam example_CaseRanges spamDetector (effective_text example_spam)))
              0) ].
Proof.
  apply (@main_loop_body_count_overflow_warns_zero example_CaseRanges spamDetector
           (update_of example_spam) example_spam example_user
           (example_process "member" {[ (-1001, 7) := MaxInt64 ]} [] [])).
  - reflexivity.
  - discriminate.
  - reflexivity.
  - reflexivity.
  - reflexivity.
  - reflexivity.
  - vm_compute. reflexivity.
  - reflexivity.
  - constructor.
  - vm_compute. discriminate.
Defined.
